(** * Receipt analyzer: the structured field extraction engine

    A shallow embedding of the receipt analyzer's text engine
    (class [ReceiptAnalyzer]: [postprocessText], [extractFieldWithPrompt],
    [extractItems], [categorizeStore], [parseReceiptText],
    [parseReceiptImage], [saveAsAccountingCsv], [mapCategoryToAccount],
    [parseArgs] and the rule table [japaneseReceiptPrompts]), of the raw
    export [saveSimpleCsv] and of the first parser [VisionReceiptParser],
    together with the part of
    the JavaScript runtime these functions rely on: strings as sequences
    of UTF-16 code units, the backtracking regular-expression matcher,
    [String.prototype.match], [replace], [split], [trim], [padStart],
    [parseInt], [Math.max] and the truthiness test behind [||]. *)

From stdpp Require Import gmap strings list.
From Stdlib Require Import NArith ZArith Lia DecimalPos.

Local Open Scope N_scope.

(** ** JavaScript strings *)

(** A JavaScript string is a sequence of UTF-16 code units.  Every
    character the program names lies in the Basic Multilingual Plane, so a
    code unit is a code point there. *)
Definition jsstring := list N.

Fixpoint bytes_of (s : string) : list N :=
  match s with
  | EmptyString => []
  | String a s' => Ascii.N_of_ascii a :: bytes_of s'
  end.

(** Source literals are written in UTF-8; [utf8_decode] turns the bytes of
    a one-, two- or three-byte sequence into the code unit. *)
Fixpoint utf8_decode (bs : list N) : jsstring :=
  match bs with
  | [] => []
  | b0 :: t0 =>
      if b0 <? 128 then b0 :: utf8_decode t0
      else
        match t0 with
        | [] => [b0]
        | b1 :: t1 =>
            if b0 <? 224 then ((b0 - 192) * 64 + (b1 - 128)) :: utf8_decode t1
            else
              match t1 with
              | [] => [b0; b1]
              | b2 :: t2 =>
                  ((b0 - 224) * 4096 + (b1 - 128) * 64 + (b2 - 128))
                    :: utf8_decode t2
              end
        end
  end.

Definition js (s : string) : jsstring := utf8_decode (bytes_of s).
Arguments js s%_string.

(** The first (and only) code unit of a one-character literal. *)
Definition ch (s : string) : N := hd 0 (js s).
Arguments ch s%_string.

Definition code_nl : N := 10.
Definition code_sp : N := 32.

Definition is_digit (x : N) : bool := (48 <=? x) && (x <=? 57).

(** [\s], and the characters [trim] strips: WhiteSpace and LineTerminator
    of the language specification. *)
Definition is_space (x : N) : bool :=
  ((9 <=? x) && (x <=? 13)) || (x =? 32) || (x =? 160) || (x =? 5760)
  || ((8192 <=? x) && (x <=? 8202)) || (x =? 8232) || (x =? 8233)
  || (x =? 8239) || (x =? 8287) || (x =? 12288) || (x =? 65279).

(** The characters [.] refuses. *)
Definition is_line_terminator (x : N) : bool :=
  (x =? 10) || (x =? 13) || (x =? 8232) || (x =? 8233).

Definition is_lower (x : N) : bool := (97 <=? x) && (x <=? 122).
Definition is_upper (x : N) : bool := (65 <=? x) && (x <=? 90).
Definition ascii_upper (x : N) : N := if is_lower x then x - 32 else x.
Definition ascii_lower (x : N) : N := if is_upper x then x + 32 else x.

Definition jsstring_eqb (a b : jsstring) : bool := bool_decide (a = b).

(** ** Regular expressions *)

(** Character classes, as written between brackets. *)
Inductive cclass : Type :=
  | CChar (c : N)
  | CRange (lo hi : N)
  | CDigit
  | CSpace
  | CUnion (a b : cclass).

(** The syntax the program's patterns use.  Groups carry their number;
    [(?:...)] needs no constructor.  There is no [^], word boundary,
    look-around or back-reference in any pattern of the program, so a
    matcher state is the remaining input and the captures. *)
Inductive regex : Type :=
  | REmpty
  | RChar (cs : cclass)
  | RNot (cs : cclass)
  | RAny
  | RSeq (r1 r2 : regex)
  | RAlt (r1 r2 : regex)
  | RQuant (greedy : bool) (min : nat) (max : option nat) (r : regex)
  | RGroup (i : nat) (r : regex)
  | REol.

Record flags : Type := { ignoreCase : bool; multiline : bool }.

Record RegExp : Type := { re_flags : flags; re_body : regex }.

Fixpoint cmember (cs : cclass) (x : N) : bool :=
  match cs with
  | CChar c => x =? c
  | CRange lo hi => (lo <=? x) && (x <=? hi)
  | CDigit => is_digit x
  | CSpace => is_space x
  | CUnion a b => cmember a x || cmember b x
  end.

(** With the [i] flag a class accepts [x] when one of its members has the
    same canonical form as [x].  Canonicalisation is upper-casing; it is
    restricted here to the ASCII letters, which is exact for the patterns
    of the program: their characters are ASCII or have no case, and the
    language never lets a non-ASCII character canonicalise to an ASCII one. *)
Definition cmatch (fl : flags) (cs : cclass) (x : N) : bool :=
  cmember cs x
  || (ignoreCase fl && (cmember cs (ascii_upper x) || cmember cs (ascii_lower x))).

Definition at_eol (fl : flags) (s : jsstring) : bool :=
  match s with
  | [] => true
  | x :: _ => multiline fl && is_line_terminator x
  end.

Abbreviation captures := (gmap nat jsstring).
Definition mstate : Type := jsstring * captures.
Definition cont := jsstring -> captures -> option mstate.
Definition matcher := cont -> jsstring -> captures -> option mstate.

(** What was read between the input [s] and its suffix [s']. *)
Definition consumed (s s' : jsstring) : jsstring :=
  take (length s - length s') s.

Section Repeat.
Variable body : matcher.

(** The iterations a quantifier may still take once its minimum is
    reached.  An iteration that reads nothing is refused, so [fuel] set
    to the length of the input bounds an unbounded quantifier exactly. *)
Fixpoint repeat_opt (greedy : bool) (fuel : nat) (k : cont)
    (s : jsstring) (c : captures) : option mstate :=
  match fuel with
  | O => k s c
  | S fuel' =>
      let again (_ : unit) :=
        body (fun s' c' =>
                if (length s' <? length s)%nat
                then repeat_opt greedy fuel' k s' c'
                else None) s c in
      if greedy then
        match again () with
        | Some z => Some z
        | None => k s c
        end
      else
        match k s c with
        | Some z => Some z
        | None => again ()
        end
  end.

Fixpoint repeat_min (n : nat) (k : cont) : cont :=
  match n with
  | O => k
  | S n' => body (repeat_min n' k)
  end.
End Repeat.

Definition opt_fuel (min : nat) (max : option nat) (s : jsstring) : nat :=
  match max with
  | Some m => (m - min)%nat
  | None => length s
  end.

(** The backtracking matcher, in continuation-passing style as the
    language specification gives it.  No pattern of the program has a group
    under a quantifier, so the reset of such captures at each iteration is
    not modelled. *)
Fixpoint rmatch (fl : flags) (r : regex) {struct r} : matcher :=
  match r with
  | REmpty => fun k s c => k s c
  | RChar cs => fun k s c =>
      match s with
      | x :: s' => if cmatch fl cs x then k s' c else None
      | [] => None
      end
  | RNot cs => fun k s c =>
      match s with
      | x :: s' => if cmatch fl cs x then None else k s' c
      | [] => None
      end
  | RAny => fun k s c =>
      match s with
      | x :: s' => if is_line_terminator x then None else k s' c
      | [] => None
      end
  | RSeq r1 r2 => fun k s c => rmatch fl r1 (rmatch fl r2 k) s c
  | RAlt r1 r2 => fun k s c =>
      match rmatch fl r1 k s c with
      | Some z => Some z
      | None => rmatch fl r2 k s c
      end
  | RQuant greedy min max r => fun k s c =>
      repeat_min (rmatch fl r) min
        (fun s1 c1 =>
           repeat_opt (rmatch fl r) greedy (opt_fuel min max s1) k s1 c1)
        s c
  | RGroup i r => fun k s c =>
      rmatch fl r (fun s' c' => k s' (<[i := consumed s s']> c')) s c
  | REol => fun k s c => if at_eol fl s then k s c else None
  end.

Definition match_here (p : RegExp) (s : jsstring) : option mstate :=
  rmatch (re_flags p) (re_body p) (fun s' c' => Some (s', c')) s ∅.

(** The array [RegExp.prototype.exec] returns: element 0 is the whole
    match, element [i] the capture of group [i], undefined (here [None])
    for a group that took no part. *)
Record MatchResult : Type := {
  match_index : nat;
  match_whole : jsstring;
  match_groups : captures
}.

Definition match_get (m : MatchResult) (i : nat) : option jsstring :=
  match i with
  | O => Some (match_whole m)
  | _ => match_groups m !! i
  end.

(** The leftmost match at or after the current position. *)
Fixpoint search_from (p : RegExp) (pos : nat) (s : jsstring)
    : option (MatchResult * jsstring) :=
  match match_here p s with
  | Some (s', c) =>
      Some ({| match_index := pos; match_whole := consumed s s';
               match_groups := c |}, s')
  | None =>
      match s with
      | [] => None
      | _ :: t => search_from p (S pos) t
      end
  end.

(** [text.match(p)] for a pattern without the [g] flag. *)
Definition str_match (text : jsstring) (p : RegExp) : option MatchResult :=
  fst <$> search_from p 0 text.

(** [p.test(text)]. *)
Definition re_test (p : RegExp) (text : jsstring) : bool :=
  bool_decide (is_Some (str_match text p)).

(** All the matches of a pattern with the [g] flag, as [text.match(p)]
    returns them: after a match the search resumes where it ended, one
    character further when the match was empty. *)
Fixpoint match_all_from (p : RegExp) (fuel : nat) (s : jsstring)
    : list jsstring :=
  match fuel with
  | O => []
  | S fuel' =>
      match search_from p 0 s with
      | None => []
      | Some (m, s') =>
          match_whole m ::
            (if bool_decide (match_whole m = [])
             then match s' with
                  | [] => []
                  | _ :: t => match_all_from p fuel' t
                  end
             else match_all_from p fuel' s')
      end
  end.

(** [text.match(p)] for a pattern with the [g] flag; [None] is the [null]
    returned when nothing matches. *)
Definition str_match_all (text : jsstring) (p : RegExp)
    : option (list jsstring) :=
  match match_all_from p (S (length text)) text with
  | [] => None
  | l => Some l
  end.

(** [text.replace(p, by)] for a pattern with the [g] flag and a
    replacement without [$]. *)
Fixpoint replace_from (p : RegExp) (by_ : jsstring) (fuel : nat)
    (s : jsstring) : jsstring :=
  match fuel with
  | O => s
  | S fuel' =>
      match match_here p s with
      | Some (s', _) =>
          if (length s' <? length s)%nat
          then by_ ++ replace_from p by_ fuel' s'
          else by_ ++ match s with
                      | [] => []
                      | x :: t => x :: replace_from p by_ fuel' t
                      end
      | None =>
          match s with
          | [] => []
          | x :: t => x :: replace_from p by_ fuel' t
          end
      end
  end.

Definition str_replace_all (text : jsstring) (p : RegExp) (by_ : jsstring)
    : jsstring :=
  replace_from p by_ (S (length text)) text.

(** ** Other string operations *)

Fixpoint drop_while (f : N -> bool) (s : jsstring) : jsstring :=
  match s with
  | [] => []
  | x :: t => if f x then drop_while f t else s
  end.

Fixpoint take_while (f : N -> bool) (s : jsstring) : jsstring :=
  match s with
  | [] => []
  | x :: t => if f x then x :: take_while f t else []
  end.

Definition trim (s : jsstring) : jsstring :=
  reverse (drop_while is_space (reverse (drop_while is_space s))).

(** [s.split(sep)] for a separator that matches exactly one character:
    the string ["\n"] and the class of the date separators. *)
Fixpoint split_by (sep : N -> bool) (s : jsstring) : list jsstring :=
  match s with
  | [] => [[]]
  | x :: t =>
      if sep x then [] :: split_by sep t
      else match split_by sep t with
           | [] => [[x]]
           | w :: ws => (x :: w) :: ws
           end
  end.

(** [s.padStart(n, "0")]. *)
Definition padStart0 (n : nat) (s : jsstring) : jsstring :=
  replicate (n - length s) (ch "0") ++ s.

(** ** Numbers *)

(** A JavaScript number is a binary64 floating-point value.  The numbers
    of this program come out of [parseInt], [Math.max] and [Math.floor]:
    they are whole numbers, kept as the integer they denote, or one of
    the two infinities.  Not-a-number is the value [VNaN] below.  The two
    zeros are one: nothing in the program tells them apart. *)
Inductive number : Type :=
  | Finite (z : Z)
  | Infinity
  | NegInfinity.

Coercion Finite : Z >-> number.

(** The multiple of [2^s] nearest to [n], the even one of the two when
    [n] lies half way. *)
Definition round_at (s n : Z) : Z :=
  let u := (2 ^ s)%Z in
  let q := (n / u)%Z in
  let r := (n mod u)%Z in
  if (2 * r <? u)%Z then (q * u)%Z
  else if (u <? 2 * r)%Z then ((q + 1) * u)%Z
  else if Z.even q then (q * u)%Z else ((q + 1) * u)%Z.

(** A non-negative integer rounded to 53 significant bits, as binary64
    keeps it: integers below 2^53 are exact. *)
Definition round53 (n : Z) : Z :=
  let e := Z.log2 n in
  if (e <=? 52)%Z then n else round_at (e - 52) n.

(** The first power of two that binary64 cannot hold. *)
Definition overflow_bound : Z := (2 ^ 1024)%Z.

(** The largest binary64 value. *)
Definition max_finite : Z := ((2 ^ 53 - 1) * 2 ^ 971)%Z.

(** The number value of a mathematical integer: the nearest binary64
    value, ties to even, and an infinity from [2^1024] on. *)
Definition to_number (z : Z) : number :=
  let m := round53 (Z.abs z) in
  if (overflow_bound <=? m)%Z
  then (if (z <? 0)%Z then NegInfinity else Infinity)
  else Finite (Z.sgn z * m).

Definition number_max (a b : number) : number :=
  match a, b with
  | Infinity, _ | _, Infinity => Infinity
  | NegInfinity, x | x, NegInfinity => x
  | Finite x, Finite y => Finite (Z.max x y)
  end.

(** ** Values *)

(** The values that flow through the [any]-typed fields of the program. *)
Inductive jsval : Type :=
  | VUndefined
  | VNull
  | VNum (n : number)
  | VNaN
  | VStr (s : jsstring).

Arguments VNum n%_Z.

Definition truthy (v : jsval) : bool :=
  match v with
  | VUndefined | VNull | VNaN => false
  | VNum (Finite n) => negb (n =? 0)%Z
  | VNum _ => true
  | VStr s => negb (bool_decide (s = []))
  end.

(** [a || b]. *)
Definition js_or (a b : jsval) : jsval := if truthy a then a else b.

Definition digit_val (x : N) : Z := Z.of_N (x - 48).

Definition digits_val (s : jsstring) : Z :=
  foldl (fun acc x => (acc * 10 + digit_val x)%Z) 0%Z s.

(** [parseInt(s, 10)]: leading white space, an optional sign, then the
    longest run of digits; not-a-number when that run is empty, and
    otherwise the number value of the integer the digits write. *)
Definition parseInt (s : jsstring) : jsval :=
  let s1 := drop_while is_space s in
  let '(neg, s2) :=
    match s1 with
    | x :: t => if x =? ch "-" then (true, t)
                else if x =? ch "+" then (false, t) else (false, s1)
    | [] => (false, s1)
    end in
  match take_while is_digit s2 with
  | [] => VNaN
  | ds => VNum (to_number (if neg then - digits_val ds else digits_val ds))
  end.

(** [Math.max(...vs)] on numbers: negative infinity for no argument,
    not-a-number as soon as one argument is. *)
Fixpoint math_max (vs : list jsval) : jsval :=
  match vs with
  | [] => VNum NegInfinity
  | v :: rest =>
      match v, math_max rest with
      | VNum a, VNum b => VNum (number_max a b)
      | _, _ => VNaN
      end
  end.

(** The decimal writing of a non-negative integer, as string
    interpolation produces it. *)
Fixpoint uint_digits (d : Decimal.uint) : jsstring :=
  match d with
  | Decimal.Nil => []
  | Decimal.D0 d' => 48 :: uint_digits d'
  | Decimal.D1 d' => 49 :: uint_digits d'
  | Decimal.D2 d' => 50 :: uint_digits d'
  | Decimal.D3 d' => 51 :: uint_digits d'
  | Decimal.D4 d' => 52 :: uint_digits d'
  | Decimal.D5 d' => 53 :: uint_digits d'
  | Decimal.D6 d' => 54 :: uint_digits d'
  | Decimal.D7 d' => 55 :: uint_digits d'
  | Decimal.D8 d' => 56 :: uint_digits d'
  | Decimal.D9 d' => 57 :: uint_digits d'
  end.

Definition num_to_string (n : N) : jsstring := uint_digits (N.to_uint n).

(** ** Exceptions *)

Inductive exn : Type :=
  | TypeError
  | NoTextDetected.

Inductive result (A : Type) : Type :=
  | Ok (a : A)
  | Throw (e : exn).
Arguments Ok {A} a.
Arguments Throw {A} e.

Definition rbind {A B} (m : result A) (f : A -> result B) : result B :=
  match m with
  | Ok a => f a
  | Throw e => Throw e
  end.

#[global] Instance result_bind : MBind result := fun A B f m => rbind m f.
#[global] Instance result_ret : MRet result := @Ok.

(** Reading a property of [undefined] throws. *)
Definition defined {A} (o : option A) : result A :=
  match o with
  | Some a => Ok a
  | None => Throw TypeError
  end.

(** Calling a string method on a value that is not a string throws. *)
Definition as_string (v : jsval) : result jsstring :=
  match v with
  | VStr s => Ok s
  | _ => Throw TypeError
  end.

(** ** Writing patterns *)

Definition lit (s : string) : regex :=
  foldr (fun c r => RSeq (RChar (CChar c)) r) REmpty (js s).
Arguments lit s%_string.

Definition seq (rs : list regex) : regex := foldr RSeq REmpty rs.

Fixpoint alts (r : regex) (rs : list regex) : regex :=
  match rs with
  | [] => r
  | r' :: rs' => RAlt r (alts r' rs')
  end.

(** The class of the characters of [s]. *)
Definition one_of (s : string) : cclass :=
  match js s with
  | [] => CRange 1 0
  | c :: t => foldl (fun a x => CUnion a (CChar x)) (CChar c) t
  end.
Arguments one_of s%_string.

Definition star (r : regex) : regex := RQuant true 0 None r.
Definition plus (r : regex) : regex := RQuant true 1 None r.
Definition opt (r : regex) : regex := RQuant true 0 (Some 1%nat) r.
Definition lazy_star (r : regex) : regex := RQuant false 0 None r.
Definition lazy_plus (r : regex) : regex := RQuant false 1 None r.
Definition times (n : nat) (r : regex) : regex := RQuant true n (Some n) r.
Definition between (n m : nat) (r : regex) : regex := RQuant true n (Some m) r.

Definition digit : regex := RChar CDigit.
Definition space : regex := RChar CSpace.

Definition re_plain (r : regex) : RegExp :=
  {| re_flags := {| ignoreCase := false; multiline := false |}; re_body := r |}.
Definition re_i (r : regex) : RegExp :=
  {| re_flags := {| ignoreCase := true; multiline := false |}; re_body := r |}.
Definition re_im (r : regex) : RegExp :=
  {| re_flags := {| ignoreCase := true; multiline := true |}; re_body := r |}.

(** [(\d[\d,]+)] as group [i]: the shape of every amount the patterns
    read. *)
Definition number_body : regex :=
  RSeq digit (plus (RChar (CUnion CDigit (CChar (ch ","))))).
Definition number_group (i : nat) : regex := RGroup i number_body.

(** [[\s:：]*] and [[\¥\\]?]. *)
Definition label_gap : regex := star (RChar (CUnion CSpace (one_of ":："))).
Definition yen_opt : regex := opt (RChar (one_of "¥\")).

(** [[\s\n]]. *)
Definition space_or_nl : regex := RChar (CUnion CSpace (CChar code_nl)).

(** ** The program *)

Record ReceiptItem : Type := {
  name : jsstring;
  quantity : jsval;
  unitPrice : jsval;
  totalPrice : jsval
}.

Record Receipt : Type := {
  id : jsstring;
  storeName : jsval;
  date : jsval;
  amount : jsval;
  items : list ReceiptItem;
  taxAmount : jsval;
  paymentMethod : jsval;
  rawText : jsstring;
  category : jsval
}.

Record PromptTemplate : Type := {
  fieldName : jsstring;
  patterns : list RegExp;
  processor : option (jsstring -> result jsval);
  fallback : option (jsstring -> result jsval)
}.

(** What the program takes from its runtime: [String.prototype.toLowerCase],
    [new Date().getFullYear()], and
    [path.basename(p, path.extname(p))]. *)
Record Runtime : Type := {
  toLowerCase : jsstring -> jsstring;
  getFullYear : N;
  basename_noext : jsstring -> jsstring
}.

Definition unknown_store : jsstring := js "不明な店舗".
Definition unknown_date : jsstring := js "日付不明".

Definition comma_re : RegExp := re_plain (RChar (CChar (ch ","))).
Definition not_digit_comma_re : RegExp :=
  re_plain (RNot (CUnion CDigit (CChar (ch ",")))).

(** [[年月日\/\.\-]]. *)
Definition date_separators : cclass := one_of "年月日/.-".

Definition storeName_patterns : list RegExp :=
  [ re_i (seq [lit "店名"; RChar (one_of ":|："); star space;
               RGroup 1 (plus RAny)]);
    re_i (seq [RGroup 1 (plus RAny); star space; RChar (CChar code_nl);
               star RAny; lit "領収"]);
    re_i (seq [RGroup 1 (between 2 20 RAny); star space;
               RChar (CChar code_nl); star RAny;
               times 3 (RChar (CRange (ch "0") (ch "9"))); lit "-";
               times 4 (RChar (CRange (ch "0") (ch "9")))]);
    re_i (seq [lit "商号名称"; star (RChar (CUnion (one_of ":：") CSpace));
               RGroup 1 (lazy_star RAny); space_or_nl]);
    re_i (seq [lit "屋号"; RChar (one_of "：:"); star space;
               RGroup 1 (lazy_star RAny); space_or_nl]) ].

(** [text.split("\n")]. *)
Definition split_lines (text : jsstring) : list jsstring :=
  split_by (fun x => x =? code_nl) text.

Definition storeName_fallback (text : jsstring) : result jsval :=
  let lines :=
    List.filter (fun line => (0 <? length (trim line))%nat)
      (split_lines text) in
  if (0 <? length lines)%nat
  then l0 ← defined (lines !! 0%nat); Ok (VStr (trim l0))
  else Ok (VStr unknown_store).

Definition date_patterns : list RegExp :=
  [ re_i (seq [lit "日付"; RChar (one_of "：:"); star space;
               RGroup 1 (times 4 digit); RChar (one_of "/-年");
               RGroup 2 (between 1 2 digit); RChar (one_of "/-月");
               RGroup 3 (between 1 2 digit)]);
    re_i (seq [RGroup 1 (times 4 digit); RChar (one_of "年/.-");
               RGroup 2 (between 1 2 digit); RChar (one_of "月/.-");
               RGroup 3 (between 1 2 digit); opt (RChar (one_of "日"))]);
    re_i (seq [RGroup 1 (times 2 digit); RChar (one_of "/.");
               RGroup 2 (between 1 2 digit); RChar (one_of "/.");
               RGroup 3 (between 1 2 digit)]);
    re_i (seq [RGroup 1 (between 1 2 digit); lit "月";
               RGroup 2 (between 1 2 digit); lit "日"]) ].

Definition amount_patterns : list RegExp :=
  [ re_i (seq [lit "合計"; star (RChar (one_of "金額")); label_gap; yen_opt;
               number_group 1]);
    re_i (seq [alts (lit "小計") [lit "お買上げ"; lit "計"];
               star (RNot (CUnion (one_of "\¥") CDigit)); label_gap; yen_opt;
               number_group 1]);
    re_i (seq [alts (lit "total") [lit "金額"];
               star (RNot (CUnion (one_of "\¥") CDigit)); label_gap; yen_opt;
               number_group 1]);
    re_i (seq [alts (lit "お会計") [lit "ご請求額"; lit "請求金額"];
               label_gap; yen_opt; number_group 1]);
    re_im (seq [alts (lit "￥") [lit "¥"]; star space; number_group 1;
                alts (seq [star space; REol]) [seq [star space; lit "円"]]]) ].

(** The pattern of the amount fallback, [/(?:￥|¥)[\s]*(\d[\d,]+)/g]. *)
Definition currency_token_re : RegExp :=
  re_plain (seq [alts (lit "￥") [lit "¥"]; star space; number_group 1]).

Definition amount_processor (value : jsstring) : result jsval :=
  Ok (parseInt (str_replace_all value comma_re [])).

Definition amount_fallback (text : jsstring) : result jsval :=
  match str_match_all text currency_token_re with
  | Some (v0 :: vs) =>
      let amounts :=
        map (fun v =>
               let num :=
                 str_replace_all (str_replace_all v not_digit_comma_re [])
                   comma_re [] in
               parseInt num) (v0 :: vs) in
      Ok (math_max amounts)
  | _ => Ok (VNum 0)
  end.

Definition taxAmount_processor (value : jsstring) : result jsval :=
  Ok (parseInt (str_replace_all value comma_re [])).

Definition taxAmount_patterns : list RegExp :=
  [ re_i (seq [lit "消費税"; opt (RChar (one_of "額")); label_gap; yen_opt;
               number_group 1]);
    re_i (seq [lit "内税"; label_gap; yen_opt; number_group 1]);
    re_i (seq [lit "外税"; label_gap; yen_opt; number_group 1]);
    re_i (seq [lit "税額"; label_gap; yen_opt; number_group 1]);
    re_i (seq [lit "税"; label_gap; number_group 1;
               alts (seq [star space; REol]) [seq [star space; lit "円"]]]) ].

Definition paymentMethod_patterns : list RegExp :=
  [ re_i (seq [alts (seq [lit "支払"; RChar (one_of "方法い")])
                 [lit "お支払い方法"];
               label_gap; RGroup 1 (lazy_plus RAny);
               alts space_or_nl [REol]]);
    re_i (RGroup 1
            (alts (lit "クレジット")
               [lit "カード"; lit "デビット"; lit "現金"; lit "電子マネー";
                lit "QRコード"; lit "PayPay"; lit "メルペイ"; lit "交通系";
                lit "Suica"; lit "PASMO"])) ].

Definition storeName_prompt : PromptTemplate :=
  {| fieldName := js "storeName"; patterns := storeName_patterns;
     processor := None; fallback := Some storeName_fallback |}.

Definition amount_prompt : PromptTemplate :=
  {| fieldName := js "amount"; patterns := amount_patterns;
     processor := Some amount_processor; fallback := Some amount_fallback |}.

Definition taxAmount_prompt : PromptTemplate :=
  {| fieldName := js "taxAmount"; patterns := taxAmount_patterns;
     processor := Some taxAmount_processor; fallback := None |}.

Definition paymentMethod_prompt : PromptTemplate :=
  {| fieldName := js "paymentMethod"; patterns := paymentMethod_patterns;
     processor := None; fallback := None |}.

Section Program.
Variable rt : Runtime.

Definition date_processor (m : jsstring) : result jsval :=
  let parts :=
    List.filter (fun p => (0 <? length (trim p))%nat)
      (split_by (cmember date_separators) m) in
  if (3 <=? length parts)%nat then
    year0 ← defined (parts !! 0%nat);
    let year :=
      if (length year0 =? 2)%nat then js "20" ++ year0 else year0 in
    p1 ← defined (parts !! 1%nat);
    p2 ← defined (parts !! 2%nat);
    Ok (VStr (year ++ js "-" ++ padStart0 2 p1 ++ js "-" ++ padStart0 2 p2))
  else if (length parts =? 2)%nat then
    let currentYear := num_to_string (getFullYear rt) in
    p0 ← defined (parts !! 0%nat);
    p1 ← defined (parts !! 1%nat);
    Ok (VStr (currentYear ++ js "-" ++ padStart0 2 p0 ++ js "-"
                ++ padStart0 2 p1))
  else Ok VNull.

Definition date_prompt : PromptTemplate :=
  {| fieldName := js "date"; patterns := date_patterns;
     processor := Some date_processor; fallback := None |}.

Definition japaneseReceiptPrompts : list PromptTemplate :=
  [ storeName_prompt; date_prompt; amount_prompt; taxAmount_prompt;
    paymentMethod_prompt ].
End Program.

(** [postprocessText]: thirteen global replacements in the order of the
    source. *)
Definition whitespace_run_re : RegExp := re_plain (plus space).
Definition blank_lines_re : RegExp :=
  re_plain (seq [RChar (CChar code_nl); star space; RChar (CChar code_nl)]).
Definition char_re (c : N) : RegExp := re_plain (RChar (CChar c)).

(** The twelve replacements of a full-width digit, comma or period by its
    half-width form, in the order of the source. *)
Definition fullwidth_folds : list (N * N) :=
  [ (ch "０", ch "0"); (ch "１", ch "1"); (ch "２", ch "2");
    (ch "３", ch "3"); (ch "４", ch "4"); (ch "５", ch "5");
    (ch "６", ch "6"); (ch "７", ch "7"); (ch "８", ch "8");
    (ch "９", ch "9"); (ch "，", ch ","); (ch "．", ch ".") ].

Definition postprocessText (text : jsstring) : jsstring :=
  let t1 := str_replace_all text whitespace_run_re (js " ") in
  let t2 := foldl (fun t '(from, to) => str_replace_all t (char_re from) [to])
              t1 fullwidth_folds in
  str_replace_all t2 blank_lines_re [code_nl].

(** [match && match[1]] of [extractFieldWithPrompt]: the first capture of
    the leftmost match when it is a non-empty string. *)
Definition first_capture (text : jsstring) (p : RegExp) : option jsstring :=
  match str_match text p with
  | Some m =>
      match match_get m 1 with
      | Some v => if bool_decide (v = []) then None else Some v
      | None => None
      end
  | None => None
  end.

Fixpoint extract_loop (text : jsstring) (prompt : PromptTemplate)
    (ps : list RegExp) : result jsval :=
  match ps with
  | p :: ps' =>
      match first_capture text p with
      | Some v =>
          let value := trim v in
          match processor prompt with
          | Some f => f value
          | None => Ok (VStr value)
          end
      | None => extract_loop text prompt ps'
      end
  | [] =>
      match fallback prompt with
      | Some f => f text
      | None => Ok VUndefined
      end
  end.

Definition extractFieldWithPrompt (text : jsstring) (prompt : PromptTemplate)
    : result jsval :=
  extract_loop text prompt (patterns prompt).

(** [/(.+?)\s+(\d+)\s+[\¥\\]?(\d[\d,]+)\s+[\¥\\]?(\d[\d,]+)/]. *)
Definition itemPattern : RegExp :=
  re_plain (seq [RGroup 1 (lazy_plus RAny); plus space; RGroup 2 (plus digit);
                 plus space; yen_opt; number_group 3; plus space; yen_opt;
                 number_group 4]).

Definition parseInt_arg (o : option jsstring) : jsval :=
  match o with
  | Some s => parseInt s
  | None => VNaN
  end.

Definition extractItem (line : jsstring) : result (option ReceiptItem) :=
  match str_match line itemPattern with
  | Some m =>
      m1 ← defined (match_get m 1);
      m3 ← defined (match_get m 3);
      m4 ← defined (match_get m 4);
      Ok (Some {| name := trim m1;
                  quantity := parseInt_arg (match_get m 2);
                  unitPrice := parseInt (str_replace_all m3 comma_re []);
                  totalPrice := parseInt (str_replace_all m4 comma_re []) |})
  | None => Ok None
  end.

Fixpoint extractItems_lines (lines : list jsstring)
    : result (list ReceiptItem) :=
  match lines with
  | [] => Ok []
  | line :: rest =>
      o ← extractItem line;
      its ← extractItems_lines rest;
      Ok (match o with Some it => it :: its | None => its end)
  end.

Definition extractItems (text : jsstring) : result (list ReceiptItem) :=
  extractItems_lines (split_lines text).

Definition dining_re : RegExp :=
  re_plain (alts (lit "restaurant")
              [lit "cafe"; lit "coffee"; lit "レストラン"; lit "カフェ";
               lit "食堂"; lit "居酒屋"; lit "ダイニング"]).
Definition groceries_re : RegExp :=
  re_plain (alts (lit "market")
              [lit "super"; lit "コンビニ"; lit "マート"; lit "スーパー";
               lit "ストア"]).
Definition fuel_re : RegExp :=
  re_plain (alts (lit "gas")
              [lit "petrol"; lit "ガソリン"; lit "スタンド"; lit "石油"]).
Definition lodging_re : RegExp :=
  re_plain (alts (lit "hotel") [lit "ホテル"; lit "旅館"; lit "inn"]).
Definition books_re : RegExp :=
  re_plain (alts (lit "stationery")
              [lit "book"; lit "文房具"; lit "本"; lit "書店"]).
Definition health_re : RegExp :=
  re_plain (alts (lit "pharma")
              [lit "drug"; lit "医薬"; lit "薬局"; lit "ドラッグ"]).

(** The table of [mapCategoryToAccount], by its own properties. *)
Definition account_mapping : gmap jsstring jsstring :=
  list_to_map
    [ (js "飲食", js "会議費"); (js "食料品", js "消耗品費");
      (js "交通費", js "旅費交通費"); (js "宿泊", js "旅費交通費");
      (js "文具・書籍", js "消耗品費"); (js "医療・健康", js "福利厚生費");
      (js "その他", js "雑費") ].

Definition mapCategoryToAccount (category : jsval) : jsval :=
  let found :=
    match category with
    | VStr key =>
        match account_mapping !! key with
        | Some v => VStr v
        | None => VUndefined
        end
    | _ => VUndefined
    end in
  js_or found (VStr (js "雑費")).


Record AccountingRow : Type := {
  row_date : jsval;
  row_description : jsval;
  row_account : jsval;
  row_amount : jsval;
  row_note : jsstring;
  row_taxClass : jsstring;
  row_taxAmount : jsval
}.

(** The binary64 value nearest to 0.1 is [tenth / 2^55]. *)
Definition tenth : Z := 3602879701896397.

(** [Math.floor(x * 0.1)] for a whole number [x]: the exact product with
    the binary64 tenth is rounded to 53 significant bits, then floored.
    The product of a whole number other than 0 with the tenth is neither
    subnormal nor beyond the range, so the rounding is all there is. *)
Definition floor_times_tenth (x : Z) : Z :=
  ((Z.sgn x * round53 (Z.abs x * tenth)) / 2 ^ 55)%Z.

(** The amount of a receipt is a number; [null] counts as 0 in a product
    and [undefined] gives not-a-number. *)
Definition floor_tenth (v : jsval) : jsval :=
  match v with
  | VNum (Finite n) => VNum (floor_times_tenth n)
  | VNum Infinity => VNum Infinity
  | VNum NegInfinity => VNum NegInfinity
  | VNull => VNum 0
  | _ => VNaN
  end.

(** The row both [saveAsAccountingCsv] and [exportToAccountingFormat]
    build for a receipt. *)
Definition accountingRow (receipt : Receipt) : AccountingRow :=
  {| row_date := date receipt;
     row_description := storeName receipt;
     row_account :=
       mapCategoryToAccount (js_or (category receipt) (VStr (js "その他")));
     row_amount := amount receipt;
     row_note := js "領収書ID: " ++ id receipt;
     row_taxClass := js "課税";
     row_taxAmount := js_or (taxAmount receipt) (floor_tenth (amount receipt)) |}.

Definition saveAsAccountingCsv (receipts : list Receipt) : list AccountingRow :=
  map accountingRow receipts.

Definition exportToAccountingFormat (receipts : list Receipt)
    : list AccountingRow :=
  map accountingRow receipts.

Section Assembler.
Variable rt : Runtime.

Definition categorizeStore (storeName : jsstring) : jsstring :=
  let lowerStoreName := toLowerCase rt storeName in
  if re_test dining_re lowerStoreName then js "飲食"
  else if re_test groceries_re lowerStoreName then js "食料品"
  else if re_test fuel_re lowerStoreName then js "交通費"
  else if re_test lodging_re lowerStoreName then js "宿泊"
  else if re_test books_re lowerStoreName then js "文具・書籍"
  else if re_test health_re lowerStoreName then js "医療・健康"
  else js "その他".

(** The object [extractedFields], filled prompt by prompt. *)
Fixpoint extract_all (text : jsstring) (prompts : list PromptTemplate)
    (fields : gmap jsstring jsval) : result (gmap jsstring jsval) :=
  match prompts with
  | [] => Ok fields
  | prompt :: rest =>
      v ← extractFieldWithPrompt text prompt;
      extract_all text rest (<[fieldName prompt := v]> fields)
  end.

Definition field (fields : gmap jsstring jsval) (key : string) : jsval :=
  default VUndefined (fields !! js key).

Definition parseReceiptText (text filePath : jsstring) : result Receipt :=
  let processedText := postprocessText text in
  extractedFields ←
    extract_all processedText (japaneseReceiptPrompts rt) ∅;
  items ← extractItems processedText;
  storeArg ← as_string (js_or (field extractedFields "storeName") (VStr []));
  Ok {| id := basename_noext rt filePath;
        storeName := js_or (field extractedFields "storeName")
                       (VStr unknown_store);
        date := js_or (field extractedFields "date") (VStr unknown_date);
        amount := js_or (field extractedFields "amount") (VNum 0);
        items := items;
        taxAmount := field extractedFields "taxAmount";
        paymentMethod := field extractedFields "paymentMethod";
        rawText := processedText;
        category := VStr (categorizeStore storeArg) |}.

End Assembler.

(** The labels [categorizeStore] returns. *)
Definition category_labels : list jsstring :=
  [ js "飲食"; js "食料品"; js "交通費"; js "宿泊"; js "文具・書籍";
    js "医療・健康"; js "その他" ].

(** ** A runtime to evaluate examples with *)

(** The part of a path after its last [/], without what follows its last
    [.] when that is not its first character. *)
Fixpoint after_last (sep : N) (s : jsstring) : option jsstring :=
  match s with
  | [] => None
  | x :: t =>
      match after_last sep t with
      | Some r => Some r
      | None => if x =? sep then Some t else None
      end
  end.

Fixpoint before_last (sep : N) (s : jsstring) : option jsstring :=
  match s with
  | [] => None
  | x :: t =>
      match before_last sep t with
      | Some r => Some (x :: r)
      | None => if x =? sep then Some [] else None
      end
  end.

Definition sample_stem (path : jsstring) : jsstring :=
  let base := default path (after_last (ch "/") path) in
  match before_last (ch ".") base with
  | Some (x :: r) => x :: r
  | _ => base
  end.

(** Lower-casing of the ASCII letters, the year 2024. *)
Definition sample_runtime : Runtime :=
  {| toLowerCase := map ascii_lower;
     getFullYear := 2024;
     basename_noext := sample_stem |}.

(** ** Reading the extractor rule by rule *)

(** The capture of the first rule, in list order, that matches with a
    non-empty first capture. *)
Fixpoint first_hit (text : jsstring) (ps : list RegExp) : option jsstring :=
  match ps with
  | [] => None
  | p :: ps' =>
      match first_capture text p with
      | Some v => Some v
      | None => first_hit text ps'
      end
  end.

Definition apply_processor (prompt : PromptTemplate) (value : jsstring)
    : result jsval :=
  match processor prompt with
  | Some f => f value
  | None => Ok (VStr value)
  end.

Definition run_fallback (prompt : PromptTemplate) (text : jsstring)
    : result jsval :=
  match fallback prompt with
  | Some f => f text
  | None => Ok VUndefined
  end.

Definition with_fallback (fb : option (jsstring -> result jsval))
    (prompt : PromptTemplate) : PromptTemplate :=
  {| fieldName := fieldName prompt; patterns := patterns prompt;
     processor := processor prompt; fallback := fb |}.

(** The extractor as the specification words it: the first rule whose
    pattern matches wins, whatever it captured; its first capture is
    trimmed and processed; the fallback is for the case where no pattern
    matches. *)
Fixpoint spec_extract_loop (text : jsstring) (prompt : PromptTemplate)
    (ps : list RegExp) : result jsval :=
  match ps with
  | p :: ps' =>
      match str_match text p with
      | Some m => apply_processor prompt (trim (default [] (match_get m 1)))
      | None => spec_extract_loop text prompt ps'
      end
  | [] => run_fallback prompt text
  end.

Definition spec_extractField (text : jsstring) (prompt : PromptTemplate)
    : result jsval :=
  spec_extract_loop text prompt (patterns prompt).

Definition sample_receipt (tax : jsval) : Receipt :=
  {| id := js "r1"; storeName := VStr (js "なんでも商店");
     date := VStr (js "2024-03-05"); amount := VNum 3305; items := [];
     taxAmount := tax; paymentMethod := VUndefined;
     rawText := js "なんでも商店"; category := VStr (js "その他") |}.

(** ** The shape of normalized text *)

Definition starts_space (s : jsstring) : bool :=
  match s with
  | x :: _ => is_space x
  | [] => false
  end.

(** Every white-space character is a single U+0020 between two characters
    that are not white space, or at an end of the text. *)
Fixpoint tidy (s : jsstring) : bool :=
  match s with
  | [] => true
  | x :: t =>
      (if is_space x then (x =? code_sp) && negb (starts_space t) else true)
      && tidy t
  end.

(** What the twelve replacements do to one character. *)
Definition fold_fullwidth (x : N) : N :=
  foldl (fun y '(from, to) => if y =? from then to else y) x fullwidth_folds.

(** A pattern that reads one character, those [f] accepts. *)
Definition tests_char (p : RegExp) (f : N -> bool) : Prop :=
  forall s, match_here p s =
    match s with
    | x :: t => if f x then Some (t, ∅) else None
    | [] => None
    end.

(** Two receipt lines, one item each. *)
Definition two_item_lines : jsstring :=
  js "りんご 2 ¥100 ¥200" ++ [code_nl] ++ js "みかん 3 ¥50 ¥150".

Definition apple_item : ReceiptItem :=
  {| name := js "りんご"; quantity := VNum 2; unitPrice := VNum 100;
     totalPrice := VNum 200 |}.

Definition orange_item : ReceiptItem :=
  {| name := js "みかん"; quantity := VNum 3; unitPrice := VNum 50;
     totalPrice := VNum 150 |}.

(** ** Reading a pattern without running it *)

#[global] Instance cclass_eq_dec : EqDecision cclass.
Proof. solve_decision. Defined.

#[global] Instance regex_eq_dec : EqDecision regex.
Proof. solve_decision. Defined.

(** A digit or a comma: the class [[\d,]]. *)
Definition is_dc (x : N) : bool := is_digit x || (x =? ch ",").

(** The words of [\d[\d,]+]: a digit, then at least one digit or comma. *)
Definition number_shaped (w : jsstring) : bool :=
  match w with
  | x :: y :: t => is_digit x && forallb is_dc (y :: t)
  | _ => false
  end.

(** A non-empty word of digits. *)
Definition all_digits (w : jsstring) : bool :=
  match w with
  | [] => false
  | _ => forallb is_digit w
  end.

Definition starts_number (s : jsstring) : bool :=
  match s with
  | x :: y :: _ => is_digit x && is_dc y
  | _ => false
  end.

(** The text has a digit followed by a digit or a comma somewhere. *)
Fixpoint has_number (s : jsstring) : bool :=
  starts_number s ||
  match s with
  | [] => false
  | _ :: t => has_number t
  end.

(** Every match of the pattern goes through a group [(\d[\d,]+)]. *)
Fixpoint requires_number (r : regex) : bool :=
  match r with
  | RSeq r1 r2 => requires_number r1 || requires_number r2
  | RAlt r1 r2 => requires_number r1 && requires_number r2
  | RQuant _ min _ r' => (0 <? min)%nat && requires_number r'
  | RGroup _ r' => bool_decide (r' = number_body) || requires_number r'
  | _ => false
  end.

(** The pattern has a group numbered [i]. *)
Fixpoint assigns (i : nat) (r : regex) : bool :=
  match r with
  | RSeq r1 r2 | RAlt r1 r2 => assigns i r1 || assigns i r2
  | RQuant _ _ _ r' => assigns i r'
  | RGroup j r' => bool_decide (i = j) || assigns i r'
  | _ => false
  end.

(** Every match of the pattern goes through group [i]. *)
Fixpoint defines (i : nat) (r : regex) : bool :=
  match r with
  | RSeq r1 r2 => defines i r1 || defines i r2
  | RAlt r1 r2 => defines i r1 && defines i r2
  | RQuant _ min _ r' => (0 <? min)%nat && defines i r'
  | RGroup j r' => bool_decide (i = j) || defines i r'
  | _ => false
  end.

(** Every group numbered [i] of the pattern has one of [bodies] inside. *)
Fixpoint groups_in (i : nat) (bodies : list regex) (r : regex) : bool :=
  match r with
  | RSeq r1 r2 | RAlt r1 r2 => groups_in i bodies r1 && groups_in i bodies r2
  | RQuant _ _ _ r' => groups_in i bodies r'
  | RGroup j r' =>
      (if bool_decide (i = j) then bool_decide (r' ∈ bodies) else true)
      && groups_in i bodies r'
  | _ => true
  end.

(** The patterns that read an amount into their first group. *)
Definition numeric_patterns : list RegExp :=
  amount_patterns ++ taxAmount_patterns ++ [currency_token_re].

(** The bodies of the first group of the date patterns. *)
Definition date_group_bodies : list regex :=
  [times 4 digit; times 2 digit; between 1 2 digit].

(** The object [extractedFields] once the five prompts have run. *)
Definition fields_of (vs vd va vt vp : jsval) : gmap jsstring jsval :=
  <[js "paymentMethod" := vp]>
    (<[js "taxAmount" := vt]>
       (<[js "amount" := va]>
          (<[js "date" := vd]> (<[js "storeName" := vs]> ∅)))).

Ltac key_ne := let H := fresh in intros H; vm_compute in H; discriminate H.


(** The receipt of the end-to-end scenario: a store-name line, then the
    date, total, tax and payment lines. *)
Definition scenario_text : jsstring :=
  js "なんでも商店" ++ [code_nl] ++ js "日付：2024/03/05" ++ [code_nl]
  ++ js "合計金額：¥3,300" ++ [code_nl] ++ js "消費税：¥300" ++ [code_nl]
  ++ js "支払方法：クレジット".

(** ** The amount fallback, read as a specification *)

(** The currency-marked tokens the fallback scans: a currency symbol,
    optional white space, a digit and at least one digit or comma. *)
Definition currency_tokens (text : jsstring) : list jsstring :=
  default [] (str_match_all text currency_token_re).

(** The number a token stands for once its mark and its thousands
    separators are stripped. *)
Definition token_value (tok : jsstring) : Z :=
  digits_val (List.filter is_digit tok).

(** A currency-marked number as the glossary of the specification has it:
    digits right after a currency symbol, or right before the unit 円. *)
Definition marked_number_re : RegExp :=
  re_plain (alts (seq [alts (lit "￥") [lit "¥"];
                       plus (RChar (CUnion CDigit (CChar (ch ","))))])
              [seq [plus (RChar (CUnion CDigit (CChar (ch ","))));
                    lit "円"]]).

(** What the assembler returns for the text 合計 ¥5. *)
Definition single_digit_receipt : Receipt :=
  {| id := js "r1"; storeName := VStr (js "合計 ¥5");
     date := VStr unknown_date; amount := VNum 0; items := [];
     taxAmount := VUndefined; paymentMethod := VUndefined;
     rawText := js "合計 ¥5"; category := VStr (js "その他") |}.

(** A token of the fallback scan: a currency symbol, white space if
    any, then a digit and at least one more digit or comma. *)
Definition symbol_marked (tok : jsstring) : Prop :=
  exists mark ws body,
    tok = mark :: ws ++ body
    /\ (mark = ch "￥" \/ mark = ch "¥")
    /\ forallb is_space ws = true
    /\ number_shaped body = true.




(** ** What a match means *)

(** A relation between the state before and the state after a part of a
    pattern has matched. *)
Definition srel : Type := jsstring -> captures -> jsstring -> captures -> Prop.

Fixpoint iter (R : srel) (n : nat) : srel := fun s c s' c' =>
  match n with
  | O => s' = s /\ c' = c
  | S n' => exists s1 c1, R s c s1 c1 /\ iter R n' s1 c1 s' c'
  end.

(** [span fl r s c s' c']: the pattern [r] can read the input [s] down to
    its suffix [s'], turning the captures [c] into [c'].  Priorities
    (greedy, lazy, left alternative first) are not part of it: it says
    what any match looks like. *)
Fixpoint span (fl : flags) (r : regex) : srel := fun s c s' c' =>
  match r with
  | REmpty => s' = s /\ c' = c
  | RChar cs => exists x, s = x :: s' /\ cmatch fl cs x = true /\ c' = c
  | RNot cs => exists x, s = x :: s' /\ cmatch fl cs x = false /\ c' = c
  | RAny => exists x, s = x :: s' /\ is_line_terminator x = false /\ c' = c
  | RSeq r1 r2 => exists s1 c1, span fl r1 s c s1 c1 /\ span fl r2 s1 c1 s' c'
  | RAlt r1 r2 => span fl r1 s c s' c' \/ span fl r2 s c s' c'
  | RQuant _ min _ r => exists n, (min <= n)%nat /\ iter (span fl r) n s c s' c'
  | RGroup i r => exists c1, span fl r s c s' c1 /\ c' = <[i := consumed s s']> c1
  | REol => at_eol fl s = true /\ s' = s /\ c' = c
  end.

Definition sound (m : matcher) (R : srel) : Prop :=
  forall k s c z, m k s c = Some z ->
    exists s' c', R s c s' c' /\ k s' c' = Some z.



(** ** Further readings of the program *)

(** One of the twelve full-width characters the normalizer folds. *)
Definition is_fullwidth (x : N) : bool :=
  existsb (fun '(from, _) => x =? from) fullwidth_folds.

(** Every match of the pattern reads a newline. *)
Fixpoint requires_newline (r : regex) : bool :=
  match r with
  | RChar cs => bool_decide (cs = CChar code_nl)
  | RSeq r1 r2 => requires_newline r1 || requires_newline r2
  | RAlt r1 r2 => requires_newline r1 && requires_newline r2
  | RQuant _ min _ r' => (0 <? min)%nat && requires_newline r'
  | RGroup _ r' => requires_newline r'
  | _ => false
  end.

(** The account names of [mapCategoryToAccount]. *)
Definition account_names : list jsstring :=
  [ js "会議費"; js "消耗品費"; js "旅費交通費"; js "福利厚生費"; js "雑費" ].

(** A number that is a non-negative integer. *)
Definition natural_value (v : jsval) : Prop :=
  exists a : Z, v = VNum a /\ (0 <= a)%Z.

(** A number that is a non-negative integer or positive infinity: not
    not-a-number, not negative. *)
Definition natural_or_infinite (v : jsval) : Prop :=
  v = VNum Infinity \/ natural_value v.

(** A line item whose quantity and prices are non-negative integers. *)
Definition natural_item (it : ReceiptItem) : Prop :=
  natural_value (quantity it) /\ natural_value (unitPrice it)
  /\ natural_value (totalPrice it).

Definition natural_or_infinite_item (it : ReceiptItem) : Prop :=
  natural_or_infinite (quantity it) /\ natural_or_infinite (unitPrice it)
  /\ natural_or_infinite (totalPrice it).

(** No run of digits and commas of the text is longer than [n]: [k] is
    the length of the run that ends where [s] starts. *)
Fixpoint runs_within (n k : nat) (s : jsstring) : bool :=
  match s with
  | [] => true
  | x :: t =>
      if is_dc x then (S k <=? n)%nat && runs_within n (S k) t
      else runs_within n 0 t
  end.

(** Every number the text writes has at most 308 digits, and so is below
    [10^308], which binary64 holds. *)
Definition numbers_in_range (s : jsstring) : Prop :=
  runs_within 308 0 s = true.

(** [w] is a part of [s]. *)
Definition infix (w s : jsstring) : Prop := exists p q, s = p ++ w ++ q.

(** A non-negative number, finite when [P] holds. *)
Definition natural_when (P : Prop) (v : jsval) : Prop :=
  natural_or_infinite v /\ (P -> natural_value v).

(** ** The command line *)

Record CliArgs : Type := {
  directoryPath : jsval;
  outputPath : jsval;
  format : jsstring
}.

Definition default_args : CliArgs :=
  {| directoryPath := VStr (js "./receipts");
     outputPath := VStr (js "./output/receipts_data");
     format := js "json" |}.

Definition is_flag (a : jsstring) (long short : string) : bool :=
  bool_decide (a = js long) || bool_decide (a = js short).
Arguments is_flag a (long short)%_string.

Definition valid_format (f : jsstring) : bool :=
  bool_decide (f = js "json") || bool_decide (f = js "csv")
  || bool_decide (f = js "accounting").

(** [args[++i]]: the next argument, undefined past the end. *)
Definition next_arg (rest : list jsstring) : jsval :=
  match rest with
  | v :: _ => VStr v
  | [] => VUndefined
  end.

(** The loop of [parseArgs] from index [i] on, [args] being what is left
    from that index.  A flag consumes the argument after it. *)
Fixpoint parseArgs_loop (args : list jsstring) (result : CliArgs) : CliArgs :=
  match args with
  | [] => result
  | a :: rest =>
      if is_flag a "--dir" "-d" then
        let result' :=
          {| directoryPath := next_arg rest; outputPath := outputPath result;
             format := format result |} in
        match rest with
        | [] => result'
        | _ :: rest' => parseArgs_loop rest' result'
        end
      else if is_flag a "--output" "-o" then
        let result' :=
          {| directoryPath := directoryPath result; outputPath := next_arg rest;
             format := format result |} in
        match rest with
        | [] => result'
        | _ :: rest' => parseArgs_loop rest' result'
        end
      else if is_flag a "--format" "-f" then
        match rest with
        | [] => result
        | f :: rest' =>
            parseArgs_loop rest'
              (if valid_format f
               then {| directoryPath := directoryPath result;
                       outputPath := outputPath result; format := f |}
               else result)
        end
      else parseArgs_loop rest result
  end.

(** [parseArgs], given [process.argv]. *)
Definition parseArgs (argv : list jsstring) : CliArgs :=
  parseArgs_loop (drop 2 argv) default_args.

(** ** The raw export *)

(** The receipt of the raw analyzer: an id and the text. *)
Record RawReceipt : Type := { raw_id : jsstring; raw_text : jsstring }.

Definition code_cr : N := 13.
Definition code_quote : N := 34.

(** The text of a receipt on one line: newlines to spaces, carriage
    returns removed, white-space runs collapsed, ends trimmed. *)
Definition cleanText (text : jsstring) : jsstring :=
  trim
    (str_replace_all
       (str_replace_all (str_replace_all text (char_re code_nl) (js " "))
          (char_re code_cr) [])
       whitespace_run_re (js " ")).

(** Every double quote doubled. *)
Definition escapeText (cleaned : jsstring) : jsstring :=
  str_replace_all cleaned (char_re code_quote) [code_quote; code_quote].

Definition csv_row (receipt : RawReceipt) : jsstring :=
  raw_id receipt ++ js "," ++ [code_quote]
  ++ escapeText (cleanText (raw_text receipt)) ++ [code_quote; code_nl].

(** What [saveSimpleCsv] writes. *)
Definition saveSimpleCsv (receipts : list RawReceipt) : jsstring :=
  foldl (fun csvContent receipt => csvContent ++ csv_row receipt)
    (js "id,text" ++ [code_nl]) receipts.


(** ** The first parser *)

(** [span] with the upper bound of the quantifiers: a quantifier
    [{min,max}] iterates at most [max] times. *)
Fixpoint bspan (fl : flags) (r : regex) : srel := fun s c s' c' =>
  match r with
  | REmpty => s' = s /\ c' = c
  | RChar cs => exists x, s = x :: s' /\ cmatch fl cs x = true /\ c' = c
  | RNot cs => exists x, s = x :: s' /\ cmatch fl cs x = false /\ c' = c
  | RAny => exists x, s = x :: s' /\ is_line_terminator x = false /\ c' = c
  | RSeq r1 r2 =>
      exists s1 c1, bspan fl r1 s c s1 c1 /\ bspan fl r2 s1 c1 s' c'
  | RAlt r1 r2 => bspan fl r1 s c s' c' \/ bspan fl r2 s c s' c'
  | RQuant _ min max r =>
      exists n, (min <= n)%nat
        /\ match max with
           | Some m => (n <= Nat.max min m)%nat
           | None => True
           end
        /\ iter (bspan fl r) n s c s' c'
  | RGroup i r =>
      exists c1, bspan fl r s c s' c1 /\ c' = <[i := consumed s s']> c1
  | REol => at_eol fl s = true /\ s' = s /\ c' = c
  end.

(** The number of groups of a pattern, when they are numbered from 1. *)
Fixpoint group_count (r : regex) : nat :=
  match r with
  | RSeq r1 r2 | RAlt r1 r2 => Nat.max (group_count r1) (group_count r2)
  | RQuant _ _ _ r' => group_count r'
  | RGroup i r' => Nat.max i (group_count r')
  | _ => 0%nat
  end.

(** [match.length]. *)
Definition match_length (p : RegExp) : nat := S (group_count (re_body p)).

(** The class [VisionReceiptParser] of src/parser.ts, which reads the raw
    text with one function per field. *)
Module VisionReceiptParser.

Definition storeNamePatterns : list RegExp :=
  [ re_i (seq [lit "店名"; RChar (one_of ":|："); star space;
               RGroup 1 (plus RAny)]);
    re_i (seq [RGroup 1 (plus RAny); star space; RChar (CChar code_nl);
               star RAny; lit "領収"]);
    re_i (seq [RGroup 1 (plus RAny); star space; RChar (CChar code_nl);
               star RAny; times 3 (RChar (CRange (ch "0") (ch "9")));
               lit "-"; times 4 (RChar (CRange (ch "0") (ch "9")))]) ].

Fixpoint first_trimmed (text : jsstring) (ps : list RegExp) : option jsstring :=
  match ps with
  | [] => None
  | p :: ps' =>
      match first_capture text p with
      | Some v => Some (trim v)
      | None => first_trimmed text ps'
      end
  end.

Definition extractStoreName (text : jsstring) : result jsstring :=
  match first_trimmed text storeNamePatterns with
  | Some v => Ok v
  | None =>
      let lines :=
        List.filter (fun line => (0 <? length (trim line))%nat)
          (split_lines text) in
      if (0 <? length lines)%nat
      then l0 ← defined (lines !! 0%nat); Ok (trim l0)
      else Ok unknown_store
  end.

Definition datePatterns : list RegExp :=
  [ re_plain (seq [RGroup 1 (times 4 digit); RChar (one_of "年/-.");
                   RGroup 2 (between 1 2 digit); RChar (one_of "月/-.");
                   RGroup 3 (between 1 2 digit)]);
    re_plain (seq [RGroup 1 (between 2 4 digit); lit "/";
                   RGroup 2 (between 1 2 digit); lit "/";
                   RGroup 3 (between 1 2 digit)]);
    re_plain (seq [RGroup 1 (between 1 2 digit); lit "月";
                   RGroup 2 (between 1 2 digit); lit "日"]) ].

(** The body of the loop of [extractDate] for a pattern that matched:
    [Some] is a [return]. *)
Definition date_of_match (rt : Runtime) (p : RegExp) (m : MatchResult)
    : result (option jsstring) :=
  if (match_length p =? 4)%nat then
    year0 ← defined (match_get m 1);
    let year :=
      if (length year0 =? 2)%nat then js "20" ++ year0 else year0 in
    m2 ← defined (match_get m 2);
    m3 ← defined (match_get m 3);
    Ok (Some (year ++ js "-" ++ padStart0 2 m2 ++ js "-" ++ padStart0 2 m3))
  else if (match_length p =? 3)%nat then
    let currentYear := num_to_string (getFullYear rt) in
    m1 ← defined (match_get m 1);
    m2 ← defined (match_get m 2);
    Ok (Some (currentYear ++ js "-" ++ padStart0 2 m1 ++ js "-"
                ++ padStart0 2 m2))
  else Ok None.

Fixpoint extractDate_loop (rt : Runtime) (text : jsstring) (ps : list RegExp)
    : result jsstring :=
  match ps with
  | [] => Ok unknown_date
  | p :: ps' =>
      match str_match text p with
      | Some m =>
          o ← date_of_match rt p m;
          match o with
          | Some d => Ok d
          | None => extractDate_loop rt text ps'
          end
      | None => extractDate_loop rt text ps'
      end
  end.

Definition extractDate (rt : Runtime) (text : jsstring) : result jsstring :=
  extractDate_loop rt text datePatterns.

(** [.?]. *)
Definition any_opt : regex := opt RAny.

Definition amountPatterns : list RegExp :=
  [ re_i (seq [lit "合計"; star (RChar (one_of "金額")); label_gap; yen_opt;
               number_group 1]);
    re_i (seq [alts (lit "小計") [lit "お買上げ"; lit "計"]; any_opt;
               label_gap; yen_opt; number_group 1]);
    re_i (seq [alts (lit "total") [lit "金額"]; any_opt; label_gap; yen_opt;
               number_group 1]);
    re_plain (seq [RChar (one_of "¥\"); number_group 1]) ].

(** [/\d[\d,]+/g]. *)
Definition number_re : RegExp := re_plain number_body.

Fixpoint first_number (text : jsstring) (ps : list RegExp) : option jsval :=
  match ps with
  | [] => None
  | p :: ps' =>
      match first_capture text p with
      | Some v => Some (parseInt (str_replace_all v comma_re []))
      | None => first_number text ps'
      end
  end.

Definition extractAmount (text : jsstring) : jsval :=
  match first_number text amountPatterns with
  | Some v => v
  | None =>
      match str_match_all text number_re with
      | Some (n0 :: ns) =>
          math_max
            (map (fun num => parseInt (str_replace_all num comma_re []))
               (n0 :: ns))
      | _ => VNum 0
      end
  end.

Definition taxPatterns : list RegExp :=
  [ re_i (seq [lit "消費税"; label_gap; yen_opt; number_group 1]);
    re_i (seq [lit "内税"; label_gap; yen_opt; number_group 1]);
    re_i (seq [lit "外税"; label_gap; yen_opt; number_group 1]);
    re_i (seq [lit "税額"; label_gap; yen_opt; number_group 1]) ].

Definition extractTaxAmount (text : jsstring) : jsval :=
  default VUndefined (first_number text taxPatterns).

Definition paymentPatterns : list RegExp :=
  [ re_i (seq [lit "支払"; RChar (one_of "方法い"); label_gap;
               RGroup 1 (plus RAny)]);
    re_i (seq [lit "お支払"; label_gap; RGroup 1 (plus RAny)]);
    re_i (RGroup 1
            (alts (lit "クレジット")
               [lit "カード"; lit "現金"; lit "電子マネー"; lit "QRコード";
                lit "PayPay"; lit "メルペイ"])) ].

Definition extractPaymentMethod (text : jsstring) : jsval :=
  match first_trimmed text paymentPatterns with
  | Some v => VStr v
  | None => VUndefined
  end.

Definition categorizeStore (rt : Runtime) (storeName : jsstring) : jsstring :=
  let lowerStoreName := toLowerCase rt storeName in
  if re_test dining_re lowerStoreName then js "飲食"
  else if re_test groceries_re lowerStoreName then js "食料品"
  else if re_test fuel_re lowerStoreName then js "交通費"
  else if re_test lodging_re lowerStoreName then js "宿泊"
  else js "その他".

Definition parseReceiptText (rt : Runtime) (text filePath : jsstring)
    : result Receipt :=
  storeName ← extractStoreName text;
  date ← extractDate rt text;
  let amount := extractAmount text in
  items ← extractItems text;
  let taxAmount := extractTaxAmount text in
  let paymentMethod := extractPaymentMethod text in
  Ok {| id := basename_noext rt filePath;
        storeName := VStr storeName;
        date := VStr date;
        amount := amount;
        items := items;
        taxAmount := taxAmount;
        paymentMethod := paymentMethod;
        rawText := text;
        category := VStr (categorizeStore rt storeName) |}.

End VisionReceiptParser.

(** A word of digits with its length between two bounds. *)
Definition digits_between (lo hi : nat) (w : jsstring) : Prop :=
  forallb is_digit w = true /\ (lo <= length w <= hi)%nat.

(** A date in the canonical form: a year of digits, a month and a day of
    two digits each, joined by hyphens. *)
Definition date_shape (d : jsstring) : Prop :=
  exists y mo da,
    d = y ++ js "-" ++ mo ++ js "-" ++ da
    /\ all_digits y = true
    /\ digits_between 2 2 mo /\ digits_between 2 2 da.

(** * Properties of the matcher *)

Lemma iter_app (R : srel) n m s c s1 c1 s2 c2 :
  iter R n s c s1 c1 -> iter R m s1 c1 s2 c2 -> iter R (n + m) s c s2 c2.
Proof.
  revert s c. induction n as [|n IH]; intros s c; simpl.
  - intros [-> ->]. done.
  - intros (sa & ca & Hr & Hit) Hm. exists sa, ca. split; [done|].
    by apply IH.
Qed.

Section RepeatSound.
Variables (body : matcher) (R : srel).
Hypothesis body_sound : sound body R.

Lemma repeat_min_sound n k s c z :
  repeat_min body n k s c = Some z ->
  exists s' c', iter R n s c s' c' /\ k s' c' = Some z.
Proof.
  revert s c. induction n as [|n IH]; intros s c; simpl.
  - intros Hk. by exists s, c.
  - intros Hb. apply body_sound in Hb as (s1 & c1 & Hr & Hrest).
    apply IH in Hrest as (s2 & c2 & Hit & Hk).
    exists s2, c2. split; [|done]. by exists s1, c1.
Qed.

Lemma repeat_opt_sound greedy fuel k s c z :
  repeat_opt body greedy fuel k s c = Some z ->
  exists n s' c', iter R n s c s' c' /\ k s' c' = Some z.
Proof.
  revert s c z. induction fuel as [|fuel IH]; intros s c z; simpl.
  - intros Hk. by exists 0%nat, s, c.
  - assert (Hagain : forall z',
      body (fun s' c' =>
              if (length s' <? length s)%nat
              then repeat_opt body greedy fuel k s' c' else None) s c = Some z' ->
      exists n s' c', iter R n s c s' c' /\ k s' c' = Some z').
    { intros z' Hb. apply body_sound in Hb as (s1 & c1 & Hr & Hrest).
      destruct (length s1 <? length s)%nat; [|done].
      apply IH in Hrest as (n & s2 & c2 & Hit & Hk).
      exists (S n), s2, c2. split; [|done]. by exists s1, c1. }
    destruct greedy.
    + destruct (body _ s c) as [z'|] eqn:Hb.
      * intros [= <-]. by apply Hagain.
      * intros Hk. by exists 0%nat, s, c.
    + destruct (k s c) as [z'|] eqn:Hk.
      * intros [= <-]. by exists 0%nat, s, c.
      * apply Hagain.
Qed.
End RepeatSound.

Lemma rmatch_sound fl r : sound (rmatch fl r) (span fl r).
Proof.
  induction r as [|cs|cs| |r1 IH1 r2 IH2|r1 IH1 r2 IH2|g mn mx r IH|i r IH|];
    intros k s c z; simpl.
  - intros Hk. by exists s, c.
  - destruct s as [|x s']; [done|].
    destruct (cmatch fl cs x) eqn:Hx; [|done].
    intros Hk. exists s', c. split; [|done]. by exists x.
  - destruct s as [|x s']; [done|].
    destruct (cmatch fl cs x) eqn:Hx; [done|].
    intros Hk. exists s', c. split; [|done]. by exists x.
  - destruct s as [|x s']; [done|].
    destruct (is_line_terminator x) eqn:Hx; [done|].
    intros Hk. exists s', c. split; [|done]. by exists x.
  - intros H. apply IH1 in H as (s1 & c1 & H1 & H).
    apply IH2 in H as (s2 & c2 & H2 & Hk).
    exists s2, c2. split; [|done]. by exists s1, c1.
  - destruct (rmatch fl r1 k s c) as [z'|] eqn:H1.
    + intros [= <-]. apply IH1 in H1 as (s1 & c1 & H1 & Hk).
      exists s1, c1. split; [by left|done].
    + intros H2. apply IH2 in H2 as (s2 & c2 & H2 & Hk).
      exists s2, c2. split; [by right|done].
  - intros H.
    apply (repeat_min_sound _ _ IH) in H as (s1 & c1 & Hmin & H).
    apply (repeat_opt_sound _ _ IH) in H as (n & s2 & c2 & Hopt & Hk).
    exists s2, c2. split; [|done].
    exists (mn + n)%nat. split; [lia|]. by eapply iter_app.
  - intros H. apply IH in H as (s1 & c1 & H1 & Hk).
    exists s1, (<[i := consumed s s1]> c1). split; [|done]. by exists c1.
  - destruct (at_eol fl s) eqn:He; [|done].
    intros Hk. by exists s, c.
Qed.

(** A match reads a prefix of the input. *)
Lemma iter_suffix (R : srel) :
  (forall s c s' c', R s c s' c' -> s' `suffix_of` s) ->
  forall n s c s' c', iter R n s c s' c' -> s' `suffix_of` s.
Proof.
  intros HR n. induction n as [|n IH]; intros s c s' c'; simpl.
  - by intros [-> _].
  - intros (s1 & c1 & H1 & H2). etrans; [by eapply IH|by eapply HR].
Qed.

Lemma span_suffix fl r s c s' c' : span fl r s c s' c' -> s' `suffix_of` s.
Proof.
  revert s c s' c'.
  induction r as [|cs|cs| |r1 IH1 r2 IH2|r1 IH1 r2 IH2|g mn mx r IH|i r IH|];
    intros s c s' c'; simpl.
  - by intros [-> _].
  - intros (x & -> & _). by apply suffix_cons_r.
  - intros (x & -> & _). by apply suffix_cons_r.
  - intros (x & -> & _). by apply suffix_cons_r.
  - intros (s1 & c1 & H1 & H2). etrans; [by eapply IH2|by eapply IH1].
  - intros [H|H]; eauto.
  - intros (n & _ & H). by eapply iter_suffix.
  - intros (c1 & H & _). eauto.
  - by intros (_ & -> & _).
Qed.

Lemma consumed_app (w s' : jsstring) : consumed (w ++ s') s' = w.
Proof.
  unfold consumed. rewrite length_app.
  replace (length w + length s' - length s')%nat with (length w) by lia.
  by rewrite take_app_length.
Qed.

Lemma consumed_self (s : jsstring) : consumed s s = [].
Proof. unfold consumed. by rewrite Nat.sub_diag. Qed.

(** ** The leftmost match *)

Lemma match_here_span p s s' c :
  match_here p s = Some (s', c) -> span (re_flags p) (re_body p) s ∅ s' c.
Proof.
  unfold match_here. intros H.
  apply rmatch_sound in H as (s1 & c1 & Hspan & [= -> ->]). done.
Qed.

Lemma search_from_sound p pos text m rest :
  search_from p pos text = Some (m, rest) ->
  exists s, s `suffix_of` text
    /\ span (re_flags p) (re_body p) s ∅ rest (match_groups m)
    /\ match_whole m = consumed s rest.
Proof.
  revert pos. induction text as [|x t IH]; intros pos; simpl.
  - destruct (match_here p []) as [[s' c]|] eqn:H; [|done].
    intros [= <- <-]. exists []. split; [done|]. split; [|done].
    by apply match_here_span.
  - destruct (match_here p (x :: t)) as [[s' c]|] eqn:H.
    + intros [= <- <-]. exists (x :: t). split; [done|]. split; [|done].
      by apply match_here_span.
    + intros Hs. apply IH in Hs as (s & Hsuf & Hspan & Hw).
      exists s. split; [by apply suffix_cons_r|done].
Qed.

Lemma str_match_sound text p m :
  str_match text p = Some m ->
  exists s rest, s `suffix_of` text
    /\ span (re_flags p) (re_body p) s ∅ rest (match_groups m)
    /\ match_whole m = consumed s rest.
Proof.
  unfold str_match. destruct (search_from p 0 text) as [[m' rest]|] eqn:H; [|done].
  simpl. intros [= <-]. apply search_from_sound in H as (s & ? & ? & ?). by exists s, rest.
Qed.


(** ** Patterns read without running them *)

Lemma ascii_upper_digit x : is_digit (ascii_upper x) = true -> is_digit x = true.
Proof.
  unfold ascii_upper, is_lower, is_digit.
  destruct (N.leb_spec 97 x), (N.leb_spec x 122); simpl; try done.
  rewrite !andb_true_iff, !N.leb_le. lia.
Qed.

Lemma ascii_lower_digit x : is_digit (ascii_lower x) = true -> is_digit x = true.
Proof.
  unfold ascii_lower, is_upper, is_digit.
  destruct (N.leb_spec 65 x), (N.leb_spec x 90); simpl; try done.
  rewrite !andb_true_iff, !N.leb_le. lia.
Qed.

Lemma cmatch_digit fl x : cmatch fl CDigit x = true -> is_digit x = true.
Proof.
  unfold cmatch. cbn [cmember].
  rewrite !orb_true_iff, andb_true_iff, orb_true_iff.
  intros [H|[_ [H|H]]]; [done|by apply ascii_upper_digit|by apply ascii_lower_digit].
Qed.

Lemma ascii_upper_comma x : (ascii_upper x =? 44) = true -> (x =? 44) = true.
Proof.
  unfold ascii_upper, is_lower.
  destruct (N.leb_spec 97 x), (N.leb_spec x 122); simpl; try done.
  rewrite !N.eqb_eq. lia.
Qed.

Lemma ascii_lower_comma x : (ascii_lower x =? 44) = true -> (x =? 44) = true.
Proof.
  unfold ascii_lower, is_upper.
  destruct (N.leb_spec 65 x), (N.leb_spec x 90); simpl; try done.
  rewrite !N.eqb_eq. lia.
Qed.

Lemma cmatch_dc fl x :
  cmatch fl (CUnion CDigit (CChar (ch ","))) x = true -> is_dc x = true.
Proof.
  unfold cmatch, is_dc. cbn [cmember]. change (ch ",") with 44.
  rewrite !orb_true_iff, andb_true_iff, !orb_true_iff.
  intros [[H|H]|[_ [[H|H]|[H|H]]]]; auto using ascii_upper_digit,
    ascii_lower_digit, ascii_upper_comma, ascii_lower_comma.
Qed.

Lemma span_prefix fl r s c s' c' :
  span fl r s c s' c' -> exists w, s = w ++ s'.
Proof. intros H. apply span_suffix in H as [w ->]. by exists w. Qed.

Lemma iter_char fl cs n s c s' c' :
  iter (span fl (RChar cs)) n s c s' c' ->
  c' = c /\ exists w, s = w ++ s' /\ length w = n
    /\ Forall (fun x => cmatch fl cs x = true) w.
Proof.
  revert s c. induction n as [|n IH]; intros s c; simpl.
  - intros [-> ->]. split; [done|]. by exists [].
  - intros (s1 & c1 & (x & -> & Hx & ->) & Hit).
    apply IH in Hit as (-> & w & -> & Hlen & Hw).
    split; [done|]. exists (x :: w). simpl. repeat split; [by f_equal|].
    by constructor.
Qed.

Lemma span_number_body fl s c s' c' :
  span fl number_body s c s' c' ->
  c' = c /\ exists w, s = w ++ s' /\ number_shaped w = true.
Proof.
  unfold number_body, digit, plus. simpl.
  intros (s1 & c1 & (x & -> & Hx & ->) & n & Hn & Hit).
  apply iter_char in Hit as (-> & w & -> & Hlen & Hw).
  split; [done|]. exists (x :: w). split; [done|].
  destruct w as [|y t]; [simpl in Hlen; lia|].
  cbn [number_shaped]. apply andb_true_iff. split; [by eapply cmatch_digit|].
  apply forallb_forall. intros z Hz.
  rewrite Forall_forall in Hw. apply (cmatch_dc fl). apply Hw.
  by apply list_elem_of_In.
Qed.

Lemma has_number_app_l w1 w2 :
  has_number w1 = true -> has_number (w1 ++ w2) = true.
Proof.
  induction w1 as [|x t IH]; [done|].
  cbn [has_number app]. rewrite !orb_true_iff. intros [H|H].
  - left. destruct t as [|y t']; [done|]. done.
  - right. by apply IH.
Qed.

Lemma has_number_app_r w1 w2 :
  has_number w2 = true -> has_number (w1 ++ w2) = true.
Proof.
  intros H. induction w1 as [|x t IH]; [done|].
  cbn [has_number app]. rewrite IH. apply orb_true_r.
Qed.

Lemma number_shaped_has_number w :
  number_shaped w = true -> has_number w = true.
Proof.
  destruct w as [|x [|y t]]; try done.
  cbn [number_shaped has_number starts_number forallb].
  rewrite !andb_true_iff. intros (Hx & Hy & _).
  by rewrite Hx, Hy.
Qed.

Lemma iter_prefix fl r n s c s' c' :
  iter (span fl r) n s c s' c' -> exists w, s = w ++ s'.
Proof.
  intros H. apply (iter_suffix (span fl r)) in H as [w ->]; [by exists w|].
  intros. by eapply span_suffix.
Qed.

Lemma requires_number_sound fl r :
  requires_number r = true ->
  forall s c s' c', span fl r s c s' c' ->
    exists w, s = w ++ s' /\ has_number w = true.
Proof.
  induction r as [|cs|cs| |r1 IH1 r2 IH2|r1 IH1 r2 IH2|g mn mx r IH|i r IH|];
    simpl; try done.
  - rewrite orb_true_iff. intros Hreq s c s' c' (s1 & c1 & H1 & H2).
    destruct Hreq as [Hreq|Hreq].
    + destruct (IH1 Hreq _ _ _ _ H1) as (w1 & -> & Hw1).
      apply span_prefix in H2 as [w2 ->].
      exists (w1 ++ w2). rewrite <- (assoc_L (++)).
      split; [done|by apply has_number_app_l].
    + destruct (IH2 Hreq _ _ _ _ H2) as (w2 & -> & Hw2).
      apply span_prefix in H1 as [w1 ->].
      exists (w1 ++ w2). rewrite <- (assoc_L (++)).
      split; [done|by apply has_number_app_r].
  - rewrite andb_true_iff. intros [Hr1 Hr2] s c s' c' [H|H]; eauto.
  - rewrite andb_true_iff. intros [Hmn Hreq] s c s' c' (n & Hn & Hit).
    apply Nat.ltb_lt in Hmn. destruct n as [|n]; [lia|].
    simpl in Hit. destruct Hit as (s1 & c1 & H1 & Hit).
    destruct (IH Hreq _ _ _ _ H1) as (w1 & -> & Hw1).
    apply iter_prefix in Hit as [w2 ->].
    exists (w1 ++ w2). rewrite <- (assoc_L (++)).
    split; [done|by apply has_number_app_l].
  - rewrite orb_true_iff. intros Hreq s c s' c' (c1 & H & _).
    destruct Hreq as [Heq|Hreq]; [|by eauto].
    apply bool_decide_eq_true in Heq as ->.
    apply span_number_body in H as (_ & w & -> & Hw).
    exists w. split; [done|by apply number_shaped_has_number].
Qed.

Lemma has_number_suffix s text :
  s `suffix_of` text -> has_number s = true -> has_number text = true.
Proof. intros [k ->]. apply has_number_app_r. Qed.

(** A pattern that needs a number finds nothing in a text without one. *)
Lemma search_from_no_number p pos text :
  requires_number (re_body p) = true -> has_number text = false ->
  search_from p pos text = None.
Proof.
  intros Hreq Hno.
  destruct (search_from p pos text) as [[m rest]|] eqn:Hs; [|done].
  apply search_from_sound in Hs as (s & Hsuf & Hspan & _).
  apply (requires_number_sound _ _ Hreq) in Hspan as (w & -> & Hw).
  assert (has_number text = true); [|congruence].
  eapply has_number_suffix; [done|]. by apply has_number_app_l.
Qed.

Lemma str_match_no_number p text :
  requires_number (re_body p) = true -> has_number text = false ->
  str_match text p = None.
Proof.
  intros Hreq Hno. unfold str_match.
  by rewrite search_from_no_number.
Qed.

(** *** Captures *)

Lemma iter_captures (R : srel) (Q : captures -> captures -> Prop) :
  (forall c, Q c c) ->
  (forall c1 c2 c3, Q c1 c2 -> Q c2 c3 -> Q c1 c3) ->
  (forall s c s' c', R s c s' c' -> Q c c') ->
  forall n s c s' c', iter R n s c s' c' -> Q c c'.
Proof.
  intros Hrefl Htrans HR n. induction n as [|n IH]; intros s c s' c'; simpl.
  - intros [_ ->]. apply Hrefl.
  - intros (s1 & c1 & H1 & H2). eapply Htrans; [by eapply HR|by eapply IH].
Qed.

Lemma span_keeps fl i r :
  assigns i r = false ->
  forall s c s' c', span fl r s c s' c' -> c' !! i = c !! i.
Proof.
  induction r as [|cs|cs| |r1 IH1 r2 IH2|r1 IH1 r2 IH2|g mn mx r IH|j r IH|];
    simpl; intros Ha s c s' c'.
  - by intros [_ ->].
  - by intros (x & _ & _ & ->).
  - by intros (x & _ & _ & ->).
  - by intros (x & _ & _ & ->).
  - apply orb_false_iff in Ha as [Ha1 Ha2].
    intros (s1 & c1 & H1 & H2).
    rewrite (IH2 Ha2 _ _ _ _ H2). by eapply IH1.
  - apply orb_false_iff in Ha as [Ha1 Ha2]. intros [H|H]; eauto.
  - intros (n & _ & Hit).
    refine (iter_captures _ (fun c c' => c' !! i = c !! i)
              _ _ _ n s c s' c' Hit); [done|congruence|].
    intros s0 c0 s1 c1 H. by eapply IH.
  - apply orb_false_iff in Ha as [Hij Ha].
    apply bool_decide_eq_false in Hij.
    intros (c1 & H & ->). rewrite lookup_insert_ne by done. by eapply IH.
  - by intros (_ & _ & ->).
Qed.

Lemma span_mono fl i r s c s' c' :
  span fl r s c s' c' -> is_Some (c !! i) -> is_Some (c' !! i).
Proof.
  revert s c s' c'.
  induction r as [|cs|cs| |r1 IH1 r2 IH2|r1 IH1 r2 IH2|g mn mx r IH|j r IH|];
    simpl; intros s c s' c'.
  - by intros [_ ->].
  - by intros (x & _ & _ & ->).
  - by intros (x & _ & _ & ->).
  - by intros (x & _ & _ & ->).
  - intros (s1 & c1 & H1 & H2) Hc. eauto.
  - intros [H|H]; eauto.
  - intros (n & _ & Hit) Hc.
    refine (iter_captures _ (fun c c' => is_Some (c !! i) -> is_Some (c' !! i))
              _ _ _ n s c s' c' Hit Hc); [by auto|by auto|].
    intros s0 c0 s1 c1 H. by eapply IH.
  - intros (c1 & H & ->) Hc. destruct (decide (j = i)) as [->|Hne].
    + rewrite lookup_insert_eq. eauto.
    + rewrite lookup_insert_ne by done. eauto.
  - by intros (_ & _ & ->).
Qed.

Lemma span_defines fl i r :
  defines i r = true ->
  forall s c s' c', span fl r s c s' c' -> is_Some (c' !! i).
Proof.
  induction r as [|cs|cs| |r1 IH1 r2 IH2|r1 IH1 r2 IH2|g mn mx r IH|j r IH|];
    simpl; try done; intros Hd s c s' c'.
  - apply orb_true_iff in Hd. intros (s1 & c1 & H1 & H2).
    destruct Hd as [Hd|Hd]; [|by eauto].
    eapply span_mono; [done|]. by eapply IH1.
  - apply andb_true_iff in Hd as [Hd1 Hd2]. intros [H|H]; eauto.
  - apply andb_true_iff in Hd as [Hmn Hd]. apply Nat.ltb_lt in Hmn.
    intros (n & Hn & Hit). destruct n as [|n]; [lia|].
    simpl in Hit. destruct Hit as (s1 & c1 & H1 & Hit).
    refine (iter_captures _ (fun c c' => is_Some (c !! i) -> is_Some (c' !! i))
              _ _ _ n s1 c1 s' c' Hit _); [by auto|by auto| |by eauto].
    intros s0 c0 s2 c2 H. by eapply span_mono.
  - apply orb_true_iff in Hd. intros (c1 & H & ->).
    destruct (decide (j = i)) as [->|Hne].
    + rewrite lookup_insert_eq. eauto.
    + rewrite lookup_insert_ne by done.
      destruct Hd as [Hd|Hd]; [|by eauto].
      apply bool_decide_eq_true in Hd. congruence.
Qed.

Lemma span_groups_in fl i bodies (P : jsstring -> Prop) r :
  groups_in i bodies r = true ->
  (forall b, b ∈ bodies ->
     forall s c s' c', span fl b s c s' c' -> P (consumed s s')) ->
  forall s c s' c', span fl r s c s' c' ->
    (forall v, c !! i = Some v -> P v) -> forall v, c' !! i = Some v -> P v.
Proof.
  intros Hg Hbodies. revert Hg.
  induction r as [|cs|cs| |r1 IH1 r2 IH2|r1 IH1 r2 IH2|g mn mx r IH|j r IH|];
    simpl; intros Hg s c s' c'.
  - by intros [_ ->].
  - by intros (x & _ & _ & ->).
  - by intros (x & _ & _ & ->).
  - by intros (x & _ & _ & ->).
  - apply andb_true_iff in Hg as [Hg1 Hg2].
    intros (s1 & c1 & H1 & H2) Hc. eauto.
  - apply andb_true_iff in Hg as [Hg1 Hg2]. intros [H|H]; eauto.
  - intros (n & _ & Hit) Hc.
    refine (iter_captures _
              (fun c c' => (forall v, c !! i = Some v -> P v) ->
                           forall v, c' !! i = Some v -> P v)
              _ _ _ n s c s' c' Hit Hc); [by auto|by auto|].
    intros s0 c0 s1 c1 H. by eapply IH.
  - apply andb_true_iff in Hg as [Hj Hg].
    intros (c1 & H & ->) Hc v. destruct (decide (i = j)) as [<-|Hne].
    + rewrite lookup_insert_eq. intros [= <-].
      rewrite bool_decide_eq_true_2 in Hj by done.
      apply bool_decide_eq_true in Hj. by eapply Hbodies.
    + rewrite lookup_insert_ne by done. by eapply IH.
  - by intros (_ & _ & ->).
Qed.
(** * Numbers *)

Section Numbers.
Local Open Scope Z_scope.

(** ** Rounding to a multiple of a power of two *)

Lemma round_at_spec s n :
  0 < s ->
  exists q r, 0 <= r < 2 ^ s /\ n = q * 2 ^ s + r
    /\ q = n / 2 ^ s
    /\ ((round_at s n = q * 2 ^ s /\ 2 * r <= 2 ^ s)
        \/ (round_at s n = (q + 1) * 2 ^ s /\ 2 ^ s <= 2 * r)).
Proof.
  intros Hs. assert (Hu : 0 < 2 ^ s) by (apply Z.pow_pos_nonneg; lia).
  exists (n / 2 ^ s), (n mod 2 ^ s).
  pose proof (Z.mod_pos_bound n _ Hu) as Hr.
  pose proof (Z.div_mod n (2 ^ s) ltac:(lia)) as Hn.
  split; [done|]. split; [lia|]. split; [done|].
  unfold round_at. cbv zeta.
  destruct (Z.ltb_spec (2 * (n mod 2 ^ s)) (2 ^ s)); [left; lia|].
  destruct (Z.ltb_spec (2 ^ s) (2 * (n mod 2 ^ s))); [right; lia|].
  destruct (Z.even (n / 2 ^ s)); [left|right]; lia.
Qed.

Lemma between_multiples u q r a b R :
  0 < u -> 0 <= r < u -> a * u <= q * u + r <= b * u ->
  (R = q * u /\ 2 * r <= u) \/ (R = (q + 1) * u /\ u <= 2 * r) ->
  a * u <= R <= b * u.
Proof.
  intros Hu Hr [Ha Hb] Hcase.
  assert (Haq : a <= q).
  { destruct (Z.le_gt_cases a q) as [|Hgt]; [done|].
    assert ((q + 1) * u <= a * u) by (apply Z.mul_le_mono_nonneg_r; lia).
    lia. }
  assert (Hau : a * u <= q * u) by (apply Z.mul_le_mono_nonneg_r; lia).
  destruct Hcase as [[-> H]|[-> H]]; [lia|].
  assert (Hqb : q + 1 <= b).
  { destruct (Z.le_gt_cases (q + 1) b) as [|Hgt]; [done|].
    assert (b * u <= q * u) by (apply Z.mul_le_mono_nonneg_r; lia).
    lia. }
  assert ((q + 1) * u <= b * u) by (apply Z.mul_le_mono_nonneg_r; lia).
  lia.
Qed.

(** Rounding stays between the multiples that enclose the number. *)
Lemma round_at_between s n a b :
  0 < s -> a * 2 ^ s <= n <= b * 2 ^ s ->
  a * 2 ^ s <= round_at s n <= b * 2 ^ s.
Proof.
  intros Hs Hab. assert (Hu : 0 < 2 ^ s) by (apply Z.pow_pos_nonneg; lia).
  destruct (round_at_spec s n Hs) as (q & r & Hr & Hn & _ & Hcase).
  rewrite Hn in Hab. by eapply between_multiples.
Qed.

(** A multiple of a larger power of two is a multiple of a smaller one. *)
Lemma multiple_pow2 s t c : 0 <= s <= t -> c * 2 ^ t = (c * 2 ^ (t - s)) * 2 ^ s.
Proof.
  intros H. rewrite <- Z.mul_assoc, <- Z.pow_add_r by lia.
  by replace (t - s + s) with t by lia.
Qed.

Lemma round_at_lower s t n c :
  0 < s <= t -> c * 2 ^ t <= n -> c * 2 ^ t <= round_at s n.
Proof.
  intros Hst Hn. rewrite (multiple_pow2 s t c) in * by lia.
  destruct (round_at_spec s n ltac:(lia)) as (q & r & Hr & Hq & _ & Hcase).
  assert (Hu : 0 < 2 ^ s) by (apply Z.pow_pos_nonneg; lia).
  eapply (between_multiples (2 ^ s) q r _ (q + 1)); [done|done| |done].
  rewrite <- Hq. lia.
Qed.

Lemma round_at_upper s t n c :
  0 < s <= t -> n <= c * 2 ^ t -> round_at s n <= c * 2 ^ t.
Proof.
  intros Hst Hn. rewrite (multiple_pow2 s t c) in * by lia.
  destruct (round_at_spec s n ltac:(lia)) as (q & r & Hr & Hq & _ & Hcase).
  assert (Hu : 0 < 2 ^ s) by (apply Z.pow_pos_nonneg; lia).
  eapply (between_multiples (2 ^ s) q r q); [done|done| |done].
  rewrite <- Hq. lia.
Qed.

(** Rounding moves a number by half a step at most. *)
Lemma round_at_error s n :
  0 < s -> 2 * Z.abs (round_at s n - n) <= 2 ^ s.
Proof.
  intros Hs.
  destruct (round_at_spec s n Hs) as (q & r & Hr & Hq & _ & Hcase).
  revert Hr Hq Hcase. generalize (2 ^ s) (round_at s n).
  intros u R Hr Hq [[-> H]|[-> H]]; lia.
Qed.

Lemma round_at_mono s n m :
  0 < s -> n <= m -> round_at s n <= round_at s m.
Proof.
  intros Hs Hnm.
  destruct (Z.eq_dec n m) as [->|Hne]; [lia|].
  assert (Hu : 0 < 2 ^ s) by (apply Z.pow_pos_nonneg; lia).
  destruct (round_at_spec s n Hs) as (q1 & r1 & Hr1 & Hq1 & _ & Hc1).
  destruct (round_at_spec s m Hs) as (q2 & r2 & Hr2 & Hq2 & _ & Hc2).
  destruct (Z.lt_trichotomy q1 q2) as [Hlt|[->|Hgt]].
  - assert ((q1 + 1) * 2 ^ s <= q2 * 2 ^ s)
      by (apply Z.mul_le_mono_nonneg_r; lia).
    destruct (between_multiples (2 ^ s) q1 r1 q1 (q1 + 1) _ Hu Hr1
                ltac:(lia) Hc1).
    destruct (between_multiples (2 ^ s) q2 r2 q2 (q2 + 1) _ Hu Hr2
                ltac:(lia) Hc2).
    lia.
  - destruct Hc1 as [[-> H1]|[-> H1]], Hc2 as [[-> H2]|[-> H2]]; lia.
  - assert ((q2 + 1) * 2 ^ s <= q1 * 2 ^ s)
      by (apply Z.mul_le_mono_nonneg_r; lia).
    lia.
Qed.

(** ** Rounding to 53 significant bits *)

Lemma round53_small n : 0 <= n < 2 ^ 53 -> round53 n = n.
Proof.
  intros [H0 Hn]. unfold round53. cbv zeta.
  destruct (Z.leb_spec (Z.log2 n) 52) as [|Hlog]; [done|].
  assert (0 < n) by (destruct (Z.eq_dec n 0) as [->|]; [done|lia]).
  apply Z.log2_lt_pow2 in Hn; lia.
Qed.

Lemma log2_small n : 0 <= n -> Z.log2 n <= 52 -> n < 2 ^ 53.
Proof.
  intros H0 Hlog. destruct (Z.eq_dec n 0) as [->|]; [done|].
  apply Z.log2_lt_pow2; lia.
Qed.

Lemma round53_large n :
  52 < Z.log2 n -> round53 n = round_at (Z.log2 n - 52) n.
Proof.
  intros H. unfold round53. cbv zeta.
  destruct (Z.leb_spec (Z.log2 n) 52); [lia|done].
Qed.

Lemma log2_pos n : 0 < Z.log2 n -> 0 < n.
Proof. intros H. destruct (Z.log2_null n) as [_ Hn]. pose proof (Z.log2_nonneg n). destruct (Z.lt_ge_cases 0 n); [done|]. rewrite Z.log2_nonpos in H; lia. Qed.

Lemma pow2_log2 n :
  52 < Z.log2 n -> 2 ^ Z.log2 n = 2 ^ 52 * 2 ^ (Z.log2 n - 52).
Proof.
  intros H. rewrite <- Z.pow_add_r by lia. f_equal. lia.
Qed.

(** A rounded number stays within its binade. *)
Lemma round53_between n :
  52 < Z.log2 n ->
  2 ^ Z.log2 n <= round53 n <= 2 ^ (Z.log2 n + 1).
Proof.
  intros H. assert (Hn : 0 < n) by (apply log2_pos; lia).
  destruct (Z.log2_spec n Hn) as [Hlo Hhi].
  rewrite round53_large by done.
  replace (2 ^ (Z.log2 n + 1)) with (2 ^ 53 * 2 ^ (Z.log2 n - 52)).
  2:{ rewrite <- Z.pow_add_r by lia. f_equal. lia. }
  rewrite (pow2_log2 n H) at 1.
  apply round_at_between; [lia|].
  rewrite <- (pow2_log2 n H).
  replace (2 ^ 53 * 2 ^ (Z.log2 n - 52)) with (2 ^ Z.succ (Z.log2 n)); [lia|].
  rewrite <- Z.pow_add_r by lia. f_equal. lia.
Qed.

Lemma round53_nonneg n : 0 <= n -> 0 <= round53 n.
Proof.
  intros Hn. destruct (Z.le_gt_cases (Z.log2 n) 52) as [H|H].
  - unfold round53. cbv zeta. destruct (Z.leb_spec (Z.log2 n) 52); [done|lia].
  - pose proof (round53_between n H) as [Hlo _].
    pose proof (Z.pow_pos_nonneg 2 (Z.log2 n) ltac:(lia) (Z.log2_nonneg n)). lia.
Qed.

Lemma round53_mono n m : 0 <= n <= m -> round53 n <= round53 m.
Proof.
  intros [Hn Hnm].
  pose proof (Z.log2_le_mono n m Hnm) as Hlog.
  destruct (Z.le_gt_cases (Z.log2 m) 52) as [Hm|Hm].
  - unfold round53. cbv zeta.
    destruct (Z.leb_spec (Z.log2 n) 52); [|lia].
    destruct (Z.leb_spec (Z.log2 m) 52); [done|lia].
  - pose proof (round53_between m Hm) as [Hmlo _].
    destruct (Z.le_gt_cases (Z.log2 n) 52) as [Hn52|Hn52].
    + pose proof (log2_small n Hn Hn52).
      rewrite (round53_small n) by lia.
      assert (2 ^ 53 <= 2 ^ Z.log2 m) by (apply Z.pow_le_mono_r; lia). lia.
    + destruct (Z.eq_dec (Z.log2 n) (Z.log2 m)) as [Heq|Hne].
      * rewrite !round53_large by done. rewrite Heq.
        apply round_at_mono; lia.
      * pose proof (round53_between n Hn52) as [_ Hnhi].
        assert (2 ^ (Z.log2 n + 1) <= 2 ^ Z.log2 m)
          by (apply Z.pow_le_mono_r; lia).
        lia.
Qed.

Lemma round53_finite n :
  0 <= n <= max_finite -> round53 n < overflow_bound.
Proof.
  intros [Hn Hmax].
  assert (Hlt : max_finite < overflow_bound) by (vm_compute; reflexivity).
  destruct (Z.le_gt_cases (Z.log2 n) 52) as [H|H].
  - pose proof (log2_small n Hn H). rewrite round53_small by lia.
    assert (2 ^ 53 < overflow_bound) by (vm_compute; reflexivity). lia.
  - rewrite round53_large by done.
    assert (Hlog : Z.log2 n < 1024).
    { apply Z.log2_lt_pow2; [by apply log2_pos; lia|].
      change (2 ^ 1024) with overflow_bound. lia. }
    pose proof (round_at_upper (Z.log2 n - 52) 971 n (2 ^ 53 - 1)
                  ltac:(lia) Hmax) as Hup.
    fold max_finite in Hup. lia.
Qed.

(** ** The number value of an integer *)

Lemma to_number_nonneg z :
  0 <= z ->
  to_number z
  = if overflow_bound <=? round53 z then Infinity else Finite (round53 z).
Proof.
  intros Hz. unfold to_number. cbv zeta. rewrite Z.abs_eq by done.
  destruct (Z.ltb_spec z 0); [lia|].
  destruct (overflow_bound <=? round53 z); [done|].
  destruct (Z.eq_dec z 0) as [->|Hne]; [done|].
  rewrite Z.sgn_pos by lia. f_equal. lia.
Qed.


Lemma to_number_natural z :
  0 <= z ->
  to_number z = Infinity \/ exists m, to_number z = Finite m /\ 0 <= m.
Proof.
  intros Hz. rewrite to_number_nonneg by done.
  destruct (overflow_bound <=? round53 z); [by left|right].
  exists (round53 z). split; [done|by apply round53_nonneg].
Qed.

Lemma to_number_finite z :
  0 <= z <= max_finite -> exists m, to_number z = Finite m /\ 0 <= m.
Proof.
  intros Hz. rewrite to_number_nonneg by lia.
  pose proof (round53_finite z Hz).
  destruct (Z.leb_spec overflow_bound (round53 z)); [lia|].
  exists (round53 z). split; [done|apply round53_nonneg; lia].
Qed.

(** Rounding keeps the order, so the largest of the number values is the
    number value of the largest. *)
Lemma to_number_max a b :
  0 <= a -> 0 <= b ->
  number_max (to_number a) (to_number b) = to_number (Z.max a b).
Proof.
  intros Ha Hb. rewrite !to_number_nonneg by lia.
  destruct (Z.max_spec a b) as [[Hab ->]|[Hab ->]].
  - pose proof (round53_mono a b ltac:(lia)).
    destruct (Z.leb_spec overflow_bound (round53 a)),
             (Z.leb_spec overflow_bound (round53 b)); try done; try lia.
    simpl. f_equal. lia.
  - pose proof (round53_mono b a ltac:(lia)).
    destruct (Z.leb_spec overflow_bound (round53 a)),
             (Z.leb_spec overflow_bound (round53 b)); try done; try lia.
    simpl. f_equal. lia.
Qed.

(** ** A tenth of a whole number *)

(** Ten times the binary64 tenth exceeds one by [2 / 2^55]. *)
Lemma ten_tenths : 10 * tenth = 2 ^ 55 + 2.
Proof. reflexivity. Qed.

(** Below 10^15 the rounding of the product does not reach the next
    integer: the floor is the quotient by ten. *)
Lemma floor_times_tenth_exact a :
  0 <= a < 10 ^ 15 -> floor_times_tenth a = a / 10.
Proof.
  intros [H0 Ha]. unfold floor_times_tenth.
  destruct (Z.eq_dec a 0) as [->|Hne]; [reflexivity|].
  rewrite Z.sgn_pos, Z.abs_eq, Z.mul_1_l by lia.
  pose proof (Z.div_mod a 10 ltac:(lia)) as Hdm.
  pose proof (Z.mod_pos_bound a 10 ltac:(lia)) as Hr.
  set (k := a / 10) in *. set (r := a mod 10) in *.
  pose proof ten_tenths as Hten.
  assert (H55 : 2 ^ 55 = 36028797018963968) by reflexivity.
  assert (H15 : 10 ^ 15 = 1000000000000000) by reflexivity.
  symmetry. apply Z.div_unique with (round53 (a * tenth) - k * 2 ^ 55).
  2: lia. left.
  assert (HN : 0 < a * tenth) by (unfold tenth; lia).
  destruct (Z.le_gt_cases (Z.log2 (a * tenth)) 52) as [Hlog|Hlog].
  - pose proof (log2_small (a * tenth) ltac:(lia) Hlog).
    rewrite round53_small by lia. unfold tenth in *. lia.
  - rewrite round53_large by done.
    destruct (Z.log2_spec (a * tenth) HN) as [Hlo Hhi].
    rewrite (pow2_log2 _ Hlog) in Hlo.
    assert (Hs : Z.log2 (a * tenth) - 52 <= 55).
    { assert (Z.log2 (a * tenth) < 108); [|lia].
      apply Z.log2_lt_pow2; [done|].
      assert (2 ^ 108 = 324518553658426726783156020576256) by reflexivity.
      unfold tenth. lia. }
    pose proof (round_at_lower (Z.log2 (a * tenth) - 52) 55 (a * tenth) k
                  ltac:(lia)) as Hlower.
    pose proof (round_at_error (Z.log2 (a * tenth) - 52) (a * tenth)
                  ltac:(lia)) as Herr.
    assert (H52 : 2 ^ 52 = 4503599627370496) by reflexivity.
    revert Hlo Hlower Herr.
    generalize (2 ^ (Z.log2 (a * tenth) - 52))
               (round_at (Z.log2 (a * tenth) - 52) (a * tenth)).
    intros u R Hlo Hlower Herr. unfold tenth in *. lia.
Qed.

Lemma floor_times_tenth_nonneg a : 0 <= a -> 0 <= floor_times_tenth a.
Proof.
  intros Ha. unfold floor_times_tenth.
  apply Z.div_pos; [|done].
  apply Z.mul_nonneg_nonneg; [by apply Z.sgn_nonneg|].
  apply round53_nonneg. rewrite Z.abs_eq by done. unfold tenth. lia.
Qed.

(** Above that bound the rounding can reach the next integer. *)
Lemma floor_times_tenth_rounds_up :
  floor_times_tenth 6755399441055749 = 675539944105575
  /\ 6755399441055749 / 10 = 675539944105574
  /\ 6755399441055749 < 2 ^ 53.
Proof. by vm_compute. Qed.

End Numbers.

(** * The normalizer *)

Lemma cmatch_plain cs x :
  cmatch {| ignoreCase := false; multiline := false |} cs x = cmember cs x.
Proof. unfold cmatch. simpl. by rewrite orb_false_r. Qed.

Lemma char_re_tests c : tests_char (char_re c) (fun x => x =? c).
Proof.
  intros [|x t]; [done|]. unfold match_here, char_re. simpl.
  by rewrite cmatch_plain.
Qed.

Lemma not_class_tests cs :
  tests_char (re_plain (RNot cs)) (fun x => negb (cmember cs x)).
Proof.
  intros [|x t]; [done|]. unfold match_here. simpl.
  rewrite cmatch_plain. by destruct (cmember cs x).
Qed.

Lemma replace_from_char p f by_ fuel s :
  tests_char p f -> (length s <= fuel)%nat ->
  replace_from p by_ fuel s = flat_map (fun x => if f x then by_ else [x]) s.
Proof.
  intros Hp. revert s.
  induction fuel as [|fuel IH]; intros [|x t] Hlen; simpl in *; try lia; try done.
  - by rewrite Hp.
  - rewrite Hp. destruct (f x).
    + destruct (Nat.ltb_spec (length t) (S (length t))); [|lia].
      f_equal. apply IH. lia.
    + simpl. f_equal. apply IH. lia.
Qed.

Lemma replace_char_map p f b text :
  tests_char p f ->
  str_replace_all text p [b] = map (fun x => if f x then b else x) text.
Proof.
  intros Hp. unfold str_replace_all.
  rewrite (replace_from_char p f) by (done || lia).
  induction text as [|x t IH]; simpl; [done|].
  rewrite IH. by destruct (f x).
Qed.

Lemma replace_char_delete p f text :
  tests_char p f ->
  str_replace_all text p [] = List.filter (fun x => negb (f x)) text.
Proof.
  intros Hp. unfold str_replace_all.
  rewrite (replace_from_char p f) by (done || lia).
  induction text as [|x t IH]; simpl; [done|].
  rewrite IH. by destruct (f x).
Qed.

Lemma drop_while_length f s : (length (drop_while f s) <= length s)%nat.
Proof.
  induction s as [|x t IH]; simpl; [done|]. destruct (f x); simpl; lia.
Qed.

Lemma repeat_opt_greedy_char cs fuel s c :
  (length s <= fuel)%nat ->
  repeat_opt (rmatch {| ignoreCase := false; multiline := false |} (RChar cs))
    true fuel (fun s' c' => Some (s', c')) s c
  = Some (drop_while (cmember cs) s, c).
Proof.
  revert s. induction fuel as [|fuel IH]; intros [|x t] Hlen; simpl in *;
    try lia; try done.
  rewrite cmatch_plain. destruct (cmember cs x); [|done].
  destruct (Nat.ltb_spec (length t) (S (length t))); [|lia].
  rewrite IH by lia. done.
Qed.

Lemma rmatch_quant fl g mn mx r k s c :
  rmatch fl (RQuant g mn mx r) k s c =
    repeat_min (rmatch fl r) mn
      (fun s1 c1 => repeat_opt (rmatch fl r) g (opt_fuel mn mx s1) k s1 c1) s c.
Proof. reflexivity. Qed.

Lemma rmatch_char_cons fl cs k x s c :
  rmatch fl (RChar cs) k (x :: s) c = if cmatch fl cs x then k s c else None.
Proof. reflexivity. Qed.

Lemma whitespace_run_here s :
  match_here whitespace_run_re s =
    match s with
    | x :: t => if is_space x then Some (drop_while is_space t, ∅) else None
    | [] => None
    end.
Proof.
  destruct s as [|x t]; [done|].
  unfold match_here, whitespace_run_re, plus, space, re_plain.
  cbn [re_flags re_body]. rewrite rmatch_quant. cbn [repeat_min opt_fuel].
  rewrite rmatch_char_cons, cmatch_plain. cbn [cmember].
  destruct (is_space x); [|done].
  by rewrite repeat_opt_greedy_char.
Qed.

Lemma replace_ws_cons fuel x t :
  (length t <= fuel)%nat ->
  replace_from whitespace_run_re (js " ") (S fuel) (x :: t) =
    if is_space x
    then code_sp :: replace_from whitespace_run_re (js " ") fuel
                      (drop_while is_space t)
    else x :: replace_from whitespace_run_re (js " ") fuel t.
Proof.
  intros Hlen. simpl. rewrite whitespace_run_here.
  destruct (is_space x); [|done].
  pose proof (drop_while_length is_space t).
  destruct (Nat.ltb_spec (length (drop_while is_space t)) (S (length t))); [done|lia].
Qed.

Lemma starts_space_drop_while t : starts_space (drop_while is_space t) = false.
Proof.
  induction t as [|x t IH]; simpl; [done|].
  destruct (is_space x) eqn:Hx; [done|]. simpl. done.
Qed.

Lemma drop_while_no_space t :
  starts_space t = false -> drop_while is_space t = t.
Proof. destruct t as [|x t]; simpl; [done|]. by intros ->. Qed.

Lemma replace_ws_tidy fuel s :
  (length s <= fuel)%nat ->
  tidy (replace_from whitespace_run_re (js " ") fuel s) = true
  /\ starts_space (replace_from whitespace_run_re (js " ") fuel s)
     = starts_space s.
Proof.
  revert s. induction fuel as [|fuel IH]; intros [|x t] Hlen;
    try (simpl in Hlen; lia); try done.
  rewrite replace_ws_cons by (simpl in Hlen; lia).
  destruct (is_space x) eqn:Hx.
  - pose proof (drop_while_length is_space t).
    destruct (IH (drop_while is_space t)) as [Ht Hs]; [simpl in Hlen; lia|].
    cbn [tidy starts_space]. rewrite Hs, starts_space_drop_while, Ht, Hx.
    done.
  - destruct (IH t) as [Ht Hs]; [simpl in Hlen; lia|].
    cbn [tidy starts_space]. by rewrite Hx, Ht.
Qed.

Lemma replace_ws_fixed fuel s :
  (length s <= fuel)%nat -> tidy s = true ->
  replace_from whitespace_run_re (js " ") fuel s = s.
Proof.
  revert s. induction fuel as [|fuel IH]; intros [|x t] Hlen;
    try (simpl in Hlen; lia); try done.
  intros Ht. rewrite replace_ws_cons by (simpl in Hlen; lia).
  cbn [tidy] in Ht. apply andb_true_iff in Ht as [Hx Ht].
  destruct (is_space x).
  - apply andb_true_iff in Hx as [Hx Hs].
    apply N.eqb_eq in Hx as ->. apply negb_true_iff in Hs.
    rewrite drop_while_no_space by done.
    f_equal. apply IH; [simpl in Hlen; lia|done].
  - f_equal. apply IH; [simpl in Hlen; lia|done].
Qed.

Lemma folds_map pairs t :
  foldl (fun t '(from, to) => str_replace_all t (char_re from) [to]) t pairs
  = map (fun x => foldl (fun y '(from, to) => if y =? from then to else y)
                    x pairs) t.
Proof.
  revert t. induction pairs as [|[a b] pairs IH]; intros t; simpl.
  - by rewrite map_id.
  - rewrite IH, (replace_char_map _ _ _ _ (char_re_tests a)).
    by rewrite map_map.
Qed.

Lemma fullwidth_folds_codes :
  fullwidth_folds =
    [ (65296, 48); (65297, 49); (65298, 50); (65299, 51); (65300, 52);
      (65301, 53); (65302, 54); (65303, 55); (65304, 56); (65305, 57);
      (65292, 44); (65294, 46) ].
Proof. vm_compute. reflexivity. Qed.

Lemma fold_fullwidth_spec x :
  fold_fullwidth x =
    if (65296 <=? x) && (x <=? 65305) then x - 65248
    else if x =? 65292 then 44
    else if x =? 65294 then 46
    else x.
Proof.
  unfold fold_fullwidth. rewrite fullwidth_folds_codes.
  unfold foldl.
  repeat match goal with
         | |- context [x =? ?a] =>
             destruct (N.eqb_spec x a) as [->|?]; [vm_compute; reflexivity|]
         end.
  destruct (N.leb_spec 65296 x), (N.leb_spec x 65305); simpl; try done; lia.
Qed.

Lemma is_space_iff x :
  is_space x = true <->
  (9 <= x <= 13) \/ x = 32 \/ x = 160 \/ x = 5760 \/ (8192 <= x <= 8202)
  \/ x = 8232 \/ x = 8233 \/ x = 8239 \/ x = 8287 \/ x = 12288 \/ x = 65279.
Proof.
  unfold is_space.
  rewrite !orb_true_iff, !andb_true_iff, !N.leb_le, !N.eqb_eq. tauto.
Qed.

Lemma fold_fullwidth_space x : is_space x = true -> fold_fullwidth x = x.
Proof.
  rewrite is_space_iff, fold_fullwidth_spec. intros Hx.
  destruct (N.leb_spec 65296 x), (N.leb_spec x 65305); simpl; try lia;
    destruct (N.eqb_spec x 65292); try lia;
    destruct (N.eqb_spec x 65294); try lia; done.
Qed.

Lemma fold_fullwidth_is_space x : is_space (fold_fullwidth x) = is_space x.
Proof.
  destruct (is_space x) eqn:Hx.
  - by rewrite fold_fullwidth_space.
  - apply not_true_iff_false. apply not_true_iff_false in Hx.
    rewrite is_space_iff in *. rewrite fold_fullwidth_spec.
    destruct (N.leb_spec 65296 x), (N.leb_spec x 65305); simpl; try lia;
      destruct (N.eqb_spec x 65292); try lia;
      destruct (N.eqb_spec x 65294); try lia; done.
Qed.

Lemma fold_fullwidth_idem x : fold_fullwidth (fold_fullwidth x) = fold_fullwidth x.
Proof.
  rewrite (fold_fullwidth_spec (fold_fullwidth x)), fold_fullwidth_spec.
  destruct (N.leb_spec 65296 x), (N.leb_spec x 65305); simpl;
    repeat match goal with
           | |- context [N.leb ?a ?b] => destruct (N.leb_spec a b); simpl
           | |- context [N.eqb ?a ?b] => destruct (N.eqb_spec a b); simpl
           end; try lia; done.
Qed.

Lemma starts_space_map_fold s :
  starts_space (map fold_fullwidth s) = starts_space s.
Proof. destruct s as [|x t]; simpl; [done|apply fold_fullwidth_is_space]. Qed.

Lemma tidy_map_fold s : tidy (map fold_fullwidth s) = tidy s.
Proof.
  induction s as [|x t IH]; [done|].
  cbn [map tidy]. rewrite IH, starts_space_map_fold, fold_fullwidth_is_space.
  destruct (is_space x) eqn:Hx; [|done].
  by rewrite fold_fullwidth_space.
Qed.

Lemma tidy_no_newline s : tidy s = true -> Forall (fun x => x <> code_nl) s.
Proof.
  induction s as [|x t IH]; [constructor|].
  cbn [tidy]. intros H. apply andb_true_iff in H as [Hx Ht].
  constructor; [|by apply IH].
  intros ->. vm_compute in Hx. done.
Qed.

Lemma blank_lines_here x t :
  x <> code_nl -> match_here blank_lines_re (x :: t) = None.
Proof.
  intros Hx. unfold match_here, blank_lines_re, re_plain, seq.
  cbn [re_flags re_body foldr]. cbn [rmatch].
  rewrite cmatch_plain. cbn [cmember].
  by destruct (N.eqb_spec x code_nl).
Qed.

Lemma blank_lines_here_nil : match_here blank_lines_re [] = None.
Proof. reflexivity. Qed.

Lemma replace_blank_lines_fixed fuel s :
  (length s <= fuel)%nat -> Forall (fun x => x <> code_nl) s ->
  replace_from blank_lines_re [code_nl] fuel s = s.
Proof.
  revert s. induction fuel as [|fuel IH]; intros [|x t] Hlen Hs;
    try (simpl in Hlen; lia); try done.
  apply Forall_cons in Hs as [Hx Ht].
  cbn [replace_from]. rewrite blank_lines_here by done.
  f_equal. apply IH; [simpl in Hlen; lia|done].
Qed.

(** The normalizer is the collapse of the white-space runs followed by
    the folding of the full-width characters; its last replacement finds
    nothing to do. *)
Lemma postprocessText_eq text :
  postprocessText text =
    map fold_fullwidth (str_replace_all text whitespace_run_re (js " ")).
Proof.
  unfold postprocessText. rewrite folds_map.
  fold fold_fullwidth.
  change (fun x => foldl _ x fullwidth_folds) with fold_fullwidth.
  unfold str_replace_all at 1.
  apply replace_blank_lines_fixed; [lia|].
  apply tidy_no_newline. rewrite tidy_map_fold.
  apply replace_ws_tidy. unfold str_replace_all. lia.
Qed.

Lemma postprocessText_tidy text : tidy (postprocessText text) = true.
Proof.
  rewrite postprocessText_eq, tidy_map_fold.
  apply replace_ws_tidy. lia.
Qed.

(** C9: normalizing a normalized text changes nothing. *)
Theorem postprocessText_idempotent (x : jsstring) :
  postprocessText (postprocessText x) = postprocessText x.
Proof.
  pose proof (postprocessText_tidy x) as Ht.
  rewrite (postprocessText_eq (postprocessText x)).
  unfold str_replace_all. rewrite replace_ws_fixed by (lia || done).
  rewrite postprocessText_eq, map_map.
  apply map_ext. intros a. apply fold_fullwidth_idem.
Qed.

Lemma postprocessText_no_newline text : code_nl ∉ postprocessText text.
Proof.
  pose proof (tidy_no_newline _ (postprocessText_tidy text)) as H.
  rewrite Forall_forall in H. intros Hin. by apply (H code_nl).
Qed.

(** C2: the normalizer does not keep the line boundaries.  Its first
    replacement turns every run of white space, newlines included, into
    one space: a text of two item lines comes out as a single line, and
    the line-item parser, which splits on newlines, then finds one item
    where the raw text has two. *)
Theorem newlines_collapsed :
  length (split_lines two_item_lines) = 2%nat
  /\ postprocessText two_item_lines = js "りんご 2 ¥100 ¥200 みかん 3 ¥50 ¥150"
  /\ length (split_lines (postprocessText two_item_lines)) = 1%nat
  /\ extractItems two_item_lines = Ok [apple_item; orange_item]
  /\ extractItems (postprocessText two_item_lines) = Ok [apple_item].
Proof. repeat split; vm_compute; reflexivity. Qed.

(** * The pattern field extractor *)

Lemma extract_loop_first_hit text prompt ps :
  extract_loop text prompt ps =
    match first_hit text ps with
    | Some v => apply_processor prompt (trim v)
    | None => run_fallback prompt text
    end.
Proof.
  induction ps as [|p ps IH]; simpl; [done|].
  destruct (first_capture text p); [done|apply IH].
Qed.

Lemma first_hit_split text ps v :
  first_hit text ps = Some v <->
  exists l1 p l2, ps = l1 ++ p :: l2
    /\ Forall (fun q => first_capture text q = None) l1
    /\ first_capture text p = Some v.
Proof.
  induction ps as [|q ps IH]; simpl.
  - split; [done|]. intros (l1 & p & l2 & Heq & _). by destruct l1.
  - destruct (first_capture text q) as [w|] eqn:Hq.
    + split.
      * intros [= ->]. exists [], q, ps. by repeat split.
      * intros (l1 & p & l2 & Heq & Hl1 & Hp).
        destruct l1 as [|q' l1]; injection Heq as E1 E2; subst; [congruence|].
        apply Forall_cons in Hl1 as [Hq' _]. congruence.
    + rewrite IH. split.
      * intros (l1 & p & l2 & -> & Hl1 & Hp).
        exists (q :: l1), p, l2. repeat split; [|done]. by constructor.
      * intros (l1 & p & l2 & Heq & Hl1 & Hp).
        destruct l1 as [|q' l1]; injection Heq as E1 E2; subst; [congruence|].
        apply Forall_cons in Hl1 as [_ Hl1]. by exists l1, p, l2.
Qed.

Lemma first_hit_none text ps :
  first_hit text ps = None <->
  Forall (fun q => first_capture text q = None) ps.
Proof.
  induction ps as [|q ps IH]; simpl; [by split; [constructor|]|].
  destruct (first_capture text q) as [w|] eqn:Hq.
  - split; [done|]. intros H. apply Forall_cons in H as [H _]. congruence.
  - rewrite IH. split; [by constructor|]. intros H.
    by apply Forall_cons in H as [_ H].
Qed.

Lemma date_processor_total rt v : exists x, date_processor rt v = Ok x.
Proof.
  unfold date_processor.
  set (parts := List.filter _ _).
  destruct parts as [|a [|b [|c parts]]]; simpl; eauto.
Qed.

Lemma table_processor_total rt prompt proc v :
  prompt ∈ japaneseReceiptPrompts rt -> processor prompt = Some proc ->
  exists x, proc v = Ok x.
Proof.
  unfold japaneseReceiptPrompts. rewrite !elem_of_cons, elem_of_nil.
  intros [->|[->|[->|[->|[->|[]]]]]]; simpl; intros [= <-]; eauto.
  apply date_processor_total.
Qed.


(** ** The groups of a match *)

Lemma str_match_defined text p m i :
  defines i (re_body p) = true -> str_match text p = Some m ->
  is_Some (match_groups m !! i).
Proof.
  intros Hd Hm. apply str_match_sound in Hm as (s & rest & _ & Hspan & _).
  by eapply span_defines.
Qed.

Lemma str_match_groups_in text p m i bodies (P : jsstring -> Prop) :
  groups_in i bodies (re_body p) = true ->
  (forall b, b ∈ bodies ->
     forall s c s' c', span (re_flags p) b s c s' c' -> P (consumed s s')) ->
  str_match text p = Some m ->
  forall v, match_groups m !! i = Some v -> P v.
Proof.
  intros Hg Hb Hm. apply str_match_sound in Hm as (s & rest & _ & Hspan & _).
  eapply span_groups_in; [done|done|done|].
  intros v. by rewrite lookup_empty.
Qed.

Lemma number_body_consumed fl b :
  b ∈ [number_body] ->
  forall s c s' c', span fl b s c s' c' -> number_shaped (consumed s s') = true.
Proof.
  intros ->%list_elem_of_singleton s c s' c' H.
  apply span_number_body in H as (_ & w & -> & Hw). by rewrite consumed_app.
Qed.

Lemma numeric_patterns_checked :
  forallb (fun p => defines 1 (re_body p)
                    && groups_in 1 [number_body] (re_body p)
                    && requires_number (re_body p)) numeric_patterns = true.
Proof. vm_compute. reflexivity. Qed.

Lemma numeric_pattern_props p :
  p ∈ numeric_patterns ->
  defines 1 (re_body p) = true
  /\ groups_in 1 [number_body] (re_body p) = true
  /\ requires_number (re_body p) = true.
Proof.
  intros Hp. pose proof numeric_patterns_checked as H.
  rewrite forallb_forall in H. apply list_elem_of_In, H in Hp.
  rewrite !andb_true_iff in Hp. by destruct Hp as [[? ?] ?].
Qed.

(** What a numeric pattern captures is a digit followed by at least one
    digit or comma. *)
Lemma numeric_capture text p m :
  p ∈ numeric_patterns -> str_match text p = Some m ->
  exists v, match_get m 1 = Some v /\ number_shaped v = true.
Proof.
  intros Hp Hm. apply numeric_pattern_props in Hp as (Hd & Hg & _).
  destruct (str_match_defined _ _ _ _ Hd Hm) as [v Hv].
  exists v. split; [done|].
  eapply (str_match_groups_in text p m 1 [number_body]
            (fun v => number_shaped v = true)); eauto.
  apply number_body_consumed.
Qed.

Lemma itemPattern_checked :
  defines 1 (re_body itemPattern) && defines 2 (re_body itemPattern)
  && defines 3 (re_body itemPattern) && defines 4 (re_body itemPattern)
  && groups_in 3 [number_body] (re_body itemPattern)
  && groups_in 4 [number_body] (re_body itemPattern)
  && requires_number (re_body itemPattern) = true.
Proof. vm_compute. reflexivity. Qed.

Lemma item_captures line m :
  str_match line itemPattern = Some m ->
  exists m1 m2 m3 m4,
    match_get m 1 = Some m1 /\ match_get m 2 = Some m2
    /\ match_get m 3 = Some m3 /\ match_get m 4 = Some m4
    /\ number_shaped m3 = true /\ number_shaped m4 = true.
Proof.
  intros Hm. pose proof itemPattern_checked as H.
  rewrite !andb_true_iff in H.
  destruct H as ((((((H1 & H2) & H3) & H4) & G3) & G4) & _).
  destruct (str_match_defined _ _ _ _ H1 Hm) as [m1 E1].
  destruct (str_match_defined _ _ _ _ H2 Hm) as [m2 E2].
  destruct (str_match_defined _ _ _ _ H3 Hm) as [m3 E3].
  destruct (str_match_defined _ _ _ _ H4 Hm) as [m4 E4].
  exists m1, m2, m3, m4. repeat split; try done.
  - eapply (str_match_groups_in line itemPattern m 3 [number_body]
              (fun v => number_shaped v = true)); eauto.
    apply number_body_consumed.
  - eapply (str_match_groups_in line itemPattern m 4 [number_body]
              (fun v => number_shaped v = true)); eauto.
    apply number_body_consumed.
Qed.

(** * The assembler *)

Lemma extractItem_total line : exists o, extractItem line = Ok o.
Proof.
  unfold extractItem. destruct (str_match line itemPattern) as [m|] eqn:Hm.
  - apply item_captures in Hm as (m1 & m2 & m3 & m4 & -> & _ & -> & -> & _).
    simpl. eauto.
  - eauto.
Qed.

Lemma extractItems_lines_total lines :
  exists its, extractItems_lines lines = Ok its.
Proof.
  induction lines as [|line rest [its IH]]; simpl; [by eauto|].
  destruct (extractItem_total line) as [o ->]. simpl. rewrite IH. simpl. eauto.
Qed.

Lemma extractItems_total text : exists its, extractItems text = Ok its.
Proof. apply extractItems_lines_total. Qed.

Lemma storeName_fallback_string text :
  exists s, storeName_fallback text = Ok (VStr s).
Proof.
  unfold storeName_fallback. set (lines := List.filter _ _).
  destruct lines as [|l0 lines]; simpl; eauto.
Qed.

Lemma storeName_field_string text :
  exists s, extractFieldWithPrompt text storeName_prompt = Ok (VStr s).
Proof.
  unfold extractFieldWithPrompt. rewrite extract_loop_first_hit.
  destruct (first_hit text (patterns storeName_prompt)) as [v|].
  - simpl. eauto.
  - apply storeName_fallback_string.
Qed.

Lemma amount_fallback_total text : exists v, amount_fallback text = Ok v.
Proof.
  unfold amount_fallback.
  destruct (str_match_all text currency_token_re) as [[|v0 vs]|]; eauto.
Qed.

Lemma table_field_total rt text prompt :
  prompt ∈ japaneseReceiptPrompts rt ->
  exists v, extractFieldWithPrompt text prompt = Ok v.
Proof.
  intros Hin. unfold extractFieldWithPrompt. rewrite extract_loop_first_hit.
  destruct (first_hit text (patterns prompt)) as [v|].
  - unfold apply_processor.
    destruct (processor prompt) as [proc|] eqn:Hproc; [|by eauto].
    by eapply table_processor_total.
  - revert Hin. unfold japaneseReceiptPrompts.
    rewrite !elem_of_cons, elem_of_nil.
    intros [->|[->|[->|[->|[->|[]]]]]]; unfold run_fallback; simpl; eauto.
    + destruct (storeName_fallback_string text) as [s ->]. eauto.
    + apply amount_fallback_total.
Qed.

Lemma extract_all_table rt text vs vd va vt vp :
  extractFieldWithPrompt text storeName_prompt = Ok vs ->
  extractFieldWithPrompt text (date_prompt rt) = Ok vd ->
  extractFieldWithPrompt text amount_prompt = Ok va ->
  extractFieldWithPrompt text taxAmount_prompt = Ok vt ->
  extractFieldWithPrompt text paymentMethod_prompt = Ok vp ->
  extract_all text (japaneseReceiptPrompts rt) ∅ = Ok (fields_of vs vd va vt vp).
Proof.
  intros Hs Hd Ha Ht Hp. unfold japaneseReceiptPrompts. cbn [extract_all].
  rewrite Hs, Hd, Ha, Ht, Hp. reflexivity.
Qed.

Lemma fields_of_lookup vs vd va vt vp :
  field (fields_of vs vd va vt vp) "storeName" = vs
  /\ field (fields_of vs vd va vt vp) "date" = vd
  /\ field (fields_of vs vd va vt vp) "amount" = va
  /\ field (fields_of vs vd va vt vp) "taxAmount" = vt
  /\ field (fields_of vs vd va vt vp) "paymentMethod" = vp.
Proof.
  unfold field, fields_of.
  repeat split;
    repeat first [ rewrite lookup_insert_eq; reflexivity
                 | rewrite lookup_insert_ne by key_ne ].
Qed.


Lemma js_or_str_empty s : js_or (VStr s) (VStr []) = VStr s.
Proof.
  unfold js_or. simpl. destruct (bool_decide_reflect (s = [])) as [->|]; done.
Qed.

Lemma rbind_ok {A B} (a : A) (k : A -> result B) : (x ← Ok a; k x) = k a.
Proof. reflexivity. Qed.

Lemma parseReceiptText_unfold rt text path s vd va vt vp its :
    extractFieldWithPrompt (postprocessText text) storeName_prompt = Ok (VStr s)
    -> extractFieldWithPrompt (postprocessText text) (date_prompt rt) = Ok vd
    -> extractFieldWithPrompt (postprocessText text) amount_prompt = Ok va
    -> extractFieldWithPrompt (postprocessText text) taxAmount_prompt = Ok vt
    -> extractFieldWithPrompt (postprocessText text) paymentMethod_prompt = Ok vp
    -> extractItems (postprocessText text) = Ok its
    -> parseReceiptText rt text path =
         Ok {| id := basename_noext rt path;
               storeName := js_or (VStr s) (VStr unknown_store);
               date := js_or vd (VStr unknown_date);
               amount := js_or va (VNum 0);
               items := its;
               taxAmount := vt;
               paymentMethod := vp;
               rawText := postprocessText text;
               category := VStr (categorizeStore rt s) |}.
Proof.
  intros Hs Hd Ha Ht Hp Hits.
  unfold parseReceiptText.
  rewrite (extract_all_table rt _ _ _ _ _ _ Hs Hd Ha Ht Hp).
  rewrite rbind_ok, Hits, rbind_ok.
  destruct (fields_of_lookup (VStr s) vd va vt vp) as (E1 & E2 & E3 & E4 & E5).
  rewrite E1, E2, E3, E4, E5.
  rewrite js_or_str_empty. reflexivity.
Qed.

(** The receipt the assembler builds: it always builds one. *)
Lemma parseReceiptText_fields rt text path :
  exists s vd va vt vp its,
    extractFieldWithPrompt (postprocessText text) storeName_prompt = Ok (VStr s)
    /\ extractFieldWithPrompt (postprocessText text) (date_prompt rt) = Ok vd
    /\ extractFieldWithPrompt (postprocessText text) amount_prompt = Ok va
    /\ extractFieldWithPrompt (postprocessText text) taxAmount_prompt = Ok vt
    /\ extractFieldWithPrompt (postprocessText text) paymentMethod_prompt = Ok vp
    /\ extractItems (postprocessText text) = Ok its
    /\ parseReceiptText rt text path =
         Ok {| id := basename_noext rt path;
               storeName := js_or (VStr s) (VStr unknown_store);
               date := js_or vd (VStr unknown_date);
               amount := js_or va (VNum 0);
               items := its;
               taxAmount := vt;
               paymentMethod := vp;
               rawText := postprocessText text;
               category := VStr (categorizeStore rt s) |}.
Proof.
  destruct (storeName_field_string (postprocessText text)) as [s Hs].
  destruct (table_field_total rt (postprocessText text) (date_prompt rt))
    as [vd Hd]; [unfold japaneseReceiptPrompts; set_solver|].
  destruct (table_field_total rt (postprocessText text) amount_prompt)
    as [va Ha]; [unfold japaneseReceiptPrompts; set_solver|].
  destruct (table_field_total rt (postprocessText text) taxAmount_prompt)
    as [vt Ht]; [unfold japaneseReceiptPrompts; set_solver|].
  destruct (table_field_total rt (postprocessText text) paymentMethod_prompt)
    as [vp Hp]; [unfold japaneseReceiptPrompts; set_solver|].
  destruct (extractItems_total (postprocessText text)) as [its Hits].
  exists s, vd, va, vt, vp, its. repeat (split; [done|]).
  by apply parseReceiptText_unfold.
Qed.

(** ** The date field *)

Lemma span_digits fl g mn mx s c s' c' :
  (0 < mn)%nat ->
  span fl (RQuant g mn mx digit) s c s' c' ->
  all_digits (consumed s s') = true.
Proof.
  intros Hmn (n & Hn & Hit). apply iter_char in Hit as (_ & w & -> & Hlen & Hw).
  rewrite consumed_app. destruct w as [|x t]; [simpl in Hlen; lia|].
  unfold all_digits. apply forallb_forall. intros y Hy.
  rewrite Forall_forall in Hw. apply (cmatch_digit fl), Hw.
  by apply list_elem_of_In.
Qed.

Lemma date_bodies_digits fl b :
  b ∈ date_group_bodies ->
  forall s c s' c', span fl b s c s' c' -> all_digits (consumed s s') = true.
Proof.
  unfold date_group_bodies. rewrite !elem_of_cons, elem_of_nil.
  intros [->|[->|[->|[]]]] s c s' c'; apply span_digits; lia.
Qed.

Lemma date_patterns_checked :
  forallb (fun p => groups_in 1 date_group_bodies (re_body p)) date_patterns
  = true.
Proof. vm_compute. reflexivity. Qed.

Lemma date_capture_digits text p v :
  p ∈ date_patterns -> first_capture text p = Some v -> all_digits v = true.
Proof.
  intros Hp. unfold first_capture.
  destruct (str_match text p) as [m|] eqn:Hm; [|done].
  simpl. destruct (match_groups m !! 1%nat) as [w|] eqn:Hw; [|done].
  destruct (bool_decide (w = [])); [done|]. intros [= <-].
  pose proof date_patterns_checked as H. rewrite forallb_forall in H.
  apply list_elem_of_In, H in Hp.
  eapply (str_match_groups_in text p m 1 date_group_bodies
            (fun v => all_digits v = true)); eauto.
  apply date_bodies_digits.
Qed.

Lemma first_hit_elem text ps v :
  first_hit text ps = Some v ->
  exists p, p ∈ ps /\ first_capture text p = Some v.
Proof.
  intros H. apply first_hit_split in H as (l1 & p & l2 & -> & _ & Hp).
  exists p. split; [|done]. set_solver.
Qed.

Lemma digit_not_space x : is_digit x = true -> is_space x = false.
Proof.
  unfold is_digit. rewrite andb_true_iff, !N.leb_le. intros Hx.
  apply not_true_iff_false. rewrite is_space_iff. lia.
Qed.

Lemma date_separators_codes :
  date_separators =
    CUnion (CUnion (CUnion (CUnion (CUnion (CChar 24180) (CChar 26376))
                              (CChar 26085)) (CChar 47)) (CChar 46))
      (CChar 45).
Proof. vm_compute. reflexivity. Qed.

Lemma digit_not_separator x :
  is_digit x = true -> cmember date_separators x = false.
Proof.
  unfold is_digit. rewrite andb_true_iff, !N.leb_le. intros Hx.
  rewrite date_separators_codes. cbn [cmember].
  apply not_true_iff_false. rewrite !orb_true_iff, !N.eqb_eq. lia.
Qed.

Lemma split_by_none sep s :
  forallb (fun x => negb (sep x)) s = true -> split_by sep s = [s].
Proof.
  induction s as [|x t IH]; [done|]. cbn [forallb split_by].
  rewrite andb_true_iff, negb_true_iff. intros [-> Ht]. by rewrite IH.
Qed.

Lemma drop_while_head f x t : f x = false -> drop_while f (x :: t) = x :: t.
Proof. simpl. by intros ->. Qed.

Lemma trim_no_space s :
  forallb (fun x => negb (is_space x)) s = true -> trim s = s.
Proof.
  intros Hs. unfold trim.
  assert (Hdw : forall l, forallb (fun x => negb (is_space x)) l = true ->
                          drop_while is_space l = l).
  { intros [|x t]; [done|]. cbn [forallb].
    rewrite andb_true_iff, negb_true_iff. intros [Hx _].
    by apply drop_while_head. }
  rewrite (Hdw s Hs), Hdw, reverse_involutive; [done|].
  rewrite forallb_forall in *. intros x Hx. apply Hs.
  apply list_elem_of_In. apply list_elem_of_In in Hx.
  by rewrite elem_of_reverse in Hx.
Qed.

Lemma all_digits_forall v :
  all_digits v = true -> v <> [] /\ forallb is_digit v = true.
Proof. destruct v; [done|]. intros H. split; [done|exact H]. Qed.

Lemma forallb_impl (f g : N -> bool) l :
  (forall x, f x = true -> g x = true) ->
  forallb f l = true -> forallb g l = true.
Proof. rewrite !forallb_forall. eauto. Qed.

(** The date processor is handed the first group alone, a run of digits
    without a separator, and so never finds the two or three parts it
    looks for. *)
Lemma date_processor_digits rt v :
  all_digits v = true -> date_processor rt (trim v) = Ok VNull.
Proof.
  intros Hv. apply all_digits_forall in Hv as [Hne Hv].
  assert (Hsp : forallb (fun x => negb (is_space x)) v = true).
  { eapply (forallb_impl is_digit); [|exact Hv].
    intros x Hx. by rewrite digit_not_space. }
  rewrite trim_no_space by done.
  unfold date_processor. rewrite split_by_none.
  - cbn [List.filter]. rewrite trim_no_space by done.
    destruct v as [|x t]; [done|]. reflexivity.
  - eapply (forallb_impl is_digit); [|exact Hv].
    intros x Hx. by rewrite digit_not_separator.
Qed.

Lemma date_field_absent rt text :
  extractFieldWithPrompt text (date_prompt rt) = Ok VNull
  \/ extractFieldWithPrompt text (date_prompt rt) = Ok VUndefined.
Proof.
  unfold extractFieldWithPrompt. rewrite extract_loop_first_hit.
  destruct (first_hit text (patterns (date_prompt rt))) as [v|] eqn:Hhit.
  - left. apply first_hit_elem in Hhit as (p & Hp & Hv).
    unfold apply_processor. simpl. apply date_processor_digits.
    by eapply date_capture_digits.
  - by right.
Qed.

(** Whatever the text, the assembled date is the sentinel. *)
Lemma date_never_recognised rt text path r :
  parseReceiptText rt text path = Ok r -> date r = VStr unknown_date.
Proof.
  destruct (parseReceiptText_fields rt text path)
    as (s & vd & va & vt & vp & its & _ & Hd & _ & _ & _ & _ & ->).
  intros [= <-]. simpl.
  destruct (date_field_absent rt (postprocessText text)) as [H|H];
    rewrite H in Hd; injection Hd as <-; reflexivity.
Qed.

(** ** The amount field is a number *)


Lemma math_max_cons v rest :
  math_max (v :: rest) =
    match v, math_max rest with
    | VNum a, VNum b => VNum (number_max a b)
    | _, _ => VNaN
    end.
Proof. reflexivity. Qed.





(** * The claims about the extractor *)

(** C5, amended: the rules are tried in list order and the first one that
    matches with a non-empty first capture decides the result, its capture
    trimmed and passed through the processor if there is one; the rules
    after it have no say.  A rule whose pattern matches with an empty
    first capture is passed over. *)
Theorem first_hit_rule_decides text prompt l1 p l2 v :
  patterns prompt = l1 ++ p :: l2 ->
  Forall (fun q => first_capture text q = None) l1 ->
  first_capture text p = Some v ->
  extractFieldWithPrompt text prompt = apply_processor prompt (trim v).
Proof.
  intros Hps Hl1 Hp. unfold extractFieldWithPrompt.
  rewrite extract_loop_first_hit.
  assert (first_hit text (patterns prompt) = Some v) as ->; [|done].
  apply first_hit_split. by exists l1, p, l2.
Qed.

(** Both the total and the subtotal rule match; the total rule is first
    in the table. *)
Lemma first_hit_rule_decides_witness :
  extractFieldWithPrompt (js "小計 1,000 合計 1,200") amount_prompt
  = Ok (VNum 1200).
Proof.
  apply (first_hit_rule_decides (js "小計 1,000 合計 1,200") amount_prompt []
           (re_i (seq [lit "合計"; star (RChar (one_of "金額")); label_gap;
                       yen_opt; number_group 1]))
           (tail amount_patterns) (js "1,200")).
  - reflexivity.
  - constructor.
  - vm_compute. reflexivity.
Defined.

(** The claim of C5 as it is worded fails: the fourth store-name rule
    matches with an empty capture, the specification's extractor would
    answer with it, and the program answers with the fifth rule. *)
Lemma later_rule_counterexample :
  spec_extractField (js "屋号:A 商号名称 B") storeName_prompt = Ok (VStr [])
  /\ extractFieldWithPrompt (js "屋号:A 商号名称 B") storeName_prompt
     = Ok (VStr (js "A")).
Proof. split; vm_compute; reflexivity. Qed.

(** C4, amended: for every field of the table and every text, when a
    rule matches with a non-empty first capture the result is what the
    processor makes of the trimmed capture, an absent value included;
    no exception is thrown, and the fallback has no part in it, whatever
    it is.  The fallback decides exactly when no rule matches with a
    non-empty first capture, which includes rules whose pattern matches
    with an empty one. *)
Theorem fallback_only_without_hit rt text prompt :
  prompt ∈ japaneseReceiptPrompts rt ->
  match first_hit text (patterns prompt) with
  | Some v =>
      exists x, apply_processor prompt (trim v) = Ok x
        /\ forall fb, extractFieldWithPrompt text (with_fallback fb prompt) = Ok x
  | None => extractFieldWithPrompt text prompt = run_fallback prompt text
  end.
Proof.
  intros Hin. unfold extractFieldWithPrompt.
  destruct (first_hit text (patterns prompt)) as [v|] eqn:Hhit.
  - assert (exists x, apply_processor prompt (trim v) = Ok x) as [x Hx].
    { unfold apply_processor.
      destruct (processor prompt) as [proc|] eqn:Hproc; [|by eauto].
      by eapply table_processor_total. }
    exists x. split; [done|]. intros fb.
    rewrite extract_loop_first_hit. simpl. by rewrite Hhit.
  - rewrite extract_loop_first_hit. by rewrite Hhit.
Qed.

(** The date rule matches, its processor yields [null], and that is the
    result, with or without a fallback. *)
Lemma fallback_only_without_hit_witness :
  exists x, apply_processor (date_prompt sample_runtime) (trim (js "2024")) = Ok x
    /\ forall fb,
         extractFieldWithPrompt (js "日付：2024/03/05")
           (with_fallback fb (date_prompt sample_runtime)) = Ok x.
Proof.
  assert (Hin : date_prompt sample_runtime ∈ japaneseReceiptPrompts sample_runtime).
  { unfold japaneseReceiptPrompts. set_solver. }
  exact (fallback_only_without_hit sample_runtime (js "日付：2024/03/05")
           (date_prompt sample_runtime) Hin).
Defined.

(** The claim of C4 as it is worded fails: the fifth store-name pattern
    matches the text, with an empty capture, and the field is what the
    fallback returns. *)
Lemma fallback_after_match_counterexample :
  (exists p m, storeName_patterns !! 4%nat = Some p
     /\ str_match (js "屋号: ABC") p = Some m /\ match_get m 1 = Some [])
  /\ storeName_fallback (js "屋号: ABC") = Ok (VStr (js "屋号: ABC"))
  /\ extractFieldWithPrompt (js "屋号: ABC") storeName_prompt
     = Ok (VStr (js "屋号: ABC")).
Proof.
  split; [|split; vm_compute; reflexivity].
  eexists _, _. split; [reflexivity|]. split; vm_compute; reflexivity.
Qed.

(** * The claims about the assembler *)



(** C1: on the scenario of the specification the total, the tax and the
    payment method are read, and the date is not: the date processor
    receives the year alone and the field falls to the sentinel. *)
Theorem scenario_date_unknown rt (path : jsstring) :
  exists r,
    parseReceiptText rt scenario_text path = Ok r
    /\ date r = VStr (js "日付不明")
    /\ amount r = VNum 3300
    /\ taxAmount r = VNum 300
    /\ paymentMethod r = VStr (js "法：クレジット").
Proof.
  destruct (parseReceiptText_fields rt scenario_text path)
    as (s & vd & va & vt & vp & its & _ & _ & Ha & Ht & Hp & _ & Hr).
  eexists. split; [exact Hr|]. split; [by eapply date_never_recognised|].
  cbn [amount taxAmount paymentMethod].
  vm_compute in Ha. vm_compute in Ht. vm_compute in Hp.
  injection Ha as <-. injection Ht as <-. injection Hp as <-.
  repeat split; vm_compute; reflexivity.
Qed.

(** * Numbers of a single character *)

Lemma first_capture_no_match text p :
  str_match text p = None -> first_capture text p = None.
Proof. unfold first_capture. by intros ->. Qed.

Lemma numeric_patterns_no_number text :
  has_number text = false ->
  Forall (fun p => str_match text p = None) numeric_patterns.
Proof.
  intros Hno. apply Forall_forall. intros p Hp.
  apply numeric_pattern_props in Hp as (_ & _ & Hreq).
  by apply str_match_no_number.
Qed.

Lemma first_hit_no_match text ps :
  Forall (fun p => str_match text p = None) ps -> first_hit text ps = None.
Proof.
  intros H. apply first_hit_none. eapply Forall_impl; [done|].
  intros p. apply first_capture_no_match.
Qed.

Lemma str_match_all_no_number text :
  has_number text = false -> str_match_all text currency_token_re = None.
Proof.
  intros Hno. unfold str_match_all. cbn [match_all_from].
  by rewrite search_from_no_number.
Qed.

Lemma no_newline_one_line t :
  code_nl ∉ t -> split_lines t = [t].
Proof.
  intros Hnl. apply split_by_none. apply forallb_forall. intros x Hx.
  apply negb_true_iff. apply N.eqb_neq. intros ->.
  by apply Hnl, list_elem_of_In.
Qed.

Lemma extractItems_no_number text :
  has_number (postprocessText text) = false ->
  extractItems (postprocessText text) = Ok [].
Proof.
  intros Hno. unfold extractItems.
  rewrite no_newline_one_line by apply postprocessText_no_newline.
  cbn [extractItems_lines]. unfold extractItem.
  rewrite str_match_no_number; [reflexivity| |done].
  pose proof itemPattern_checked as H. rewrite !andb_true_iff in H. apply H.
Qed.

Lemma amount_patterns_numeric p : p ∈ amount_patterns -> p ∈ numeric_patterns.
Proof. unfold numeric_patterns. set_solver. Qed.

Lemma taxAmount_patterns_numeric p :
  p ∈ taxAmount_patterns -> p ∈ numeric_patterns.
Proof. unfold numeric_patterns. set_solver. Qed.

Lemma Forall_sub {A} (P : A -> Prop) (l1 l2 : list A) :
  (forall x, x ∈ l1 -> x ∈ l2) -> Forall P l2 -> Forall P l1.
Proof. rewrite !Forall_forall. eauto. Qed.

Lemma extractField_no_hit text prompt :
  first_hit text (patterns prompt) = None ->
  extractFieldWithPrompt text prompt = run_fallback prompt text.
Proof.
  intros H. unfold extractFieldWithPrompt.
  by rewrite extract_loop_first_hit, H.
Qed.

Lemma extractField_hit text prompt v :
  first_hit text (patterns prompt) = Some v ->
  extractFieldWithPrompt text prompt = apply_processor prompt (trim v).
Proof.
  intros H. unfold extractFieldWithPrompt.
  by rewrite extract_loop_first_hit, H.
Qed.

Lemma amount_field_no_number text :
  has_number text = false ->
  extractFieldWithPrompt text amount_prompt = Ok (VNum 0).
Proof.
  intros Hno. rewrite extractField_no_hit.
  - unfold run_fallback, amount_prompt, fallback, amount_fallback.
    by rewrite str_match_all_no_number.
  - apply first_hit_no_match.
    eapply Forall_sub; [|by apply numeric_patterns_no_number].
    apply amount_patterns_numeric.
Qed.

Lemma taxAmount_field_no_number text :
  has_number text = false ->
  extractFieldWithPrompt text taxAmount_prompt = Ok VUndefined.
Proof.
  intros Hno. rewrite extractField_no_hit; [reflexivity|].
  apply first_hit_no_match.
  eapply Forall_sub; [|by apply numeric_patterns_no_number].
  apply taxAmount_patterns_numeric.
Qed.

(** C10, amended: every pattern that reads an amount, a tax amount, a
    unit price or a total price, the fallback scan included, captures a
    digit followed by at least one digit or comma.  So for a text whose
    normalized form has no digit followed by a digit or a comma, no such
    pattern matches, the fallback finds no token, the amount is 0, the tax
    amount is absent and no line item is produced. *)
Theorem numbers_need_two_characters rt (text path : jsstring) (r : Receipt) :
  has_number (postprocessText text) = false ->
  parseReceiptText rt text path = Ok r ->
  (forall t p m, p ∈ numeric_patterns -> str_match t p = Some m ->
     exists v, match_get m 1 = Some v /\ number_shaped v = true)
  /\ (forall line m, str_match line itemPattern = Some m ->
        exists u v, match_get m 3 = Some u /\ match_get m 4 = Some v
          /\ number_shaped u = true /\ number_shaped v = true)
  /\ Forall (fun p => str_match (postprocessText text) p = None)
       numeric_patterns
  /\ currency_tokens (postprocessText text) = []
  /\ amount r = VNum 0
  /\ taxAmount r = VUndefined
  /\ items r = [].
Proof.
  intros Hno Hr.
  pose proof (numeric_patterns_no_number _ Hno) as Hnone.
  split; [intros t p m; apply numeric_capture|].
  split.
  { intros line m Hm.
    apply item_captures in Hm as (m1 & m2 & m3 & m4 & _ & _ & ? & ? & ? & ?).
    by exists m3, m4. }
  split; [done|].
  split; [unfold currency_tokens; by rewrite str_match_all_no_number|].
  destruct (parseReceiptText_fields rt text path)
    as (s & vd & va & vt & vp & its & _ & _ & Ha & Ht & _ & Hits & Hr').
  rewrite Hr' in Hr. injection Hr as <-.
  rewrite extractItems_no_number in Hits by done.
  rewrite amount_field_no_number in Ha by done.
  rewrite taxAmount_field_no_number in Ht by done.
  injection Hits as <-. injection Ha as <-. injection Ht as <-.
  repeat split.
Qed.

Lemma numbers_need_two_characters_witness :
  has_number (postprocessText (js "合計 ¥5")) = false
  /\ parseReceiptText sample_runtime (js "合計 ¥5") (js "r1.png")
     = Ok single_digit_receipt
  /\ currency_tokens (postprocessText (js "合計 ¥5")) = []
  /\ amount single_digit_receipt = VNum 0
  /\ items single_digit_receipt = [].
Proof.
  assert (H1 : has_number (postprocessText (js "合計 ¥5")) = false)
    by (vm_compute; reflexivity).
  assert (H2 : parseReceiptText sample_runtime (js "合計 ¥5") (js "r1.png")
               = Ok single_digit_receipt) by (vm_compute; reflexivity).
  split; [exact H1|]. split; [exact H2|].
  destruct (numbers_need_two_characters sample_runtime (js "合計 ¥5")
              (js "r1.png") single_digit_receipt H1 H2)
    as (_ & _ & _ & Htok & Ha & _ & Hi).
  split; [exact Htok|]. split; [exact Ha|exact Hi].
Defined.

(** The claim of C10 as it is worded fails: the only currency-marked
    number of the text is the single digit after ¥, and the amount is the
    unmarked number that follows the subtotal label. *)
Lemma unmarked_number_counterexample :
  str_match_all (js "合計 ¥5 小計 1200") marked_number_re = Some [js "¥5"]
  /\ exists r,
       parseReceiptText sample_runtime (js "合計 ¥5 小計 1200") (js "r1.png")
       = Ok r
       /\ amount r = VNum 1200.
Proof.
  split; [vm_compute; reflexivity|].
  eexists. split; [vm_compute; reflexivity|]. reflexivity.
Qed.

(** * The amount fallback *)

Lemma match_all_from_elem p fuel s w :
  w ∈ match_all_from p fuel s ->
  exists s0 rest c,
    s0 `suffix_of` s
    /\ span (re_flags p) (re_body p) s0 ∅ rest c /\ w = consumed s0 rest.
Proof.
  revert s. induction fuel as [|fuel IH]; intros s; simpl.
  - by rewrite elem_of_nil.
  - destruct (search_from p 0 s) as [[m s']|] eqn:Hs; [|by rewrite elem_of_nil].
    apply search_from_sound in Hs as (s0 & Hsuf & Hspan & Hw).
    assert (Hrest : s' `suffix_of` s).
    { etrans; [by eapply span_suffix|done]. }
    rewrite elem_of_cons. intros [->|Hin].
    + by exists s0, s', (match_groups m).
    + assert (Hgo : forall u, u `suffix_of` s' -> w ∈ match_all_from p fuel u ->
                exists s1 rest c, s1 `suffix_of` s
                  /\ span (re_flags p) (re_body p) s1 ∅ rest c
                  /\ w = consumed s1 rest).
      { intros u Hu Hwu. apply IH in Hwu as (s1 & rest & c & H1 & H2 & H3).
        exists s1, rest, c. split; [|done]. by repeat (etrans; [eassumption|]). }
      destruct (bool_decide (match_whole m = [])); [|by apply (Hgo s')].
      destruct s' as [|x t]; [by rewrite elem_of_nil in Hin|].
      apply (Hgo t); [by apply suffix_cons_r|done].
Qed.

Lemma has_number_digit w :
  has_number w = true -> List.filter is_digit w <> [].
Proof.
  induction w as [|x t IH]; [done|].
  cbn [has_number]. rewrite orb_true_iff. intros [H|H].
  - destruct t as [|y t']; [done|]. cbn [starts_number] in H.
    apply andb_true_iff in H as [Hx _]. simpl. by rewrite Hx.
  - simpl. destruct (is_digit x); [done|by apply IH].
Qed.

Lemma currency_token_requires :
  requires_number (re_body currency_token_re) = true.
Proof. vm_compute. reflexivity. Qed.

Lemma currency_token_has_number text w :
  w ∈ currency_tokens text -> has_number w = true.
Proof.
  unfold currency_tokens, str_match_all.
  destruct (match_all_from currency_token_re (S (length text)) text)
    as [|w0 ws] eqn:Hall; [by rewrite elem_of_nil|].
  cbn [default]. rewrite <- Hall. intros Hin.
  apply match_all_from_elem in Hin as (s0 & rest & c & _ & Hspan & ->).
  apply (requires_number_sound _ _ currency_token_requires) in Hspan
    as (w & -> & Hw).
  by rewrite consumed_app.
Qed.

Lemma filter_filter_ext (f g h : N -> bool) w :
  (forall x, h x = g x && f x) ->
  List.filter f (List.filter g w) = List.filter h w.
Proof.
  intros Hh. induction w as [|x t IH]; [done|]. simpl. rewrite (Hh x).
  destruct (g x); simpl; [|done]. destruct (f x); by rewrite IH.
Qed.

Lemma filter_filter_digits w :
  List.filter (fun x => negb (x =? ch ","))
    (List.filter
       (fun x => negb (negb (cmember (CUnion CDigit (CChar (ch ","))) x))) w)
  = List.filter is_digit w.
Proof.
  apply filter_filter_ext. intros x. change (ch ",") with 44. simpl.
  destruct (is_digit x) eqn:Hx, (N.eqb_spec x 44) as [->|Hne]; simpl;
    try done.
Qed.

Lemma strip_to_digits w :
  str_replace_all (str_replace_all w not_digit_comma_re []) comma_re []
  = List.filter is_digit w.
Proof.
  unfold not_digit_comma_re, comma_re.
  rewrite (replace_char_delete _ _ _ (char_re_tests (ch ","))).
  rewrite (replace_char_delete _ _ _
             (not_class_tests (CUnion CDigit (CChar (ch ","))))).
  apply filter_filter_digits.
Qed.

Lemma take_while_all f l : forallb f l = true -> take_while f l = l.
Proof.
  induction l as [|x t IH]; [done|]. cbn [forallb take_while].
  rewrite andb_true_iff. intros [-> Ht]. by rewrite IH.
Qed.

(** [parseInt] of a non-empty run of digits is the number they write. *)
Lemma parseInt_digits ds :
  ds <> [] -> forallb is_digit ds = true ->
  parseInt ds = VNum (to_number (digits_val ds)).
Proof.
  intros Hne Hds. destruct ds as [|x t]; [done|].
  pose proof Hds as Hall. cbn [forallb] in Hds.
  apply andb_true_iff in Hds as [Hx Ht].
  unfold parseInt. rewrite drop_while_head by by apply digit_not_space.
  assert (Hm : (x =? ch "-") = false).
  { apply N.eqb_neq. intros ->. by vm_compute in Hx. }
  assert (Hp : (x =? ch "+") = false).
  { apply N.eqb_neq. intros ->. by vm_compute in Hx. }
  rewrite Hm, Hp. by rewrite take_while_all.
Qed.

Lemma filter_digits_all w : forallb is_digit (List.filter is_digit w) = true.
Proof.
  apply forallb_forall. intros x Hx. by apply filter_In in Hx as [_ Hx].
Qed.

Lemma token_parse w :
  has_number w = true ->
  parseInt (str_replace_all (str_replace_all w not_digit_comma_re [])
              comma_re [])
  = VNum (to_number (token_value w)).
Proof.
  intros Hw. rewrite strip_to_digits. apply parseInt_digits.
  - by apply has_number_digit.
  - apply filter_digits_all.
Qed.

Lemma token_value_nonneg tok : (0 <= token_value tok)%Z.
Proof.
  unfold token_value, digits_val.
  generalize (List.filter is_digit tok). intros l.
  assert (H : forall acc, (0 <= acc)%Z ->
            (0 <= foldl (fun acc x => acc * 10 + digit_val x) acc l)%Z).
  { induction l as [|x t IH]; intros acc Hacc; simpl; [done|].
    apply IH. unfold digit_val. lia. }
  by apply H.
Qed.

Lemma number_max_neg_infinity a : number_max a NegInfinity = a.
Proof. by destruct a. Qed.

(** [Math.max] of the number values of the tokens is the number value of
    the largest token. *)
Lemma math_max_values (toks : list jsstring) (f : jsstring -> jsval) :
  toks <> [] ->
  (forall w, w ∈ toks -> f w = VNum (to_number (token_value w))) ->
  exists m, math_max (map f toks) = VNum (to_number m)
    /\ m ∈ map token_value toks
    /\ Forall (fun tok => (token_value tok <= m)%Z) toks.
Proof.
  induction toks as [|w [|w' rest] IH]; [done| |]; intros _ Hf.
  - exists (token_value w). cbn [map]. rewrite math_max_cons.
    rewrite Hf by set_solver. cbn [math_max].
    rewrite number_max_neg_infinity. split; [done|]. split; [set_solver|].
    constructor; [lia|constructor].
  - destruct IH as (b & Hb & Hin & Hle); [done| |].
    { intros w0 Hw0. apply Hf. set_solver. }
    exists (Z.max (token_value w) b).
    change (map f (w :: w' :: rest)) with (f w :: map f (w' :: rest)).
    rewrite math_max_cons, Hb, Hf by set_solver.
    rewrite to_number_max.
    + split; [done|]. split.
      * destruct (Z.max_spec (token_value w) b) as [[_ ->]|[_ ->]]; set_solver.
      * constructor; [lia|].
        eapply Forall_impl; [exact Hle|]. simpl. intros; lia.
    + apply token_value_nonneg.
    + apply list_elem_of_fmap in Hin as (w0 & -> & _). apply token_value_nonneg.
Qed.

Lemma amount_fallback_max text :
  (currency_tokens text = [] -> amount_fallback text = Ok (VNum 0))
  /\ (currency_tokens text <> [] ->
      exists m, amount_fallback text = Ok (VNum (to_number m))
        /\ m ∈ map token_value (currency_tokens text)
        /\ Forall (fun tok => (token_value tok <= m)%Z) (currency_tokens text)).
Proof.
  pose proof (currency_token_has_number text) as Hnum.
  unfold amount_fallback. unfold currency_tokens in *.
  destruct (str_match_all text currency_token_re) as [[|v0 vs]|]; cbn [default] in *.
  - by split.
  - split; [done|]. intros _.
    destruct (math_max_values (v0 :: vs)
                (fun v => parseInt (str_replace_all
                                      (str_replace_all v not_digit_comma_re [])
                                      comma_re []))) as (a & Ha & Hin & Hle);
      [done| |].
    { intros w Hw. apply token_parse. by apply Hnum. }
    exists a. by rewrite Ha.
  - by split.
Qed.

Lemma js_or_zero (a : number) : js_or (VNum a) (VNum 0) = VNum a.
Proof.
  destruct a as [z| |]; try done.
  unfold js_or. simpl. destruct (Z.eqb_spec z 0) as [->|]; done.
Qed.

(** The shape of the tokens the fallback scans. *)
Lemma currency_token_shape text w :
  w ∈ currency_tokens text -> symbol_marked w.
Proof.
  unfold currency_tokens, str_match_all.
  destruct (match_all_from currency_token_re (S (length text)) text)
    as [|w0 tl] eqn:Hall; [by rewrite elem_of_nil|].
  cbn [default]. rewrite <- Hall. intros Hin.
  apply match_all_from_elem in Hin as (s0 & rest & c & _ & Hspan & ->).
  simpl in Hspan.
  destruct Hspan as (s1 & c1 & Hmark & s2 & c2 & (n & _ & Hws)
                     & s3 & c3 & (c4 & Hbody & ->) & -> & ->).
  apply iter_char in Hws as (-> & ws & -> & _ & Hws).
  apply span_number_body in Hbody as (-> & body & -> & Hbody).
  assert (Hm : exists mark, s0 = mark :: ws ++ body ++ s3
                 /\ (mark = ch "￥" \/ mark = ch "¥")).
  { destruct Hmark as [(s4 & c5 & (x & -> & Hx & ->) & -> & ->)
                      |(s4 & c5 & (x & -> & Hx & ->) & -> & ->)];
      rewrite cmatch_plain in Hx; simpl in Hx; apply N.eqb_eq in Hx;
      exists x; (split; [done|]); [left|right]; done. }
  destruct Hm as (mark & -> & Hmark').
  exists mark, ws, body.
  replace (mark :: ws ++ body ++ s3) with ((mark :: ws ++ body) ++ s3)
    by (by rewrite <- app_comm_cons, <- (assoc_L (++))).
  rewrite consumed_app. split; [done|]. split; [done|]. split; [|done].
  apply forallb_forall. intros x Hx. rewrite Forall_forall in Hws.
  specialize (Hws x ltac:(by apply list_elem_of_In)).
  by rewrite cmatch_plain in Hws.
Qed.


Lemma run_fallback_amount t :
  run_fallback amount_prompt t = amount_fallback t.
Proof. reflexivity. Qed.

Lemma apply_processor_amount v :
  apply_processor amount_prompt v
  = Ok (parseInt (str_replace_all v comma_re [])).
Proof. reflexivity. Qed.







(** * The category classifier and the account mapper *)

Lemma categorizeStore_label rt s : categorizeStore rt s ∈ category_labels.
Proof.
  unfold categorizeStore, category_labels.
  repeat match goal with
         | |- context [if ?b then _ else _] => destruct b
         end;
    set_solver.
Qed.

Lemma account_of_label :
  Forall (fun l => exists a,
            account_mapping !! l = Some a /\ a <> []
            /\ mapCategoryToAccount (VStr l) = VStr a) category_labels.
Proof.
  unfold category_labels.
  repeat apply Forall_cons_2; try apply Forall_nil_2;
    (eexists; split; [vm_compute; reflexivity|]; split;
     [discriminate|vm_compute; reflexivity]).
Qed.

(** C7: the classifier always answers with one of its seven labels, and
    the account mapper finds, for each of these labels, a non-empty account
    name in its table. *)
Theorem categorize_total_account_total rt (s : jsstring) :
  categorizeStore rt s ∈ category_labels
  /\ Forall (fun l => exists a,
               account_mapping !! l = Some a /\ a <> []
               /\ mapCategoryToAccount (VStr l) = VStr a) category_labels.
Proof. split; [apply categorizeStore_label|apply account_of_label]. Qed.

(** * The accounting export *)

Lemma js_or_num (t : number) b : t <> Finite 0 -> js_or (VNum t) b = VNum t.
Proof.
  intros Ht. destruct t as [z| |]; try done. unfold js_or. simpl.
  destruct (Z.eqb_spec z 0) as [->|]; done.
Qed.

Lemma floor_tenth_exact (a : Z) :
  (0 <= a < 10 ^ 15)%Z -> floor_tenth (VNum a) = VNum (a / 10).
Proof. intros Ha. simpl. by rewrite floor_times_tenth_exact. Qed.

(** C8, amended: in the accounting export the tax column is the
    receipt's tax amount when that is present and not zero, and the floor
    of a tenth of the amount when it is absent or zero; the tax class is
    the constant 課税 and the note is 領収書ID: followed by the id.  Both
    exporters build the same row.  The tenth is a binary64 product: its
    floor is the quotient of the amount by ten for every amount below
    10^15. *)
Theorem accounting_tax_column (receipts : list Receipt) (i : nat)
    (r : Receipt) (a : Z) :
  receipts !! i = Some r ->
  amount r = VNum a ->
  exists row,
    saveAsAccountingCsv receipts !! i = Some row
    /\ exportToAccountingFormat receipts !! i = Some row
    /\ (forall t, taxAmount r = VNum t -> t <> 0%Z -> row_taxAmount row = VNum t)
    /\ (taxAmount r = VUndefined \/ taxAmount r = VNum 0 ->
        row_taxAmount row = VNum (floor_times_tenth a)
        /\ ((0 <= a < 10 ^ 15)%Z -> row_taxAmount row = VNum (a / 10)))
    /\ row_taxClass row = js "課税"
    /\ row_note row = js "領収書ID: " ++ id r.
Proof.
  intros Hi Ha. exists (accountingRow r).
  unfold saveAsAccountingCsv, exportToAccountingFormat.
  rewrite list_lookup_fmap, Hi. simpl.
  repeat split.
  - intros t Ht Hne. rewrite Ht. by apply js_or_num.
  - destruct H as [Ht|Ht]; rewrite Ht, Ha; reflexivity.
  - intros Hrange. rewrite <- (floor_times_tenth_exact a Hrange).
    destruct H as [Ht|Ht]; rewrite Ht, Ha; reflexivity.
Qed.

Lemma accounting_tax_column_witness :
  exists row,
    saveAsAccountingCsv [sample_receipt VUndefined] !! 0%nat = Some row
    /\ exportToAccountingFormat [sample_receipt VUndefined] !! 0%nat = Some row
    /\ (forall t, VUndefined = VNum t -> t <> 0%Z -> row_taxAmount row = VNum t)
    /\ (VUndefined = VUndefined \/ VUndefined = VNum 0 ->
        row_taxAmount row = VNum (floor_times_tenth 3305)
        /\ ((0 <= 3305 < 10 ^ 15)%Z -> row_taxAmount row = VNum 330))
    /\ row_taxClass row = js "課税"
    /\ row_note row = js "領収書ID: " ++ js "r1".
Proof.
  exact (accounting_tax_column [sample_receipt VUndefined] 0
           (sample_receipt VUndefined) 3305 eq_refl eq_refl).
Defined.

(** The claim of C8 as it is worded fails: a receipt read from a text
    that prints a tax of 00 has the tax amount 0, which is present, and
    its tax column is a tenth of the amount. *)
Lemma zero_tax_counterexample :
  exists r,
    parseReceiptText sample_runtime (js "合計 1000 消費税 00") (js "r1.png") = Ok r
    /\ amount r = VNum 1000
    /\ taxAmount r = VNum 0
    /\ row_taxAmount (accountingRow r) = VNum 100.
Proof. eexists. split; [vm_compute; reflexivity|]. by vm_compute. Qed.
(** * The numbers read from a text *)

(** ** Parts of a text *)

Lemma infix_refl s : infix s s.
Proof. exists [], []. by rewrite app_nil_r. Qed.

Lemma infix_trans u v w : infix u v -> infix v w -> infix u w.
Proof.
  intros (p1 & q1 & ->) (p2 & q2 & ->). exists (p2 ++ p1), (q1 ++ q2).
  by rewrite <- !(assoc_L (++)).
Qed.

Lemma infix_suffix v s t : infix v s -> s `suffix_of` t -> infix v t.
Proof.
  intros (p & q & ->) [k ->]. exists (k ++ p), q. by rewrite <- (assoc_L (++)).
Qed.

Lemma infix_length v s : infix v s -> (length v <= length s)%nat.
Proof. intros (p & q & ->). rewrite !length_app. lia. Qed.

(** ** What a match captures is a part of the text *)

Lemma span_captures_infix fl (T : jsstring) r :
  forall s c s' c', span fl r s c s' c' -> s `suffix_of` T ->
    (forall i v, c !! i = Some v -> infix v T) ->
    forall i v, c' !! i = Some v -> infix v T.
Proof.
  induction r as [|cs|cs| |r1 IH1 r2 IH2|r1 IH1 r2 IH2|g mn mx r IH|j r IH|];
    simpl; intros s c s' c'.
  - by intros [_ ->].
  - by intros (x & _ & _ & ->).
  - by intros (x & _ & _ & ->).
  - by intros (x & _ & _ & ->).
  - intros (s1 & c1 & H1 & H2) Hs Hc.
    eapply IH2; [exact H2| |by eapply IH1].
    etrans; [by eapply span_suffix|done].
  - intros [H|H]; eauto.
  - intros (n & _ & Hit). revert s c Hit.
    induction n as [|n IHn]; intros s c; simpl.
    + by intros [_ ->].
    + intros (s1 & c1 & H1 & Hit) Hs Hc.
      eapply (IHn s1 c1 Hit); [|by eapply IH].
      etrans; [by eapply span_suffix|done].
  - intros (c1 & H & ->) Hs Hc i v.
    destruct (decide (i = j)) as [->|Hne].
    + rewrite lookup_insert_eq. intros [= <-].
      apply span_prefix in H as [w ->]. rewrite consumed_app.
      apply (infix_suffix _ (w ++ s')); [|done]. by exists [], s'.
    + rewrite lookup_insert_ne by done. by eapply IH.
  - by intros (_ & _ & ->).
Qed.

Lemma str_match_capture_infix text p m i v :
  str_match text p = Some m -> match_groups m !! i = Some v -> infix v text.
Proof.
  intros Hm Hv. apply str_match_sound in Hm as (s & rest & Hs & Hspan & _).
  eapply span_captures_infix; [exact Hspan|done| |exact Hv].
  intros j w. by rewrite lookup_empty.
Qed.

Lemma first_hit_infix text ps v : first_hit text ps = Some v -> infix v text.
Proof.
  intros Hhit. apply first_hit_elem in Hhit as (p & _ & Hcap).
  unfold first_capture in Hcap.
  destruct (str_match text p) as [m|] eqn:Hm; [|done].
  destruct (match_get m 1) as [w|] eqn:Hw; [|done].
  destruct (bool_decide (w = [])); [done|]. injection Hcap as <-.
  by eapply str_match_capture_infix.
Qed.

Lemma match_all_infix text p w :
  w ∈ default [] (str_match_all text p) -> infix w text.
Proof.
  unfold str_match_all.
  destruct (match_all_from p (S (length text)) text) as [|w0 tl] eqn:Hall;
    [by rewrite elem_of_nil|].
  cbn [default]. rewrite <- Hall. intros Hin.
  apply match_all_from_elem in Hin as (s0 & rest & c & Hs & Hspan & ->).
  apply span_prefix in Hspan as [u ->]. rewrite consumed_app.
  apply (infix_suffix _ (u ++ rest)); [|done]. by exists [], rest.
Qed.

Lemma split_by_head sep s w ws :
  split_by sep s = w :: ws -> exists q, s = w ++ q.
Proof.
  revert w ws. induction s as [|x t IH]; intros w ws; simpl.
  - intros [= <- <-]. by exists [].
  - destruct (sep x).
    + intros [= <- <-]. by exists (x :: t).
    + destruct (split_by sep t) as [|w0 ws0] eqn:Ht.
      * intros [= <- <-]. exists t. done.
      * intros [= <- <-]. destruct (IH w0 ws0 eq_refl) as [q ->].
        by exists q.
Qed.

Lemma split_by_infix sep s w : w ∈ split_by sep s -> infix w s.
Proof.
  revert w. induction s as [|x t IH]; intros w; simpl.
  - rewrite list_elem_of_singleton. intros ->. apply infix_refl.
  - assert (Htail : forall u, infix u t -> infix u (x :: t)).
    { intros u (p & q & ->). by exists (x :: p), q. }
    destruct (sep x).
    + rewrite elem_of_cons. intros [->|Hin]; [by exists [], (x :: t)|].
      by apply Htail, IH.
    + destruct (split_by sep t) as [|w0 ws0] eqn:Ht.
      * rewrite list_elem_of_singleton. intros ->. by exists [], t.
      * rewrite elem_of_cons. intros [->|Hin].
        -- destruct (split_by_head sep t w0 ws0 Ht) as [q ->].
           by exists [], q.
        -- apply Htail, IH. by right.
Qed.

(** ** Runs of digits *)

Lemma runs_within_run n k w q :
  (k <= n)%nat -> runs_within n k (w ++ q) = true ->
  forallb is_dc w = true -> (k + length w <= n)%nat.
Proof.
  revert k. induction w as [|x t IH]; intros k Hk; cbn [runs_within forallb length app]; [lia|].
  intros Hrun Hw. apply andb_true_iff in Hw as [Hx Ht]. rewrite Hx in Hrun.
  apply andb_true_iff in Hrun as [Hle Hrun]. apply Nat.leb_le in Hle.
  specialize (IH (S k) Hle Hrun Ht). lia.
Qed.

Lemma runs_within_drop n k p s :
  (k <= n)%nat -> runs_within n k (p ++ s) = true ->
  exists k', (k' <= n)%nat /\ runs_within n k' s = true.
Proof.
  revert k. induction p as [|x t IH]; intros k Hk; cbn [runs_within app]; [by eauto|].
  destruct (is_dc x).
  - intros Hrun. apply andb_true_iff in Hrun as [Hle Hrun].
    apply Nat.leb_le in Hle. by eapply IH.
  - apply IH. lia.
Qed.

(** In a text whose numbers are in range, a part made of digits and
    commas has 308 characters at most. *)
Lemma run_length s w :
  numbers_in_range s -> infix w s -> forallb is_dc w = true ->
  (length w <= 308)%nat.
Proof.
  intros Hs (p & q & ->) Hw.
  destruct (runs_within_drop 308 0 p (w ++ q) ltac:(lia) Hs) as (k & Hk & Hrun).
  pose proof (runs_within_run 308 k w q Hk Hrun Hw). lia.
Qed.

Lemma runs_within_mono n k k' s :
  (k' <= k)%nat -> runs_within n k s = true -> runs_within n k' s = true.
Proof.
  revert k k'. induction s as [|x t IH]; intros k k' Hk; cbn [runs_within]; [done|].
  destruct (is_dc x); [|done].
  rewrite !andb_true_iff, !Nat.leb_le. intros [Hle Hrun].
  split; [lia|]. eapply (IH (S k)); [lia|done].
Qed.

Lemma runs_within_prefix n k w q :
  runs_within n k (w ++ q) = true -> runs_within n k w = true.
Proof.
  revert k. induction w as [|x t IH]; intros k; cbn [runs_within app]; [done|].
  destruct (is_dc x).
  - rewrite !andb_true_iff. intros [Hle Hrun]. split; [done|by apply IH].
  - apply IH.
Qed.

Lemma numbers_in_range_infix s w :
  numbers_in_range s -> infix w s -> numbers_in_range w.
Proof.
  unfold numbers_in_range. intros Hs (p & q & ->).
  destruct (runs_within_drop 308 0 p (w ++ q) ltac:(lia) Hs) as (k & Hk & Hrun).
  apply (runs_within_mono 308 k 0) in Hrun; [|lia].
  by eapply runs_within_prefix.
Qed.

Lemma number_shaped_dc v : number_shaped v = true -> forallb is_dc v = true.
Proof.
  destruct v as [|x [|y t]]; try done. cbn [number_shaped].
  rewrite andb_true_iff. intros [Hx Ht]. cbn [forallb] in *.
  unfold is_dc at 1. by rewrite Hx, Ht.
Qed.

(** ** The value of a run of digits *)

Lemma digits_val_nonneg l : (0 <= digits_val l)%Z.
Proof.
  unfold digits_val.
  assert (H : forall acc, (0 <= acc)%Z ->
            (0 <= foldl (fun acc x => acc * 10 + digit_val x) acc l)%Z).
  { induction l as [|x t IH]; intros acc Hacc; simpl; [done|].
    apply IH. unfold digit_val. lia. }
  by apply H.
Qed.

Lemma digit_val_digit x : is_digit x = true -> (0 <= digit_val x <= 9)%Z.
Proof.
  unfold is_digit, digit_val. rewrite andb_true_iff, !N.leb_le. lia.
Qed.

Lemma digits_val_bound l :
  forallb is_digit l = true -> (digits_val l < 10 ^ Z.of_nat (length l))%Z.
Proof.
  unfold digits_val.
  assert (H : forall acc, (0 <= acc)%Z -> forallb is_digit l = true ->
            (foldl (fun acc x => acc * 10 + digit_val x) acc l
             < (acc + 1) * 10 ^ Z.of_nat (length l))%Z).
  { induction l as [|x t IH]; intros acc Hacc; simpl.
    - intros _. lia.
    - rewrite andb_true_iff. intros [Hx Ht].
      pose proof (digit_val_digit x Hx).
      specialize (IH (acc * 10 + digit_val x)%Z ltac:(lia) Ht).
      rewrite Nat2Z.inj_succ, Z.pow_succ_r by lia.
      assert (0 < 10 ^ Z.of_nat (length t))%Z by (apply Z.pow_pos_nonneg; lia).
      nia. }
  intros Hl. specialize (H 0%Z ltac:(lia) Hl). lia.
Qed.

Lemma digits_in_range l :
  forallb is_digit l = true -> (length l <= 308)%nat ->
  (0 <= digits_val l <= max_finite)%Z.
Proof.
  intros Hl Hlen. split; [apply digits_val_nonneg|].
  pose proof (digits_val_bound l Hl).
  assert (10 ^ Z.of_nat (length l) <= 10 ^ 308)%Z
    by (apply Z.pow_le_mono_r; lia).
  assert (10 ^ 308 <= max_finite)%Z by (vm_compute; discriminate).
  lia.
Qed.

(** ** What [parseInt] makes of digits *)

Lemma natural_when_impl (P Q : Prop) v :
  (Q -> P) -> natural_when P v -> natural_when Q v.
Proof. intros HPQ [H1 H2]. split; [done|auto]. Qed.

Lemma natural_when_zero P : natural_when P (VNum 0).
Proof.
  assert (natural_value (VNum 0)) by (by exists 0%Z).
  split; [by right|done].
Qed.

Lemma parseInt_digits_natural ds :
  ds <> [] -> forallb is_digit ds = true ->
  natural_when (length ds <= 308)%nat (parseInt ds).
Proof.
  intros Hne Hds. rewrite parseInt_digits by done. split.
  - destruct (to_number_natural (digits_val ds) (digits_val_nonneg ds))
      as [->|(m & -> & Hm)]; [by left|right]. by exists m.
  - intros Hlen.
    destruct (to_number_finite (digits_val ds) (digits_in_range ds Hds Hlen))
      as (m & -> & Hm).
    by exists m.
Qed.

Lemma number_max_natural (P : Prop) a b :
  natural_when P (VNum a) -> natural_when P (VNum b) ->
  natural_when P (VNum (number_max a b)).
Proof.
  assert (Hfin : forall x y, natural_value (VNum x) -> natural_value (VNum y) ->
            natural_value (VNum (number_max x y))).
  { intros x y (n & [= ->] & Hn) (m & [= ->] & Hm).
    exists (Z.max n m). split; [done|lia]. }
  intros [Ha Pa] [Hb Pb]. split; [|by auto].
  destruct Ha as [[= ->]|Ha]; [by left|].
  destruct Hb as [[= ->]|Hb]; [left; by destruct a|].
  right. by apply Hfin.
Qed.

(** [Math.max] of non-negative numbers, one at least, is one. *)
Lemma math_max_natural_when (P : Prop) vs :
  vs <> [] -> Forall (natural_when P) vs -> natural_when P (math_max vs).
Proof.
  induction vs as [|v [|w rest] IH]; [done| |]; intros _ Hall.
  - apply Forall_cons in Hall as [Hv _]. rewrite math_max_cons. cbn [math_max].
    assert (Hn : exists a, v = VNum a).
    { destruct Hv as [[->|(a & -> & _)] _]; eauto. }
    destruct Hn as [a ->]. by rewrite number_max_neg_infinity.
  - apply Forall_cons in Hall as [Hv Hrest]. rewrite math_max_cons.
    specialize (IH ltac:(done) Hrest).
    assert (Hn : exists a, v = VNum a).
    { destruct Hv as [[->|(a & -> & _)] _]; eauto. }
    assert (Hm : exists b, math_max (w :: rest) = VNum b).
    { destruct IH as [[->|(b & -> & _)] _]; eauto. }
    destruct Hn as [a ->], Hm as [b Hb]. rewrite Hb in *.
    by apply number_max_natural.
Qed.

Lemma number_shaped_no_space v :
  number_shaped v = true -> forallb (fun x => negb (is_space x)) v = true.
Proof.
  destruct v as [|x [|y t]]; try done. cbn [number_shaped].
  rewrite andb_true_iff. intros [Hx Ht].
  apply forallb_forall. intros z Hz. apply negb_true_iff.
  destruct Hz as [<-|Hz]; [by apply digit_not_space|].
  rewrite forallb_forall in Ht. specialize (Ht z Hz). unfold is_dc in Ht.
  apply orb_true_iff in Ht as [Ht|Ht]; [by apply digit_not_space|].
  apply N.eqb_eq in Ht as ->. reflexivity.
Qed.

Lemma number_shaped_digits v :
  number_shaped v = true ->
  List.filter (fun x => negb (x =? ch ",")) v <> []
  /\ forallb is_digit (List.filter (fun x => negb (x =? ch ",")) v) = true.
Proof.
  destruct v as [|x [|y t]]; try done. cbn [number_shaped].
  rewrite andb_true_iff. intros [Hx Ht]. split.
  - cbn [List.filter].
    assert (Hc : (x =? ch ",") = false).
    { apply N.eqb_neq. intros ->. by vm_compute in Hx. }
    by rewrite Hc.
  - apply forallb_forall. intros z Hz. apply filter_In in Hz as [Hin Hz].
    destruct Hin as [<-|Hin]; [done|].
    rewrite forallb_forall in Ht. specialize (Ht z Hin). unfold is_dc in Ht.
    apply orb_true_iff in Ht as [Ht|Ht]; [done|]. by rewrite Ht in Hz.
Qed.

Lemma filter_length_le {A} (f : A -> bool) l :
  (length (List.filter f l) <= length l)%nat.
Proof. induction l as [|x t IH]; simpl; [done|]. destruct (f x); simpl; lia. Qed.

(** What the processors make of a capture: the commas go, the digits are
    read. *)
Lemma number_parse v :
  number_shaped v = true ->
  natural_when (length v <= 308)%nat
    (parseInt (str_replace_all v comma_re [])).
Proof.
  intros Hv. unfold comma_re.
  rewrite (replace_char_delete _ _ _ (char_re_tests (ch ","))).
  destruct (number_shaped_digits v Hv) as [Hne Hds].
  eapply natural_when_impl; [|by apply parseInt_digits_natural].
  intros Hlen. pose proof (filter_length_le (fun x => negb (x =? ch ",")) v).
  lia.
Qed.

Lemma number_processor v :
  number_shaped v = true ->
  natural_when (length v <= 308)%nat
    (parseInt (str_replace_all (trim v) comma_re [])).
Proof.
  intros Hv. rewrite trim_no_space by by apply number_shaped_no_space.
  by apply number_parse.
Qed.

(** A number captured in a text whose numbers are in range. *)
Lemma number_in_text text v :
  infix v text -> number_shaped v = true ->
  numbers_in_range text -> (length v <= 308)%nat.
Proof.
  intros Hin Hv Htext. apply (run_length text v Htext Hin).
  by apply number_shaped_dc.
Qed.

(** ** Numbers beyond the exact range *)

(** Above 2^53 the digits are read to the nearest binary64 value. *)
Lemma parseInt_rounds :
  parseInt (js "9007199254740993") = VNum 9007199254740992.
Proof. vm_compute. reflexivity. Qed.

(** 308 digits are still a finite number; 309 nines are not. *)
Lemma parseInt_overflows :
  (exists n : Z, parseInt (replicate 308 (ch "9")) = VNum n)
  /\ parseInt (replicate 309 (ch "9")) = VNum Infinity.
Proof. split; [eexists|]; vm_compute; reflexivity. Qed.

(** A total written with 400 digits is read as positive infinity. *)
Lemma amount_overflows :
  exists r,
    parseReceiptText sample_runtime (js "合計" ++ replicate 400 (ch "9"))
      (js "r1.png") = Ok r
    /\ amount r = VNum Infinity
    /\ row_taxAmount (accountingRow r) = VNum Infinity.
Proof. eexists. split; [vm_compute; reflexivity|]. by vm_compute. Qed.

(** * More about the normalizer *)

Lemma tidy_spaces s :
  tidy s = true -> Forall (fun x => is_space x = true -> x = code_sp) s.
Proof.
  induction s as [|x t IH]; [constructor|].
  cbn [tidy]. rewrite andb_true_iff. intros [Hx Ht].
  constructor; [|by apply IH].
  intros Hsp. rewrite Hsp in Hx. apply andb_true_iff in Hx as [Hx _].
  by apply N.eqb_eq in Hx.
Qed.

Lemma tidy_app_r s1 s2 : tidy (s1 ++ s2) = true -> tidy s2 = true.
Proof.
  induction s1 as [|x t IH]; [done|]. cbn [app tidy].
  rewrite andb_true_iff. intros [_ H]. by apply IH.
Qed.

Lemma tidy_no_adjacent s pre x y post :
  tidy s = true -> s = pre ++ x :: y :: post ->
  is_space x = true -> is_space y = false.
Proof.
  intros Ht -> Hx. apply tidy_app_r in Ht. cbn [tidy] in Ht.
  rewrite Hx in Ht. cbn [starts_space] in Ht.
  apply andb_true_iff in Ht as [Ht _]. apply andb_true_iff in Ht as [_ Ht].
  by apply negb_true_iff in Ht.
Qed.

(** X1: in a normalized text every white-space character is a U+0020,
    no two white-space characters are adjacent, and there is no newline. *)
Theorem normalized_whitespace (text : jsstring) :
  Forall (fun x => is_space x = true -> x = code_sp) (postprocessText text)
  /\ (forall pre x y post,
        postprocessText text = pre ++ x :: y :: post ->
        is_space x = true -> is_space y = false)
  /\ code_nl ∉ postprocessText text.
Proof.
  pose proof (postprocessText_tidy text) as Ht.
  split; [by apply tidy_spaces|]. split.
  - intros pre x y post Heq. by eapply tidy_no_adjacent.
  - apply postprocessText_no_newline.
Qed.

Lemma is_fullwidth_spec x :
  is_fullwidth x = ((65296 <=? x) && (x <=? 65305)) || (x =? 65292)
                   || (x =? 65294).
Proof.
  unfold is_fullwidth. rewrite fullwidth_folds_codes. cbn [existsb].
  repeat match goal with
         | |- context [x =? ?a] =>
             destruct (N.eqb_spec x a) as [->|?]; [vm_compute; reflexivity|]
         end.
  destruct (N.leb_spec 65296 x), (N.leb_spec x 65305); simpl; try done; lia.
Qed.

Lemma is_fullwidth_iff x :
  is_fullwidth x = true <-> (65296 <= x <= 65305) \/ x = 65292 \/ x = 65294.
Proof.
  rewrite is_fullwidth_spec.
  rewrite !orb_true_iff, !andb_true_iff, !N.leb_le, !N.eqb_eq. tauto.
Qed.

Lemma fold_fullwidth_cases x :
  (fold_fullwidth x = x /\ is_fullwidth x = false)
  \/ (48 <= fold_fullwidth x <= 57) \/ fold_fullwidth x = 44
  \/ fold_fullwidth x = 46.
Proof.
  destruct (is_fullwidth x) eqn:Hf.
  - right. apply is_fullwidth_iff in Hf. rewrite fold_fullwidth_spec.
    destruct (N.leb_spec 65296 x), (N.leb_spec x 65305); simpl; try lia;
      destruct (N.eqb_spec x 65292), (N.eqb_spec x 65294); simpl; lia.
  - left. split; [|done]. apply not_true_iff_false in Hf.
    rewrite is_fullwidth_iff in Hf. rewrite fold_fullwidth_spec.
    destruct (N.leb_spec 65296 x), (N.leb_spec x 65305); simpl; try lia;
      destruct (N.eqb_spec x 65292), (N.eqb_spec x 65294); simpl; try lia; done.
Qed.

Lemma fold_fullwidth_not_fullwidth x : is_fullwidth (fold_fullwidth x) = false.
Proof.
  destruct (fold_fullwidth_cases x) as [[-> H]|H]; [done|].
  apply not_true_iff_false. rewrite is_fullwidth_iff. lia.
Qed.

Lemma fold_fullwidth_fixed x : is_fullwidth x = false -> fold_fullwidth x = x.
Proof.
  intros Hf. apply not_true_iff_false in Hf. rewrite is_fullwidth_iff in Hf.
  rewrite fold_fullwidth_spec.
  destruct (N.leb_spec 65296 x), (N.leb_spec x 65305); simpl; try lia;
    destruct (N.eqb_spec x 65292), (N.eqb_spec x 65294); simpl; try lia; done.
Qed.

Lemma postprocessText_halfwidth text :
  Forall (fun x => is_fullwidth x = false) (postprocessText text).
Proof.
  rewrite postprocessText_eq. apply Forall_forall. intros x Hx.
  apply list_elem_of_fmap in Hx as (y & -> & _).
  apply fold_fullwidth_not_fullwidth.
Qed.

(** X2: a normalized text has none of the full-width digits, the
    full-width comma or the full-width period. *)
Theorem normalized_no_fullwidth (text : jsstring) :
  Forall (fun x => is_fullwidth x = false) (postprocessText text).
Proof. apply postprocessText_halfwidth. Qed.

Lemma map_fold_fixed s :
  Forall (fun x => is_fullwidth x = false) s -> map fold_fullwidth s = s.
Proof.
  induction 1 as [|x t Hx _ IH]; [done|]. cbn [map].
  by rewrite fold_fullwidth_fixed, IH.
Qed.

(** X3: the texts the normalizer leaves unchanged are exactly those
    whose white space is made of isolated U+0020 and that have no
    full-width digit, comma or period. *)
Theorem postprocessText_fixed_points (text : jsstring) :
  postprocessText text = text <->
  tidy text = true /\ Forall (fun x => is_fullwidth x = false) text.
Proof.
  split.
  - intros <-. split; [apply postprocessText_tidy|apply postprocessText_halfwidth].
  - intros [Ht Hf]. rewrite postprocessText_eq. unfold str_replace_all.
    rewrite replace_ws_fixed by (lia || done). by apply map_fold_fixed.
Qed.

Lemma replace_ws_length fuel s :
  (length s <= fuel)%nat ->
  (length (replace_from whitespace_run_re (js " ") fuel s) <= length s)%nat.
Proof.
  revert s. induction fuel as [|fuel IH]; intros [|x t] Hlen;
    try (simpl in Hlen; lia); try done.
  rewrite replace_ws_cons by (simpl in Hlen; lia).
  pose proof (drop_while_length is_space t) as Hd.
  destruct (is_space x); cbn [length].
  - specialize (IH (drop_while is_space t)). simpl in Hlen. lia.
  - specialize (IH t). simpl in Hlen. lia.
Qed.

(** X4: normalizing never makes a text longer. *)
Theorem postprocessText_length (text : jsstring) :
  (length (postprocessText text) <= length text)%nat.
Proof.
  rewrite postprocessText_eq, length_map. unfold str_replace_all.
  apply replace_ws_length. lia.
Qed.

(** * More about the assembler *)

(** X5: whatever the text, the assembler returns a receipt and its date
    is the sentinel 日付不明: no rule of the date table can produce a
    date, because the processor sees the first group only. *)
Theorem date_always_sentinel rt (text path : jsstring) :
  exists r, parseReceiptText rt text path = Ok r
    /\ date r = VStr (js "日付不明").
Proof.
  destruct (parseReceiptText_fields rt text path)
    as (s & vd & va & vt & vp & its & _ & _ & _ & _ & _ & _ & Hr).
  eexists. split; [exact Hr|]. by eapply date_never_recognised.
Qed.

Lemma numeric_first_hit text ps v :
  (forall p, p ∈ ps -> p ∈ numeric_patterns) ->
  first_hit text ps = Some v -> number_shaped v = true.
Proof.
  intros Hsub Hhit. apply first_hit_elem in Hhit as (p & Hp & Hcap).
  unfold first_capture in Hcap.
  destruct (str_match text p) as [m|] eqn:Hm; [|done].
  destruct (numeric_capture text p m (Hsub p Hp) Hm) as (w & Hw & Hshape).
  rewrite Hw in Hcap. destruct (bool_decide (w = [])); [done|].
  by injection Hcap as <-.
Qed.

Lemma apply_processor_tax v :
  apply_processor taxAmount_prompt v
  = Ok (parseInt (str_replace_all v comma_re [])).
Proof. reflexivity. Qed.

Lemma run_fallback_tax t : run_fallback taxAmount_prompt t = Ok VUndefined.
Proof. reflexivity. Qed.

Lemma filter_digits_token mark ws body :
  is_digit mark = false -> forallb is_space ws = true ->
  List.filter is_digit (mark :: ws ++ body) = List.filter is_digit body.
Proof.
  intros Hmark Hws. cbn [List.filter]. rewrite Hmark.
  induction ws as [|x t IH]; [done|]. cbn [forallb] in Hws.
  apply andb_true_iff in Hws as [Hx Ht]. cbn [app List.filter].
  destruct (is_digit x) eqn:Hd; [|by apply IH].
  apply digit_not_space in Hd. congruence.
Qed.

(** The value of a token of the fallback, in a text whose numbers are in
    range, is one binary64 holds. *)
Lemma token_in_range text w :
  w ∈ currency_tokens text -> numbers_in_range text ->
  (0 <= token_value w <= max_finite)%Z.
Proof.
  intros Hw Htext. pose proof (match_all_infix _ _ _ Hw) as Hin.
  apply currency_token_shape in Hw as (mark & ws & body & -> & Hmark & Hws & Hb).
  unfold token_value. rewrite filter_digits_token; [| |done].
  2:{ by destruct Hmark as [->| ->]. }
  apply digits_in_range; [apply filter_digits_all|].
  pose proof (filter_length_le is_digit body).
  assert (length body <= 308)%nat; [|lia].
  apply (number_in_text text body); [|done|done].
  eapply infix_trans; [|exact Hin]. exists (mark :: ws), [].
  by rewrite app_nil_r.
Qed.

Lemma amount_fallback_natural text va :
  amount_fallback text = Ok va -> natural_when (numbers_in_range text) va.
Proof.
  intros Ha. destruct (amount_fallback_max text) as [Hzero Hmax].
  destruct (currency_tokens text) as [|tok toks] eqn:Htoks.
  - rewrite Hzero in Ha by done. injection Ha as <-. apply natural_when_zero.
  - destruct (Hmax ltac:(done)) as (m & Hfb & Hin & _).
    rewrite Hfb in Ha. injection Ha as <-.
    apply list_elem_of_fmap in Hin as (w & -> & Hw). rewrite <- Htoks in Hw.
    split.
    + destruct (to_number_natural (token_value w) (token_value_nonneg w))
        as [->|(n & -> & Hn)]; [by left|right]. by exists n.
    + intros Htext.
      destruct (to_number_finite _ (token_in_range text w Hw Htext))
        as (n & -> & Hn).
      by exists n.
Qed.

Lemma captured_number_natural text ps v :
  (forall p, p ∈ ps -> p ∈ numeric_patterns) ->
  first_hit text ps = Some v ->
  natural_when (numbers_in_range text)
    (parseInt (str_replace_all (trim v) comma_re [])).
Proof.
  intros Hps Hhit.
  pose proof (numeric_first_hit text ps v Hps Hhit) as Hv.
  eapply natural_when_impl; [|by apply number_processor].
  intros Htext. apply (number_in_text text v); [|done|done].
  by eapply first_hit_infix.
Qed.

Lemma amount_field_natural text va :
  extractFieldWithPrompt text amount_prompt = Ok va ->
  natural_when (numbers_in_range text) va.
Proof.
  destruct (first_hit text (patterns amount_prompt)) as [v|] eqn:Hhit.
  - rewrite (extractField_hit _ _ _ Hhit), apply_processor_amount.
    intros [= <-]. eapply captured_number_natural; [|exact Hhit].
    apply amount_patterns_numeric.
  - rewrite (extractField_no_hit _ _ Hhit), run_fallback_amount.
    apply amount_fallback_natural.
Qed.

Lemma taxAmount_field_natural text vt :
  extractFieldWithPrompt text taxAmount_prompt = Ok vt ->
  vt = VUndefined \/ natural_when (numbers_in_range text) vt.
Proof.
  destruct (first_hit text (patterns taxAmount_prompt)) as [v|] eqn:Hhit.
  - rewrite (extractField_hit _ _ _ Hhit), apply_processor_tax.
    intros [= <-]. right. eapply captured_number_natural; [|exact Hhit].
    apply taxAmount_patterns_numeric.
  - rewrite (extractField_no_hit _ _ Hhit), run_fallback_tax.
    intros [= <-]. by left.
Qed.

Lemma js_or_natural_when P va :
  natural_when P va -> natural_when P (js_or va (VNum 0)).
Proof.
  intros H. assert (Hn : exists a, va = VNum a).
  { destruct H as [[->|(a & -> & _)] _]; eauto. }
  destruct Hn as [a ->]. by rewrite js_or_zero.
Qed.

(** The amount and the tax amount of an assembled receipt. *)
Lemma receipt_amounts rt (text path : jsstring) :
  exists r va vt,
    parseReceiptText rt text path = Ok r
    /\ extractFieldWithPrompt (postprocessText text) amount_prompt = Ok va
    /\ extractFieldWithPrompt (postprocessText text) taxAmount_prompt = Ok vt
    /\ amount r = js_or va (VNum 0) /\ taxAmount r = vt.
Proof.
  destruct (parseReceiptText_fields rt text path)
    as (s & vd & va & vt & vp & its & _ & _ & Ha & Ht & _ & _ & Hr).
  eexists _, va, vt. split; [exact Hr|]. by repeat split.
Qed.

(** X6: the amount of every assembled receipt is a non-negative integer
    or positive infinity, never not-a-number and never negative, and its
    tax amount is absent or such a number.  When no run of digits and
    commas of the normalized text is longer than 308 characters, both are
    non-negative integers. *)
Theorem amounts_are_natural rt (text path : jsstring) :
  exists r, parseReceiptText rt text path = Ok r
    /\ natural_or_infinite (amount r)
    /\ (taxAmount r = VUndefined \/ natural_or_infinite (taxAmount r))
    /\ (numbers_in_range (postprocessText text) ->
        natural_value (amount r)
        /\ (taxAmount r = VUndefined \/ natural_value (taxAmount r))).
Proof.
  destruct (receipt_amounts rt text path)
    as (r & va & vt & Hr & Ha & Ht & Hra & Hrt).
  exists r. split; [exact Hr|]. rewrite Hra, Hrt.
  apply amount_field_natural, js_or_natural_when in Ha as [Ha1 Ha2].
  apply taxAmount_field_natural in Ht as [->|[Ht1 Ht2]].
  - split; [done|]. split; [by left|]. intros Hrange. split; [auto|by left].
  - split; [done|]. split; [by right|]. intros Hrange. split; auto.
Qed.

(** * More about the line items *)

Lemma item_quantity_checked :
  groups_in 2 [plus digit] (re_body itemPattern) = true.
Proof. vm_compute. reflexivity. Qed.

Lemma plus_digit_consumed fl b :
  b ∈ [plus digit] ->
  forall s c s' c', span fl b s c s' c' -> all_digits (consumed s s') = true.
Proof.
  intros ->%list_elem_of_singleton s c s' c'. apply span_digits. lia.
Qed.

Lemma digits_dc v : forallb is_digit v = true -> forallb is_dc v = true.
Proof.
  rewrite !forallb_forall. intros H x Hx. unfold is_dc. by rewrite (H x Hx).
Qed.

Lemma extractItem_natural line it :
  extractItem line = Ok (Some it) ->
  natural_when (numbers_in_range line) (quantity it)
  /\ natural_when (numbers_in_range line) (unitPrice it)
  /\ natural_when (numbers_in_range line) (totalPrice it).
Proof.
  unfold extractItem. destruct (str_match line itemPattern) as [m|] eqn:Hm;
    [|done].
  destruct (item_captures line m Hm)
    as (m1 & m2 & m3 & m4 & E1 & E2 & E3 & E4 & S3 & S4).
  assert (D2 : all_digits m2 = true).
  { exact (str_match_groups_in line itemPattern m 2 [plus digit]
             (fun v => all_digits v = true) item_quantity_checked
             (plus_digit_consumed _) Hm m2 E2). }
  pose proof (str_match_capture_infix line itemPattern m 2 m2 Hm E2) as I2.
  pose proof (str_match_capture_infix line itemPattern m 3 m3 Hm E3) as I3.
  pose proof (str_match_capture_infix line itemPattern m 4 m4 Hm E4) as I4.
  rewrite E1, E2, E3, E4. cbn [defined mbind result_bind rbind parseInt_arg].
  intros [= <-]. cbn [quantity unitPrice totalPrice].
  apply all_digits_forall in D2 as [Hne Hds].
  split; [|split].
  - eapply natural_when_impl; [|by apply parseInt_digits_natural].
    intros Hline. apply (run_length line m2 Hline I2). by apply digits_dc.
  - eapply natural_when_impl; [|by apply number_parse].
    intros Hline. by apply (number_in_text line m3).
  - eapply natural_when_impl; [|by apply number_parse].
    intros Hline. by apply (number_in_text line m4).
Qed.

Lemma extractItems_lines_natural lines its :
  extractItems_lines lines = Ok its ->
  (length its <= length lines)%nat
  /\ Forall natural_or_infinite_item its
  /\ (Forall numbers_in_range lines -> Forall natural_item its).
Proof.
  revert its. induction lines as [|line rest IH]; intros its; simpl.
  - intros [= <-]. split; [done|]. split; [constructor|]. by constructor.
  - destruct (extractItem line) as [o|e] eqn:Ho; [|done].
    cbn [mbind result_bind rbind].
    destruct (extractItems_lines rest) as [its'|e] eqn:Hrest; [|done].
    cbn [mbind result_bind rbind]. intros [= <-].
    destruct (IH its' eq_refl) as (Hlen & Hall & Hfin).
    destruct o as [it|]; cbn [length].
    + destruct (extractItem_natural line it Ho) as ([Q1 Q2] & [U1 U2] & [T1 T2]).
      split; [lia|]. split.
      * constructor; [by split|done].
      * intros Hlines. apply Forall_cons in Hlines as [Hline Hrest'].
        constructor; [|by apply Hfin]. split; [|split]; auto.
    + split; [lia|]. split; [done|].
      intros Hlines. apply Forall_cons in Hlines as [_ Hrest']. by apply Hfin.
Qed.

Lemma lines_in_range text :
  numbers_in_range text -> Forall numbers_in_range (split_lines text).
Proof.
  intros Htext. apply Forall_forall. intros line Hline.
  apply (numbers_in_range_infix text); [done|]. by eapply split_by_infix.
Qed.

(** X7: every line item the parser extracts, from any text, has a
    quantity, a unit price and a total price that are non-negative
    integers or positive infinity, never not-a-number and never negative,
    and there is at most one item per line of the text.  When no run of
    digits and commas of the text is longer than 308 characters, the
    three are non-negative integers. *)
Theorem items_are_natural (text : jsstring) :
  exists its, extractItems text = Ok its
    /\ (length its <= length (split_lines text))%nat
    /\ Forall natural_or_infinite_item its
    /\ (numbers_in_range text -> Forall natural_item its).
Proof.
  destruct (extractItems_total text) as [its Hits].
  exists its. split; [done|].
  destruct (extractItems_lines_natural _ _ Hits) as (Hlen & Hall & Hfin).
  split; [done|]. split; [done|].
  intros Htext. by apply Hfin, lines_in_range.
Qed.

Lemma extractItems_one_line t :
  code_nl ∉ t -> extractItems t = extractItems_lines [t].
Proof. intros Hnl. unfold extractItems. by rewrite no_newline_one_line. Qed.

Lemma extractItems_normalized_length text its :
  extractItems (postprocessText text) = Ok its -> (length its <= 1)%nat.
Proof.
  rewrite extractItems_one_line by apply postprocessText_no_newline.
  intros H. by apply extractItems_lines_natural in H as (Hlen & _ & _).
Qed.

(** X8: an assembled receipt has at most one line item: the normalizer
    has removed every newline before the line-item parser splits the text
    into lines. *)
Theorem at_most_one_item rt (text path : jsstring) :
  exists r, parseReceiptText rt text path = Ok r
    /\ (length (items r) <= 1)%nat.
Proof.
  destruct (parseReceiptText_fields rt text path)
    as (s & vd & va & vt & vp & its & _ & _ & _ & _ & _ & Hits & Hr).
  eexists. split; [exact Hr|]. cbn [items].
  by eapply extractItems_normalized_length.
Qed.

(** * Rules the normalizer disables *)

Lemma cmatch_newline fl x : cmatch fl (CChar code_nl) x = true -> x = code_nl.
Proof.
  unfold cmatch, code_nl. cbn [cmember].
  rewrite !orb_true_iff, andb_true_iff, orb_true_iff, !N.eqb_eq.
  unfold ascii_upper, ascii_lower, is_lower, is_upper.
  intros [H|[_ [H|H]]]; [done| |].
  - destruct (N.leb_spec 97 x), (N.leb_spec x 122); simpl in H; lia.
  - destruct (N.leb_spec 65 x), (N.leb_spec x 90); simpl in H; lia.
Qed.

Lemma requires_newline_sound fl r :
  requires_newline r = true ->
  forall s c s' c', span fl r s c s' c' ->
    exists w, s = w ++ s' /\ code_nl ∈ w.
Proof.
  induction r as [|cs|cs| |r1 IH1 r2 IH2|r1 IH1 r2 IH2|g mn mx r IH|i r IH|];
    simpl; try done.
  - intros Hcs s c s' c' (x & -> & Hx & _).
    apply bool_decide_eq_true in Hcs as ->. apply cmatch_newline in Hx as ->.
    exists [code_nl]. split; [done|set_solver].
  - rewrite orb_true_iff. intros Hreq s c s' c' (s1 & c1 & H1 & H2).
    destruct Hreq as [Hreq|Hreq].
    + destruct (IH1 Hreq _ _ _ _ H1) as (w1 & -> & Hw1).
      apply span_prefix in H2 as [w2 ->].
      exists (w1 ++ w2). rewrite <- (assoc_L (++)). split; [done|set_solver].
    + destruct (IH2 Hreq _ _ _ _ H2) as (w2 & -> & Hw2).
      apply span_prefix in H1 as [w1 ->].
      exists (w1 ++ w2). rewrite <- (assoc_L (++)). split; [done|set_solver].
  - rewrite andb_true_iff. intros [Hr1 Hr2] s c s' c' [H|H]; eauto.
  - rewrite andb_true_iff. intros [Hmn Hreq] s c s' c' (n & Hn & Hit).
    apply Nat.ltb_lt in Hmn. destruct n as [|n]; [lia|].
    simpl in Hit. destruct Hit as (s1 & c1 & H1 & Hit).
    destruct (IH Hreq _ _ _ _ H1) as (w1 & -> & Hw1).
    apply iter_prefix in Hit as [w2 ->].
    exists (w1 ++ w2). rewrite <- (assoc_L (++)). split; [done|set_solver].
  - intros Hreq s c s' c' (c1 & H & _). eauto.
Qed.

Lemma str_match_no_newline p text :
  requires_newline (re_body p) = true -> code_nl ∉ text ->
  str_match text p = None.
Proof.
  intros Hreq Hno. destruct (str_match text p) as [m|] eqn:Hm; [|done].
  apply str_match_sound in Hm as (s & rest & [k ->] & Hspan & _).
  apply (requires_newline_sound _ _ Hreq) in Hspan as (w & -> & Hw).
  exfalso. apply Hno. set_solver.
Qed.

(** X9: the second and the third store-name rule, which look for the
    line before 領収 and for the line before a postal code, never match
    the text the assembler gives them: they need a newline and the
    normalized text has none. *)
Theorem newline_rules_never_match (text : jsstring) :
  Forall (fun p => str_match (postprocessText text) p = None)
    (take 2 (drop 1 storeName_patterns)).
Proof.
  repeat constructor;
    (apply str_match_no_newline;
     [vm_compute; reflexivity|apply postprocessText_no_newline]).
Qed.

(** * More about the store name and the export *)

Lemma drop_while_keeps_last f l x :
  f x = false -> exists k, drop_while f (l ++ [x]) = k ++ [x].
Proof.
  intros Hx. induction l as [|y t IH]; simpl.
  - rewrite Hx. by exists [].
  - destruct (f y); [done|]. by exists (y :: t).
Qed.

Lemma trim_starts s : starts_space (trim s) = false.
Proof.
  unfold trim.
  destruct (drop_while is_space s) as [|x t] eqn:Hd; [done|].
  assert (Hx : is_space x = false).
  { pose proof (starts_space_drop_while s) as H. by rewrite Hd in H. }
  rewrite reverse_cons.
  destruct (drop_while_keeps_last is_space (reverse t) x Hx) as [k ->].
  rewrite reverse_app. simpl. done.
Qed.

Lemma trim_ends s : starts_space (reverse (trim s)) = false.
Proof.
  unfold trim. rewrite reverse_involutive. apply starts_space_drop_while.
Qed.

Lemma trim_clean s :
  starts_space s = false -> starts_space (reverse s) = false -> trim s = s.
Proof.
  intros H1 H2. unfold trim.
  rewrite (drop_while_no_space s H1), (drop_while_no_space _ H2).
  apply reverse_involutive.
Qed.

Lemma trim_idempotent s : trim (trim s) = trim s.
Proof. apply trim_clean; [apply trim_starts|apply trim_ends]. Qed.

Lemma unknown_store_trimmed : trim unknown_store = unknown_store.
Proof. vm_compute. reflexivity. Qed.

Lemma storeName_fallback_trimmed text s :
  storeName_fallback text = Ok (VStr s) -> trim s = s.
Proof.
  unfold storeName_fallback.
  destruct (List.filter _ (split_lines text)) as [|l0 lines]; simpl.
  - intros [= <-]. apply unknown_store_trimmed.
  - intros [= <-]. apply trim_idempotent.
Qed.

Lemma run_fallback_storeName t :
  run_fallback storeName_prompt t = storeName_fallback t.
Proof. reflexivity. Qed.

Lemma apply_processor_storeName v :
  apply_processor storeName_prompt v = Ok (VStr v).
Proof. reflexivity. Qed.

Lemma storeName_field_trimmed text s :
  extractFieldWithPrompt text storeName_prompt = Ok (VStr s) -> trim s = s.
Proof.
  destruct (first_hit text (patterns storeName_prompt)) as [v|] eqn:Hhit.
  - rewrite (extractField_hit _ _ _ Hhit), apply_processor_storeName.
    intros [= <-]. apply trim_idempotent.
  - rewrite (extractField_no_hit _ _ Hhit), run_fallback_storeName.
    apply storeName_fallback_trimmed.
Qed.

Lemma js_or_store s :
  trim s = s ->
  exists s', js_or (VStr s) (VStr unknown_store) = VStr s'
    /\ s' <> [] /\ trim s' = s'.
Proof.
  intros Hs. unfold js_or. cbn [truthy].
  destruct (bool_decide_reflect (s = [])) as [->|Hne]; cbn [negb].
  - exists unknown_store. split; [done|]. split; [done|].
    apply unknown_store_trimmed.
  - by exists s.
Qed.

(** X10: the store name of every assembled receipt is a string that is
    not empty and has no white space at its ends. *)
Theorem storeName_trimmed rt (text path : jsstring) :
  exists r s, parseReceiptText rt text path = Ok r
    /\ storeName r = VStr s /\ s <> [] /\ trim s = s.
Proof.
  destruct (parseReceiptText_fields rt text path)
    as (s & vd & va & vt & vp & its & Hs & _ & _ & _ & _ & _ & Hr).
  destruct (js_or_store s) as (s' & Hor & Hne & Htrim).
  { by eapply storeName_field_trimmed. }
  eexists _, s'. split; [exact Hr|]. cbn [storeName]. by rewrite Hor.
Qed.

Lemma label_truthy l :
  l ∈ category_labels -> js_or (VStr l) (VStr (js "その他")) = VStr l.
Proof.
  unfold category_labels. rewrite !elem_of_cons, elem_of_nil.
  intros [->|[->|[->|[->|[->|[->|[->|[]]]]]]]]; vm_compute; reflexivity.
Qed.

Lemma label_account l :
  l ∈ category_labels ->
  exists a, mapCategoryToAccount (VStr l) = VStr a /\ a ∈ account_names.
Proof.
  unfold category_labels. rewrite !elem_of_cons, elem_of_nil.
  intros [->|[->|[->|[->|[->|[->|[->|[]]]]]]]];
    eexists; (split; [vm_compute; reflexivity|]);
    unfold account_names; set_solver.
Qed.

Lemma floor_tenth_natural P va :
  natural_when P va -> natural_when P (floor_tenth va).
Proof.
  assert (Hfin : forall v, natural_value v -> natural_value (floor_tenth v)).
  { intros v (a & -> & Ha). exists (floor_times_tenth a).
    split; [done|by apply floor_times_tenth_nonneg]. }
  intros [[->|Ha] Hp]; (split; [|by auto]); [by left|right; by apply Hfin].
Qed.

Lemma tax_column_natural P va vt :
  natural_when P va -> vt = VUndefined \/ natural_when P vt ->
  natural_when P (js_or vt (floor_tenth va)).
Proof.
  intros Ha [->|Ht]; [by apply floor_tenth_natural|].
  unfold js_or. destruct (truthy vt); [done|by apply floor_tenth_natural].
Qed.

Lemma accounting_row_natural P (r : Receipt) :
  natural_when P (amount r) ->
  taxAmount r = VUndefined \/ natural_when P (taxAmount r) ->
  natural_when P (row_amount (accountingRow r))
  /\ natural_when P (row_taxAmount (accountingRow r)).
Proof. intros Ha Ht. split; [done|by apply tax_column_natural]. Qed.

Lemma accounting_row_account rt (text path : jsstring) r :
  parseReceiptText rt text path = Ok r ->
  exists a, row_account (accountingRow r) = VStr a /\ a ∈ account_names.
Proof.
  destruct (parseReceiptText_fields rt text path)
    as (s & vd & va & vt & vp & its & _ & _ & _ & _ & _ & _ & Hr).
  rewrite Hr. intros [= <-].
  unfold accountingRow. cbn [row_account category].
  rewrite label_truthy by apply categorizeStore_label.
  apply label_account, categorizeStore_label.
Qed.

(** X11: the accounting row of every assembled receipt carries one of
    the five account names of the table, and an amount and a tax amount
    that are non-negative integers or positive infinity, never
    not-a-number and never negative.  When no run of digits and commas of
    the normalized text is longer than 308 characters, both are
    non-negative integers. *)
Theorem accounting_row_of_receipt rt (text path : jsstring) :
  exists r, parseReceiptText rt text path = Ok r
    /\ (exists a, row_account (accountingRow r) = VStr a /\ a ∈ account_names)
    /\ natural_or_infinite (row_amount (accountingRow r))
    /\ natural_or_infinite (row_taxAmount (accountingRow r))
    /\ (numbers_in_range (postprocessText text) ->
        natural_value (row_amount (accountingRow r))
        /\ natural_value (row_taxAmount (accountingRow r))).
Proof.
  destruct (receipt_amounts rt text path)
    as (r & va & vt & Hr & Ha & Ht & Hra & Hrt).
  exists r. split; [exact Hr|].
  split; [by eapply accounting_row_account|].
  apply amount_field_natural, js_or_natural_when in Ha.
  apply taxAmount_field_natural in Ht.
  rewrite <- Hra in Ha. rewrite <- Hrt in Ht.
  destruct (accounting_row_natural _ r Ha Ht) as [[A1 A2] [T1 T2]].
  split; [done|]. split; [done|]. intros Hrange. split; auto.
Qed.

(** * The command line *)

Lemma list_ind2 {A} (P : list A -> Prop) :
  P [] -> (forall a, P [a]) ->
  (forall a b l, P l -> P (b :: l) -> P (a :: b :: l)) ->
  forall l, P l.
Proof.
  intros H0 H1 H2 l.
  assert (H : P l /\ forall a, P (a :: l)); [|by destruct H].
  induction l as [|b l [IHl IHbl]]; [by split|].
  split; [apply IHbl|]. intros a. by apply H2.
Qed.




Lemma parseArgs_loop_directory args :
  forall result,
    directoryPath (parseArgs_loop args result) = directoryPath result
    \/ (exists v, v ∈ args
          /\ directoryPath (parseArgs_loop args result) = VStr v)
    \/ (directoryPath (parseArgs_loop args result) = VUndefined
        /\ exists flag, last args = Some flag
             /\ is_flag flag "--dir" "-d" = true).
Proof.
  induction args as [|a|a b l IHl IHbl] using list_ind2; intros result.
  - by left.
  - cbn [parseArgs_loop next_arg].
    destruct (is_flag a "--dir" "-d") eqn:Hd.
    + right. right. split; [done|]. by exists a.
    + repeat case_match; by left.
  - cbn [parseArgs_loop next_arg].
    destruct (is_flag a "--dir" "-d") eqn:Hd.
    { destruct (IHl {| directoryPath := VStr b;
                       outputPath := outputPath result;
                       format := format result |})
        as [H|[(v & Hv & H)|(H & flag & Hlast & Hflag)]].
      - right. left. exists b. split; [set_solver|exact H].
      - right. left. exists v. split; [set_solver|exact H].
      - destruct l as [|c l']; [done|].
        right. right. split; [exact H|]. by exists flag. }
    destruct (is_flag a "--output" "-o") eqn:Ho.
    { destruct (IHl {| directoryPath := directoryPath result;
                       outputPath := VStr b;
                       format := format result |})
        as [H|[(v & Hv & H)|(H & flag & Hlast & Hflag)]].
      - by left.
      - right. left. exists v. split; [set_solver|exact H].
      - destruct l as [|c l']; [done|].
        right. right. split; [exact H|]. by exists flag. }
    destruct (is_flag a "--format" "-f") eqn:Hf.
    { destruct (IHl (if valid_format b
                     then {| directoryPath := directoryPath result;
                             outputPath := outputPath result; format := b |}
                     else result))
        as [H|[(v & Hv & H)|(H & flag & Hlast & Hflag)]].
      - left. rewrite H. by destruct (valid_format b).
      - right. left. exists v. split; [set_solver|exact H].
      - destruct l as [|c l']; [done|].
        right. right. split; [exact H|]. by exists flag. }
    destruct (IHbl result) as [H|[(v & Hv & H)|(H & flag & Hlast & Hflag)]].
    + by left.
    + right. left. exists v. split; [set_solver|exact H].
    + right. right. split; [exact H|]. by exists flag.
Qed.

(** X13: the input directory [parseArgs] returns is the default
    ./receipts, or one of the arguments, or undefined; it is undefined
    only when the last argument is a directory flag, which then has no
    value to take. *)
Theorem parseArgs_directory (argv : list jsstring) :
  directoryPath (parseArgs argv) = VStr (js "./receipts")
  \/ (exists v, v ∈ drop 2 argv /\ directoryPath (parseArgs argv) = VStr v)
  \/ (directoryPath (parseArgs argv) = VUndefined
      /\ exists flag, last (drop 2 argv) = Some flag
           /\ is_flag flag "--dir" "-d" = true).
Proof. apply (parseArgs_loop_directory (drop 2 argv) default_args). Qed.

(** * The raw export *)

Lemma take_drop_while f s : take_while f s ++ drop_while f s = s.
Proof.
  induction s as [|x t IH]; [done|]. simpl.
  destruct (f x); simpl; [by rewrite IH|done].
Qed.

Lemma trim_infix s : exists pre post, s = pre ++ trim s ++ post.
Proof.
  unfold trim. set (A := drop_while is_space s).
  exists (take_while is_space s),
         (reverse (take_while is_space (reverse A))).
  rewrite <- reverse_app, take_drop_while, reverse_involutive.
  by rewrite take_drop_while.
Qed.

Lemma char_replace_spaces_tidy t :
  tidy (str_replace_all
          (str_replace_all (str_replace_all t (char_re code_nl) (js " "))
             (char_re code_cr) [])
          whitespace_run_re (js " ")) = true.
Proof. unfold str_replace_all at 1. apply replace_ws_tidy. lia. Qed.

Lemma cleanText_shape text :
  Forall (fun x => is_space x = true -> x = code_sp) (cleanText text)
  /\ (forall pre x y post,
        cleanText text = pre ++ x :: y :: post ->
        is_space x = true -> is_space y = false)
  /\ starts_space (cleanText text) = false
  /\ starts_space (reverse (cleanText text)) = false
  /\ (code_nl ∉ cleanText text) /\ (code_cr ∉ cleanText text).
Proof.
  pose proof (char_replace_spaces_tidy text) as Ht.
  unfold cleanText.
  set (T := str_replace_all _ whitespace_run_re (js " ")) in *.
  destruct (trim_infix T) as (p & q & HT).
  assert (Hall : Forall (fun x => is_space x = true -> x = code_sp) (trim T)).
  { pose proof (tidy_spaces T Ht) as H. rewrite HT in H.
    apply Forall_app in H as [_ H]. by apply Forall_app in H as [H _]. }
  split; [exact Hall|]. split.
  { intros pre x y post Heq Hx.
    eapply (tidy_no_adjacent T (p ++ pre) x y (post ++ q)); [done| |done].
    rewrite HT at 1. rewrite Heq. by rewrite <- !(assoc_L (++)). }
  split; [apply trim_starts|]. split; [apply trim_ends|].
  rewrite Forall_forall in Hall.
  split; intros Hin; by specialize (Hall _ Hin eq_refl).
Qed.

(** X14: the text [saveSimpleCsv] puts in a row has no newline and no
    carriage return; its white space is made of single U+0020 characters,
    never two in a row and none at either end. *)
Theorem cleanText_one_line (text : jsstring) :
  Forall (fun x => is_space x = true -> x = code_sp) (cleanText text)
  /\ (forall pre x y post,
        cleanText text = pre ++ x :: y :: post ->
        is_space x = true -> is_space y = false)
  /\ starts_space (cleanText text) = false
  /\ starts_space (reverse (cleanText text)) = false
  /\ (code_nl ∉ cleanText text) /\ (code_cr ∉ cleanText text).
Proof. apply cleanText_shape. Qed.

Lemma escapeText_flat c :
  escapeText c =
    flat_map (fun x => if x =? code_quote then [code_quote; code_quote] else [x]) c.
Proof.
  unfold escapeText, str_replace_all.
  apply (replace_from_char _ _ _ _ _ (char_re_tests code_quote)). lia.
Qed.

Lemma escapeText_nil : escapeText [] = [].
Proof. by rewrite escapeText_flat. Qed.

Lemma escapeText_cons x c :
  escapeText (x :: c) =
    (if x =? code_quote then [code_quote; code_quote] else [x]) ++ escapeText c.
Proof. by rewrite !escapeText_flat. Qed.

(** X15: doubling the quotes loses nothing: two texts with the same
    escaped form are the same text. *)
Theorem escapeText_injective (a b : jsstring) :
  escapeText a = escapeText b -> a = b.
Proof.
  revert b. induction a as [|x a IH]; intros [|y b].
  - done.
  - rewrite escapeText_nil, escapeText_cons. by destruct (y =? code_quote).
  - rewrite escapeText_nil, escapeText_cons. by destruct (x =? code_quote).
  - rewrite !escapeText_cons.
    destruct (N.eqb_spec x code_quote) as [->|Hx],
             (N.eqb_spec y code_quote) as [->|Hy]; simpl.
    + intros [= H]. by rewrite (IH b H).
    + intros [= H1 H2]. by subst.
    + intros [= H1 H2]. by subst.
    + intros [= -> H]. by rewrite (IH b H).
Qed.

Lemma escapeText_injective_witness :
  escapeText (js "a") = escapeText [97] /\ js "a" = [97].
Proof.
  assert (H : escapeText (js "a") = escapeText [97]) by (vm_compute; reflexivity).
  split; [exact H|]. exact (escapeText_injective (js "a") [97] H).
Defined.

Lemma escapeText_elem x c :
  x ∈ escapeText c -> x ∈ c \/ x = code_quote.
Proof.
  induction c as [|y c IH].
  - rewrite escapeText_nil. by rewrite elem_of_nil.
  - rewrite escapeText_cons.
    destruct (N.eqb_spec y code_quote) as [->|Hy]; simpl;
      rewrite !elem_of_cons; intros H; set_solver.
Qed.

Lemma split_by_app sep a x rest :
  forallb (fun y => negb (sep y)) a = true -> sep x = true ->
  split_by sep (a ++ x :: rest) = a :: split_by sep rest.
Proof.
  intros Ha Hx. induction a as [|y t IH]; simpl.
  - by rewrite Hx.
  - cbn [forallb] in Ha. apply andb_true_iff in Ha as [Hy Ht].
    apply negb_true_iff in Hy. rewrite Hy, IH by done. done.
Qed.

Lemma split_lines_line a rest :
  code_nl ∉ a -> split_lines (a ++ code_nl :: rest) = a :: split_lines rest.
Proof.
  intros Ha. apply split_by_app; [|done].
  apply forallb_forall. intros y Hy. apply negb_true_iff, N.eqb_neq.
  intros ->. by apply Ha, list_elem_of_In.
Qed.

Lemma csv_row_line receipt :
  code_nl ∉ raw_id receipt ->
  exists line, csv_row receipt = line ++ [code_nl] /\ code_nl ∉ line.
Proof.
  intros Hid. unfold csv_row.
  exists (raw_id receipt ++ js "," ++ [code_quote]
          ++ escapeText (cleanText (raw_text receipt)) ++ [code_quote]).
  split; [by rewrite <- !(assoc_L (++))|].
  destruct (cleanText_shape (raw_text receipt)) as (_ & _ & _ & _ & Hnl & _).
  rewrite !elem_of_app. intros [H|[H|[H|[H|H]]]]; try done.
  - vm_compute in H. set_solver.
  - apply list_elem_of_singleton in H. done.
  - apply escapeText_elem in H as [H|H]; [done|done].
  - apply list_elem_of_singleton in H. done.
Qed.

Lemma saveSimpleCsv_rows receipts :
  saveSimpleCsv receipts
  = (js "id,text" ++ [code_nl]) ++ concat (map csv_row receipts).
Proof.
  unfold saveSimpleCsv. generalize (js "id,text" ++ [code_nl]).
  induction receipts as [|r rs IH]; intros acc; simpl.
  - by rewrite app_nil_r.
  - rewrite IH. by rewrite <- (assoc_L (++)).
Qed.

Lemma split_lines_last_cons line rest :
  last (line :: split_lines rest) = last (split_lines rest).
Proof.
  unfold split_lines. destruct rest as [|x t]; [done|]. simpl.
  destruct (x =? code_nl); [done|]. by destruct (split_by _ t).
Qed.

Lemma rows_lines receipts :
  Forall (fun r => code_nl ∉ raw_id r) receipts ->
  length (split_lines (concat (map csv_row receipts))) = S (length receipts)
  /\ last (split_lines (concat (map csv_row receipts))) = Some [].
Proof.
  induction 1 as [|r rs Hr _ [IHlen IHlast]]; [done|].
  cbn [map concat length].
  destruct (csv_row_line r Hr) as (line & -> & Hline).
  rewrite <- (assoc_L (++)). cbn [app].
  rewrite split_lines_line by done. cbn [length].
  rewrite split_lines_last_cons. by rewrite IHlen.
Qed.

(** X16: when no receipt id has a newline in it, the file
    [saveSimpleCsv] writes has one line for the header and one line per
    receipt, each ended by a newline: whatever newlines the OCR text has,
    none reaches the file. *)
Theorem saveSimpleCsv_one_line_per_receipt (receipts : list RawReceipt) :
  Forall (fun r => code_nl ∉ raw_id r) receipts ->
  length (split_lines (saveSimpleCsv receipts)) = (length receipts + 2)%nat
  /\ last (split_lines (saveSimpleCsv receipts)) = Some [].
Proof.
  intros Hids. rewrite saveSimpleCsv_rows, <- (assoc_L (++)). cbn [app].
  assert (Hh : code_nl ∉ js "id,text") by (vm_compute; set_solver).
  rewrite split_lines_line by done.
  destruct (rows_lines receipts Hids) as [Hlen Hlast].
  cbn [length]. rewrite split_lines_last_cons, Hlen. split; [lia|done].
Qed.

Lemma saveSimpleCsv_one_line_per_receipt_witness :
  length (split_lines
            (saveSimpleCsv [ {| raw_id := js "r1";
                                raw_text := two_item_lines |} ]))
  = 3%nat
  /\ last (split_lines
             (saveSimpleCsv [ {| raw_id := js "r1";
                                 raw_text := two_item_lines |} ]))
     = Some [].
Proof.
  apply (saveSimpleCsv_one_line_per_receipt
           [ {| raw_id := js "r1"; raw_text := two_item_lines |} ]).
  repeat constructor. vm_compute. set_solver.
Defined.

(** * The first parser *)

Section RepeatBounded.
Variables (body : matcher) (R : srel).
Hypothesis body_sound : sound body R.

Lemma repeat_opt_bounded greedy fuel k s c z :
  repeat_opt body greedy fuel k s c = Some z ->
  exists n s' c', (n <= fuel)%nat /\ iter R n s c s' c' /\ k s' c' = Some z.
Proof.
  revert s c z. induction fuel as [|fuel IH]; intros s c z; simpl.
  - intros Hk. by exists 0%nat, s, c.
  - assert (Hagain : forall z',
      body (fun s' c' =>
              if (length s' <? length s)%nat
              then repeat_opt body greedy fuel k s' c' else None) s c = Some z' ->
      exists n s' c', (n <= S fuel)%nat /\ iter R n s c s' c'
        /\ k s' c' = Some z').
    { intros z' Hb. apply body_sound in Hb as (s1 & c1 & Hr & Hrest).
      destruct (length s1 <? length s)%nat; [|done].
      apply IH in Hrest as (n & s2 & c2 & Hn & Hit & Hk).
      exists (S n), s2, c2. split; [lia|]. split; [|done]. by exists s1, c1. }
    destruct greedy.
    + destruct (body _ s c) as [z'|] eqn:Hb.
      * intros [= <-]. by apply Hagain.
      * intros Hk. exists 0%nat, s, c. split; [lia|done].
    + destruct (k s c) as [z'|] eqn:Hk.
      * intros [= <-]. exists 0%nat, s, c. split; [lia|done].
      * apply Hagain.
Qed.
End RepeatBounded.

Lemma rmatch_bsound fl r : sound (rmatch fl r) (bspan fl r).
Proof.
  induction r as [|cs|cs| |r1 IH1 r2 IH2|r1 IH1 r2 IH2|g mn mx r IH|i r IH|];
    intros k s c z; simpl.
  - intros Hk. by exists s, c.
  - destruct s as [|x s']; [done|].
    destruct (cmatch fl cs x) eqn:Hx; [|done].
    intros Hk. exists s', c. split; [|done]. by exists x.
  - destruct s as [|x s']; [done|].
    destruct (cmatch fl cs x) eqn:Hx; [done|].
    intros Hk. exists s', c. split; [|done]. by exists x.
  - destruct s as [|x s']; [done|].
    destruct (is_line_terminator x) eqn:Hx; [done|].
    intros Hk. exists s', c. split; [|done]. by exists x.
  - intros H. apply IH1 in H as (s1 & c1 & H1 & H).
    apply IH2 in H as (s2 & c2 & H2 & Hk).
    exists s2, c2. split; [|done]. by exists s1, c1.
  - destruct (rmatch fl r1 k s c) as [z'|] eqn:H1.
    + intros [= <-]. apply IH1 in H1 as (s1 & c1 & H1 & Hk).
      exists s1, c1. split; [by left|done].
    + intros H2. apply IH2 in H2 as (s2 & c2 & H2 & Hk).
      exists s2, c2. split; [by right|done].
  - intros H.
    apply (repeat_min_sound _ _ IH) in H as (s1 & c1 & Hmin & H).
    apply (repeat_opt_bounded _ _ IH) in H as (n & s2 & c2 & Hn & Hopt & Hk).
    exists s2, c2. split; [|done].
    exists (mn + n)%nat. split; [lia|]. split; [|by eapply iter_app].
    destruct mx as [m|]; [|done]. unfold opt_fuel in Hn. lia.
  - intros H. apply IH in H as (s1 & c1 & H1 & Hk).
    exists s1, (<[i := consumed s s1]> c1). split; [|done]. by exists c1.
  - destruct (at_eol fl s) eqn:He; [|done].
    intros Hk. by exists s, c.
Qed.

Lemma search_from_bsound p pos text m rest :
  search_from p pos text = Some (m, rest) ->
  exists s, bspan (re_flags p) (re_body p) s ∅ rest (match_groups m).
Proof.
  assert (Hhere : forall s s' c, match_here p s = Some (s', c) ->
                    bspan (re_flags p) (re_body p) s ∅ s' c).
  { unfold match_here. intros s s' c H.
    apply rmatch_bsound in H as (s1 & c1 & Hspan & [= -> ->]). done. }
  revert pos. induction text as [|x t IH]; intros pos; simpl.
  - destruct (match_here p []) as [[s' c]|] eqn:H; [|done].
    intros [= <- <-]. exists []. by apply Hhere.
  - destruct (match_here p (x :: t)) as [[s' c]|] eqn:H.
    + intros [= <- <-]. exists (x :: t). by apply Hhere.
    + apply IH.
Qed.

Lemma str_match_bsound text p m :
  str_match text p = Some m ->
  exists s rest, bspan (re_flags p) (re_body p) s ∅ rest (match_groups m).
Proof.
  unfold str_match. destruct (search_from p 0 text) as [[m' rest]|] eqn:H; [|done].
  simpl. intros [= <-]. apply search_from_bsound in H as [s H]. by exists s, rest.
Qed.

Lemma bspan_groups_in fl i bodies (P : jsstring -> Prop) r :
  groups_in i bodies r = true ->
  (forall b, b ∈ bodies ->
     forall s c s' c', bspan fl b s c s' c' -> P (consumed s s')) ->
  forall s c s' c', bspan fl r s c s' c' ->
    (forall v, c !! i = Some v -> P v) -> forall v, c' !! i = Some v -> P v.
Proof.
  intros Hg Hbodies. revert Hg.
  induction r as [|cs|cs| |r1 IH1 r2 IH2|r1 IH1 r2 IH2|g mn mx r IH|j r IH|];
    simpl; intros Hg s c s' c'.
  - by intros [_ ->].
  - by intros (x & _ & _ & ->).
  - by intros (x & _ & _ & ->).
  - by intros (x & _ & _ & ->).
  - apply andb_true_iff in Hg as [Hg1 Hg2].
    intros (s1 & c1 & H1 & H2) Hc. eauto.
  - apply andb_true_iff in Hg as [Hg1 Hg2]. intros [H|H]; eauto.
  - intros (n & _ & _ & Hit) Hc.
    refine (iter_captures _
              (fun c c' => (forall v, c !! i = Some v -> P v) ->
                           forall v, c' !! i = Some v -> P v)
              _ _ _ n s c s' c' Hit Hc); [by auto|by auto|].
    intros s0 c0 s1 c1 H. by eapply IH.
  - apply andb_true_iff in Hg as [Hj Hg].
    intros (c1 & H & ->) Hc v. destruct (decide (i = j)) as [<-|Hne].
    + rewrite lookup_insert_eq. intros [= <-].
      rewrite bool_decide_eq_true_2 in Hj by done.
      apply bool_decide_eq_true in Hj. by eapply Hbodies.
    + rewrite lookup_insert_ne by done. by eapply IH.
  - by intros (_ & _ & ->).
Qed.

Lemma iter_bchar fl cs n s c s' c' :
  iter (bspan fl (RChar cs)) n s c s' c' ->
  exists w, s = w ++ s' /\ length w = n
    /\ Forall (fun x => cmatch fl cs x = true) w.
Proof.
  revert s c. induction n as [|n IH]; intros s c; simpl.
  - intros [-> ->]. by exists [].
  - intros (s1 & c1 & (x & -> & Hx & ->) & Hit).
    apply IH in Hit as (w & -> & Hlen & Hw).
    exists (x :: w). simpl. repeat split; [by f_equal|]. by constructor.
Qed.

Lemma bspan_digits fl g mn mx s c s' c' :
  (mn <= mx)%nat ->
  bspan fl (RQuant g mn (Some mx) digit) s c s' c' ->
  digits_between mn mx (consumed s s').
Proof.
  intros Hle (n & Hn & Hmax & Hit).
  apply iter_bchar in Hit as (w & -> & Hlen & Hw).
  rewrite consumed_app. split; [|lia].
  apply forallb_forall. intros y Hy.
  rewrite Forall_forall in Hw. apply (cmatch_digit fl), Hw.
  by apply list_elem_of_In.
Qed.

Lemma group_digits text p m i lo hi :
  str_match text p = Some m ->
  defines i (re_body p) = true ->
  groups_in i [RQuant true lo (Some hi) digit] (re_body p) = true ->
  (lo <= hi)%nat ->
  exists v, match_groups m !! i = Some v /\ digits_between lo hi v.
Proof.
  intros Hm Hd Hg Hle.
  destruct (str_match_defined _ _ _ _ Hd Hm) as [v Hv].
  exists v. split; [done|].
  apply str_match_bsound in Hm as (s & rest & Hspan).
  refine (bspan_groups_in (re_flags p) i _ (digits_between lo hi) _ Hg _
            s ∅ rest _ Hspan _ v Hv).
  - intros b ->%list_elem_of_singleton s0 c0 s1 c1. by apply bspan_digits.
  - intros w. by rewrite lookup_empty.
Qed.

Lemma uint_digits_digits d : forallb is_digit (uint_digits d) = true.
Proof. induction d; simpl; done. Qed.

Lemma num_to_string_digits n : all_digits (num_to_string n) = true.
Proof.
  unfold num_to_string, all_digits.
  destruct (uint_digits (N.to_uint n)) as [|x t] eqn:Hd.
  - destruct n as [|p]; [done|]. simpl in Hd.
    pose proof (Unsigned.to_uint_nonnil p) as Hnil.
    destruct (Pos.to_uint p); done.
  - rewrite <- Hd. apply uint_digits_digits.
Qed.

Lemma padStart_two v :
  digits_between 1 2 v -> digits_between 2 2 (padStart0 2 v).
Proof.
  intros [Hd Hlen]. unfold padStart0.
  destruct v as [|a [|b [|c t]]]; simpl in Hlen; try lia; split; simpl;
    try done; try lia.
Qed.

Lemma year_digits lo v :
  (1 <= lo)%nat -> digits_between lo 4 v ->
  all_digits (if (length v =? 2)%nat then js "20" ++ v else v) = true.
Proof.
  intros Hlo [Hd Hlen]. destruct (length v =? 2)%nat.
  - change (js "20" ++ v) with (50 :: 48 :: v). unfold all_digits. simpl.
    exact Hd.
  - destruct v as [|x t]; [simpl in Hlen; lia|exact Hd].
Qed.

Lemma date_of_match_shape rt text p m :
  p ∈ VisionReceiptParser.datePatterns -> str_match text p = Some m ->
  exists d, VisionReceiptParser.date_of_match rt p m = Ok (Some d)
    /\ date_shape d.
Proof.
  unfold VisionReceiptParser.datePatterns.
  rewrite !elem_of_cons, elem_of_nil. intros [->|[->|[->|[]]]] Hm.
  - destruct (group_digits _ _ _ 1 4 4 Hm) as (v1 & E1 & D1);
      [vm_compute; reflexivity|vm_compute; reflexivity|lia|].
    destruct (group_digits _ _ _ 2 1 2 Hm) as (v2 & E2 & D2);
      [vm_compute; reflexivity|vm_compute; reflexivity|lia|].
    destruct (group_digits _ _ _ 3 1 2 Hm) as (v3 & E3 & D3);
      [vm_compute; reflexivity|vm_compute; reflexivity|lia|].
    unfold VisionReceiptParser.date_of_match.
    change (match_length _ =? 4)%nat with true. cbn [match_get].
    rewrite E1, E2, E3. cbn [defined mbind result_bind rbind].
    eexists. split; [reflexivity|].
    eexists _, _, _. split; [reflexivity|].
    split; [apply (year_digits 4); [lia|done]|]. split; by apply padStart_two.
  - destruct (group_digits _ _ _ 1 2 4 Hm) as (v1 & E1 & D1);
      [vm_compute; reflexivity|vm_compute; reflexivity|lia|].
    destruct (group_digits _ _ _ 2 1 2 Hm) as (v2 & E2 & D2);
      [vm_compute; reflexivity|vm_compute; reflexivity|lia|].
    destruct (group_digits _ _ _ 3 1 2 Hm) as (v3 & E3 & D3);
      [vm_compute; reflexivity|vm_compute; reflexivity|lia|].
    unfold VisionReceiptParser.date_of_match.
    change (match_length _ =? 4)%nat with true. cbn [match_get].
    rewrite E1, E2, E3. cbn [defined mbind result_bind rbind].
    eexists. split; [reflexivity|].
    eexists _, _, _. split; [reflexivity|].
    split; [apply (year_digits 2); [lia|done]|]. split; by apply padStart_two.
  - destruct (group_digits _ _ _ 1 1 2 Hm) as (v1 & E1 & D1);
      [vm_compute; reflexivity|vm_compute; reflexivity|lia|].
    destruct (group_digits _ _ _ 2 1 2 Hm) as (v2 & E2 & D2);
      [vm_compute; reflexivity|vm_compute; reflexivity|lia|].
    unfold VisionReceiptParser.date_of_match.
    change (match_length _ =? 4)%nat with false.
    change (match_length _ =? 3)%nat with true. cbn [match_get].
    rewrite E1, E2. cbn [defined mbind result_bind rbind].
    eexists. split; [reflexivity|].
    eexists _, _, _. split; [reflexivity|].
    split; [apply num_to_string_digits|]. split; by apply padStart_two.
Qed.

Lemma extractDate_loop_shape rt text ps :
  (forall p, p ∈ ps -> p ∈ VisionReceiptParser.datePatterns) ->
  exists d, VisionReceiptParser.extractDate_loop rt text ps = Ok d
    /\ (d = unknown_date \/ date_shape d).
Proof.
  induction ps as [|p ps IH]; intros Hsub; simpl.
  - exists unknown_date. by split; [|left].
  - destruct (str_match text p) as [m|] eqn:Hm.
    + destruct (date_of_match_shape rt text p m) as (d & -> & Hd);
        [apply Hsub; set_solver|done|].
      cbn [mbind result_bind rbind]. exists d. by split; [|right].
    + apply IH. intros q Hq. apply Hsub. set_solver.
Qed.

(** X17: the date reader of the first parser never throws; what it
    returns is the sentinel 日付不明 or a date in the form
    year-month-day, the year in digits, the month and the day padded to
    exactly two digits. *)
Theorem vision_extractDate_shape rt (text : jsstring) :
  exists d, VisionReceiptParser.extractDate rt text = Ok d
    /\ (d = unknown_date \/ date_shape d).
Proof. by apply extractDate_loop_shape. Qed.

Lemma checked_capture text p v :
  defines 1 (re_body p) = true ->
  groups_in 1 [number_body] (re_body p) = true ->
  first_capture text p = Some v -> number_shaped v = true.
Proof.
  intros Hd Hg. unfold first_capture.
  destruct (str_match text p) as [m|] eqn:Hm; [|done]. cbn [match_get].
  destruct (match_groups m !! 1%nat) as [w|] eqn:Hw; [|done].
  destruct (bool_decide (w = [])); [done|]. intros [= <-].
  exact (str_match_groups_in text p m 1 [number_body]
           (fun v => number_shaped v = true) Hg (number_body_consumed _) Hm w Hw).
Qed.

Lemma first_capture_infix text p v :
  first_capture text p = Some v -> infix v text.
Proof.
  unfold first_capture.
  destruct (str_match text p) as [m|] eqn:Hm; [|done]. cbn [match_get].
  destruct (match_groups m !! 1%nat) as [w|] eqn:Hw; [|done].
  destruct (bool_decide (w = [])); [done|]. intros [= <-].
  by eapply str_match_capture_infix.
Qed.

Lemma first_number_natural text ps v :
  forallb (fun p => defines 1 (re_body p)
                    && groups_in 1 [number_body] (re_body p)) ps = true ->
  VisionReceiptParser.first_number text ps = Some v ->
  natural_when (numbers_in_range text) v.
Proof.
  induction ps as [|p ps IH]; [done|]. cbn [forallb].
  rewrite !andb_true_iff. intros [[Hd Hg] Hps]. simpl.
  destruct (first_capture text p) as [w|] eqn:Hw; [|by apply IH].
  intros [= <-]. pose proof (first_capture_infix _ _ _ Hw) as Hin.
  apply (checked_capture _ _ _ Hd Hg) in Hw.
  eapply natural_when_impl; [|by apply number_parse].
  intros Htext. by apply (number_in_text text w).
Qed.

Lemma first_number_no_number text ps :
  forallb (fun p => requires_number (re_body p)) ps = true ->
  has_number text = false ->
  VisionReceiptParser.first_number text ps = None.
Proof.
  intros Hps Hno. induction ps as [|p ps IH]; [done|].
  cbn [forallb] in Hps. apply andb_true_iff in Hps as [Hp Hps]. simpl.
  rewrite first_capture_no_match by by apply str_match_no_number.
  by apply IH.
Qed.

Lemma number_token_natural text w :
  w ∈ match_all_from VisionReceiptParser.number_re (S (length text)) text ->
  natural_when (numbers_in_range text)
    (parseInt (str_replace_all w comma_re [])).
Proof.
  intros Hin. apply match_all_from_elem in Hin as (s0 & rest & c & Hs & Hspan & ->).
  apply span_number_body in Hspan as (_ & w & -> & Hw).
  rewrite consumed_app.
  eapply natural_when_impl; [|by apply number_parse].
  intros Htext. apply (number_in_text text w); [|done|done].
  apply (infix_suffix _ (w ++ rest)); [|done]. by exists [], rest.
Qed.

Lemma number_re_no_number pos text :
  has_number text = false ->
  search_from VisionReceiptParser.number_re pos text = None.
Proof.
  intros Hno.
  destruct (search_from VisionReceiptParser.number_re pos text)
    as [[m rest]|] eqn:Hs; [|done].
  apply search_from_sound in Hs as (s & Hsuf & Hspan & _).
  apply span_number_body in Hspan as (_ & w & -> & Hw).
  assert (has_number text = true); [|congruence].
  eapply has_number_suffix; [done|].
  by apply has_number_app_l, number_shaped_has_number.
Qed.

Lemma vision_amount_patterns_checked :
  forallb (fun p => defines 1 (re_body p)
                    && groups_in 1 [number_body] (re_body p))
    VisionReceiptParser.amountPatterns = true
  /\ forallb (fun p => requires_number (re_body p))
       VisionReceiptParser.amountPatterns = true
  /\ forallb (fun p => defines 1 (re_body p)
                       && groups_in 1 [number_body] (re_body p))
       VisionReceiptParser.taxPatterns = true.
Proof. repeat split; vm_compute; reflexivity. Qed.

Lemma vision_extractAmount_natural text :
  natural_when (numbers_in_range text) (VisionReceiptParser.extractAmount text).
Proof.
  destruct vision_amount_patterns_checked as (Hamt & Hreq & Htax).
  unfold VisionReceiptParser.extractAmount.
  destruct (VisionReceiptParser.first_number text _) as [v|] eqn:Hfirst.
  { exact (first_number_natural text _ v Hamt Hfirst). }
  unfold str_match_all.
  destruct (match_all_from VisionReceiptParser.number_re (S (length text)) text)
    as [|n0 ns] eqn:Hall; [apply natural_when_zero|].
  apply math_max_natural_when; [done|].
  apply Forall_forall. intros v Hv.
  apply list_elem_of_fmap in Hv as (w & -> & Hw).
  apply (number_token_natural text). by rewrite Hall.
Qed.

Lemma vision_extractTaxAmount_natural text :
  VisionReceiptParser.extractTaxAmount text = VUndefined
  \/ natural_when (numbers_in_range text)
       (VisionReceiptParser.extractTaxAmount text).
Proof.
  destruct vision_amount_patterns_checked as (Hamt & Hreq & Htax).
  unfold VisionReceiptParser.extractTaxAmount.
  destruct (VisionReceiptParser.first_number text _) as [v|] eqn:Hfirst;
    [right|by left].
  exact (first_number_natural text _ v Htax Hfirst).
Qed.

(** X18: the amount reader of the first parser always returns a
    non-negative integer or positive infinity, never not-a-number and
    never a negative number, and returns 0 for a text in which no digit
    is followed by a digit or a comma; its tax reader returns undefined
    or such a number.  When no run of digits and commas of the text is
    longer than 308 characters, the numbers are non-negative integers. *)
Theorem vision_amounts_natural (text : jsstring) :
  natural_or_infinite (VisionReceiptParser.extractAmount text)
  /\ (has_number text = false ->
      VisionReceiptParser.extractAmount text = VNum 0)
  /\ (VisionReceiptParser.extractTaxAmount text = VUndefined
      \/ natural_or_infinite (VisionReceiptParser.extractTaxAmount text))
  /\ (numbers_in_range text ->
      natural_value (VisionReceiptParser.extractAmount text)
      /\ (VisionReceiptParser.extractTaxAmount text = VUndefined
          \/ natural_value (VisionReceiptParser.extractTaxAmount text))).
Proof.
  destruct vision_amount_patterns_checked as (Hamt & Hreq & Htax).
  destruct (vision_extractAmount_natural text) as [Ha1 Ha2].
  split; [done|]. split.
  { intros Hno. unfold VisionReceiptParser.extractAmount.
    rewrite first_number_no_number by done.
    unfold str_match_all. cbn [match_all_from].
    by rewrite number_re_no_number. }
  destruct (vision_extractTaxAmount_natural text) as [Ht|[Ht1 Ht2]].
  - split; [by left|]. intros Hrange. split; [auto|by left].
  - split; [by right|]. intros Hrange. split; auto.
Qed.

Lemma vision_extractStoreName_total text :
  exists s, VisionReceiptParser.extractStoreName text = Ok s.
Proof.
  unfold VisionReceiptParser.extractStoreName.
  destruct (VisionReceiptParser.first_trimmed text _); [by eauto|].
  destruct (List.filter _ (split_lines text)) as [|l0 lines]; simpl; eauto.
Qed.

(** X19: the assembler of the first parser never throws; it keeps the
    raw text as it is, its date is the sentinel or a canonical date, its
    amount and the quantities and prices of its line items are
    non-negative integers or positive infinity, never not-a-number and
    never negative, and there is at most one item per line of the text.
    When no run of digits and commas of the text is longer than 308
    characters, all these numbers are non-negative integers. *)
Theorem vision_parseReceiptText_total rt (text path : jsstring) :
  exists r, VisionReceiptParser.parseReceiptText rt text path = Ok r
    /\ rawText r = text
    /\ (exists d, date r = VStr d /\ (d = unknown_date \/ date_shape d))
    /\ natural_or_infinite (amount r)
    /\ (length (items r) <= length (split_lines text))%nat
    /\ Forall natural_or_infinite_item (items r)
    /\ (numbers_in_range text ->
        natural_value (amount r) /\ Forall natural_item (items r)).
Proof.
  destruct (vision_extractStoreName_total text) as [s Hs].
  destruct (extractDate_loop_shape rt text VisionReceiptParser.datePatterns)
    as (d & Hd & Hshape); [done|].
  fold (VisionReceiptParser.extractDate rt text) in Hd.
  destruct (extractItems_total text) as [its Hits].
  destruct (extractItems_lines_natural _ _ Hits) as (Hlen & Hnat & Hfin).
  destruct (vision_extractAmount_natural text) as [Ha1 Ha2].
  unfold VisionReceiptParser.parseReceiptText.
  rewrite Hs, Hd, Hits. cbn [mbind result_bind rbind].
  eexists. split; [reflexivity|]. cbn [rawText date amount items].
  split; [done|]. split; [by exists d|]. split; [done|].
  split; [done|]. split; [done|].
  intros Hrange. split; [auto|]. by apply Hfin, lines_in_range.
Qed.

(** X20: where the classifier of the first parser gives a category other
    than その他, the classifier of the analyzer gives the same one: the
    analyzer only adds categories after the four they share. *)
Theorem categorizers_agree rt (s : jsstring) :
  VisionReceiptParser.categorizeStore rt s <> js "その他" ->
  categorizeStore rt s = VisionReceiptParser.categorizeStore rt s.
Proof.
  unfold VisionReceiptParser.categorizeStore, categorizeStore.
  destruct (re_test dining_re _); [done|].
  destruct (re_test groceries_re _); [done|].
  destruct (re_test fuel_re _); [done|].
  destruct (re_test lodging_re _); done.
Qed.

Lemma categorizers_agree_witness :
  VisionReceiptParser.categorizeStore sample_runtime (js "Cafe 山") <> js "その他"
  /\ categorizeStore sample_runtime (js "Cafe 山") = js "飲食".
Proof.
  assert (H : VisionReceiptParser.categorizeStore sample_runtime (js "Cafe 山")
              <> js "その他") by (vm_compute; discriminate).
  split; [exact H|].
  rewrite (categorizers_agree sample_runtime (js "Cafe 山") H).
  vm_compute. reflexivity.
Defined.
